(** * LucidIQ backend: the request sanitizer and the response extractor

    A shallow embedding of [sanitizeInput] and of the two request handlers
    of the Express server ([/api/analyze] and [/api/chat]), with the
    runtime functions they rely on ([String.prototype.substring], [trim],
    the regular expressions, [JSON.parse], [JSON.stringify]).

    JavaScript strings are sequences of UTF-16 code units; a code unit is
    kept as an [N]. *)

From Stdlib Require Import String Ascii.
From Stdlib Require Import List NArith ZArith Bool Lia.
From Stdlib Require Import DecimalZ Sorted.
Import ListNotations.

Local Open Scope N_scope.

(** ** Strings *)

Definition char16 := N.
Definition jsstring := list char16.

(** An ASCII literal as a JavaScript string. *)
Definition js (s : string) : jsstring :=
  map N_of_ascii (list_ascii_of_string s).

(** The same, reading every apostrophe as a double quote: JSON texts are
    written ['{'a':1}'] in the examples below. *)
Definition jsq (s : string) : jsstring :=
  map (fun c => if c =? 39 then 34 else c) (js s).

Definition in_range (lo hi c : N) : bool := (lo <=? c) && (c <=? hi).

(** [WhiteSpace] and [LineTerminator] of ECMA-262, the code units that
    [String.prototype.trim] removes. *)
Definition is_space (c : char16) : bool :=
  in_range 9 13 c || (c =? 32) || (c =? 160) || (c =? 5760)
  || in_range 8192 8202 c || (c =? 8232) || (c =? 8233) || (c =? 8239)
  || (c =? 8287) || (c =? 12288) || (c =? 65279).

Fixpoint trimStart (s : jsstring) : jsstring :=
  match s with
  | [] => []
  | c :: s' => if is_space c then trimStart s' else s
  end.

Definition trimEnd (s : jsstring) : jsstring := rev (trimStart (rev s)).

Definition trim (s : jsstring) : jsstring := trimEnd (trimStart s).

(** [s.substring(start, end)]: both indices are clamped to [0, length] and
    swapped when the first exceeds the second. *)
Definition clamp (len x : Z) : Z := Z.min (Z.max x 0) len.

Definition substring (s : jsstring) (start end_ : Z) : jsstring :=
  let len := Z.of_nat (length s) in
  let finalStart := clamp len start in
  let finalEnd := clamp len end_ in
  let from := Z.min finalStart finalEnd in
  let to := Z.max finalStart finalEnd in
  firstn (Z.to_nat (to - from)) (skipn (Z.to_nat from) s).

(** ** JSON values

    A number is a double.  The zero and the negative zero are two values.
    A finite double other than zero is kept as its sign and the decimal
    that Number::toString writes for it: the digits (code units, without
    leading or trailing zero) and a power of ten.  [JSON.number_value]
    rounds the value of a literal to the nearest double and chooses that
    decimal, so that two literals of one double give one value. *)

Inductive jsnumber :=
| NumZero
| NumFinite (neg : bool) (coef : list char16) (exp10 : Z)
| NumInfinity (neg : bool)
| NumNegZero.

(** An object keeps its properties in the order in which the engine
    lists them: the array indices in ascending order first, then the other
    keys in the order of their creation ([JSON.set_prop]). *)
#[warnings="-register-all"]
Inductive json :=
| JNull
| JBool (b : bool)
| JNumber (n : jsnumber)
| JString (s : jsstring)
| JArray (elems : list json)
| JObject (props : list (jsstring * json)).

(** A value read from a request body: [None] is [undefined], a field that
    is absent. *)
Definition jsvalue := option json.

(** ToBoolean. *)
Definition truthy (v : jsvalue) : bool :=
  match v with
  | None => false
  | Some JNull => false
  | Some (JBool b) => b
  | Some (JNumber NumZero) => false
  | Some (JNumber NumNegZero) => false
  | Some (JNumber _) => true
  | Some (JString s) => match s with [] => false | _ => true end
  | Some (JArray _) => true
  | Some (JObject _) => true
  end.

Definition is_string (v : jsvalue) : bool :=
  match v with Some (JString _) => true | _ => false end.

(** ** The regular expressions of [sanitizeInput] *)

(** [/[<>{}[\]`]/]: the class of the seven removed characters. *)
Definition in_char_class (c : char16) : bool :=
  (c =? 60) (* < *) || (c =? 62) (* > *) || (c =? 123) (* { *)
  || (c =? 125) (* } *) || (c =? 91) (* [ *) || (c =? 93) (* ] *)
  || (c =? 96) (* ` *).

(** [.replace(/[<>{}[\]`]/g, '')] *)
Definition replace_char_class (s : jsstring) : jsstring :=
  filter (fun c => negb (in_char_class c)) s.

(** [\w] without the [u] flag: [A-Za-z0-9_]. *)
Definition is_word_char (c : char16) : bool :=
  in_range 48 57 c || in_range 65 90 c || (c =? 95) || in_range 97 122 c.

Definition is_word (c : option char16) : bool :=
  match c with Some c => is_word_char c | None => false end.

(** [\b] holds between [prev] and [next] (either may be the end of the
    input) when exactly one of them is a word character. *)
Definition word_boundary (prev next : option char16) : bool :=
  xorb (is_word prev) (is_word next).

(** Canonicalize of a code unit under the [i] flag (without [u]): the
    upper-case form.  A code unit above 127 is never mapped below 128, so
    only the ASCII part matters against a pattern of ASCII letters. *)
Definition canonicalize (c : char16) : char16 :=
  if in_range 97 122 c then c - 32 else c.

(** The alternatives of the pattern, in its order. *)
Definition denylist : list jsstring :=
  map js ["ignore"; "forget"; "disregard"; "override"; "instead";
          "pretend"; "imagine"; "roleplay"; "jailbreak"]%string.

(** [w] matched case-insensitively at the head of [s]: the matched code
    units and what follows them. *)
Fixpoint match_prefix (w s : jsstring) : option (jsstring * jsstring) :=
  match w, s with
  | [], _ => Some ([], s)
  | p :: w', c :: s' =>
      if canonicalize p =? canonicalize c then
        match match_prefix w' s' with
        | Some (m, rest) => Some (c :: m, rest)
        | None => None
        end
      else None
  | _ :: _, [] => None
  end.

Definition last_or (prev : option char16) (s : jsstring) : option char16 :=
  match rev s with c :: _ => Some c | [] => prev end.

(** [(w1|w2|...)\b] at the head of [s], with [prev] the code unit before
    it: the length of the match of the first alternative that succeeds. *)
Fixpoint match_alternatives (alts : list jsstring) (prev : option char16)
    (s : jsstring) : option nat :=
  match alts with
  | [] => None
  | w :: alts' =>
      match match_prefix w s with
      | Some (m, rest) =>
          if word_boundary (last_or prev m) (hd_error rest)
          then Some (length m)
          else match_alternatives alts' prev s
      | None => match_alternatives alts' prev s
      end
  end.

(** [/\b(ignore|...|jailbreak)\b/i] tried at one position. *)
Definition match_denylist (prev : option char16) (s : jsstring) : option nat :=
  if word_boundary prev (hd_error s)
  then match_alternatives denylist prev s
  else None.

(** [.replace(re, '')] with the [g] flag, for a matcher [re]: the input is
    scanned from the left; a match is dropped and the scan resumes behind
    it.  [skip] counts the code units of the current match that are still
    to be dropped, [prev] is the code unit before the head of [s].  An empty
    match removes nothing and the scan moves on by one code unit. *)
Fixpoint replace_scan (re : option char16 -> jsstring -> option nat)
    (prev : option char16) (skip : nat) (s : jsstring) : jsstring :=
  match s with
  | [] => []
  | c :: s' =>
      match skip with
      | S k => replace_scan re (Some c) k s'
      | O =>
          match re prev s with
          | Some (S k) => replace_scan re (Some c) k s'
          | _ => c :: replace_scan re (Some c) 0 s'
          end
      end
  end.

Definition replace_denylist (s : jsstring) : jsstring :=
  replace_scan match_denylist None 0 s.

(** ** [sanitizeInput] *)

Definition sanitizeInput (input : jsvalue) (maxLength : Z) : jsstring :=
  if negb (truthy input) || negb (is_string input) then []
  else
    match input with
    | Some (JString s) =>
        trim (replace_denylist
                (replace_char_class (substring s 0 maxLength)))
    | _ => []   (* not reached: the input is a string *)
    end.

(** The default of the second parameter. *)
Definition sanitizeInput_default (input : jsvalue) : jsstring :=
  sanitizeInput input 200.


(** ** [JSON.parse] and [JSON.stringify]

    [JSON.parse] is a lexer, a machine that reads one code unit at a time,
    followed by a push-down parser that reads one token at a time.  Both
    follow the JSON grammar of ECMA-404. *)

Module JSON.

Inductive token :=
| TLBrace | TRBrace | TLBracket | TRBracket | TColon | TComma
| TString (s : jsstring)
| TNumber (n : jsnumber)
| TTrue | TFalse | TNull.

(** JSON white space: tab, line feed, carriage return, space. *)
Definition is_ws (c : char16) : bool :=
  (c =? 9) || (c =? 10) || (c =? 13) || (c =? 32).

Definition is_digit (c : char16) : bool := in_range 48 57 c.

(** *** Numbers

    The exact value of a literal is rounded to the nearest double
    ([round_double]); a finite double other than zero is then kept as the
    decimal that Number::toString writes for it ([shortest]), which is how
    [jsnumber] holds it. *)

Fixpoint strip_zeros (ds : list char16) : list char16 :=
  match ds with
  | c :: ds' => if c =? 48 then strip_zeros ds' else ds
  | [] => []
  end.

Definition uint_digit (c : char16) (u : Decimal.uint) : Decimal.uint :=
  match c - 48 with
  | 0 => Decimal.D0 u | 1 => Decimal.D1 u | 2 => Decimal.D2 u
  | 3 => Decimal.D3 u | 4 => Decimal.D4 u | 5 => Decimal.D5 u
  | 6 => Decimal.D6 u | 7 => Decimal.D7 u | 8 => Decimal.D8 u
  | _ => Decimal.D9 u
  end.

Fixpoint uint_of_digits (ds : list char16) : Decimal.uint :=
  match ds with
  | [] => Decimal.Nil
  | c :: ds' => uint_digit c (uint_of_digits ds')
  end.

Fixpoint digits_of_uint (u : Decimal.uint) : list char16 :=
  match u with
  | Decimal.Nil => []
  | Decimal.D0 u => 48 :: digits_of_uint u
  | Decimal.D1 u => 49 :: digits_of_uint u
  | Decimal.D2 u => 50 :: digits_of_uint u
  | Decimal.D3 u => 51 :: digits_of_uint u
  | Decimal.D4 u => 52 :: digits_of_uint u
  | Decimal.D5 u => 53 :: digits_of_uint u
  | Decimal.D6 u => 54 :: digits_of_uint u
  | Decimal.D7 u => 55 :: digits_of_uint u
  | Decimal.D8 u => 56 :: digits_of_uint u
  | Decimal.D9 u => 57 :: digits_of_uint u
  end.

Definition digits_value (ds : list char16) : Z := Z.of_uint (uint_of_digits ds).

Definition signed_value (neg : bool) (ds : list char16) : Z :=
  Z.of_int (if neg then Decimal.Neg (uint_of_digits ds)
            else Decimal.Pos (uint_of_digits ds)).

(** The digits of a natural number, without leading zero: none for [0]. *)
Definition digits_of (z : Z) : list char16 :=
  strip_zeros (match Z.to_int z with
               | Decimal.Pos u | Decimal.Neg u => digits_of_uint u
               end).

(** [ds] without its leading and trailing zeros, and the power of ten
    raised by the number of zeros taken from the end. *)
Definition normal (ds : list char16) (e : Z) : list char16 * Z :=
  let ds' := strip_zeros ds in
  let coef := rev (strip_zeros (rev ds')) in
  (coef, (e + Z.of_nat (length ds' - length coef))%Z).

(** A double: zero, [m * 2^p] with [0 < m < 2^53] and
    [-1074 <= p <= 971], or infinity; the sign is kept apart. *)
Inductive rounded :=
| RZero
| RFinite (m p : Z)
| RInfinity.

Definition rounded_eqb (a b : rounded) : bool :=
  match a, b with
  | RZero, RZero | RInfinity, RInfinity => true
  | RFinite m p, RFinite m' p' => ((m =? m') && (p =? p'))%Z
  | _, _ => false
  end.

(** [n / d] rounded to the nearest integer, a tie to the even one. *)
Definition div_nearest_even (n d : Z) : Z :=
  let q := (n / d)%Z in
  match (2 * (n mod d) ?= d)%Z with
  | Lt => q
  | Gt => (q + 1)%Z
  | Eq => if Z.even q then q else (q + 1)%Z
  end.

(** The double nearest to [d * 10^e], ties to the even mantissa (IEEE 754
    roundTiesToEven, as StringToNumber asks).  With [l] the binary
    logarithm of the value, the mantissa is taken at the power of two
    [l - 52], or at [-1074] for a subnormal.  The first two tests only
    spare the powers of ten of a literal far out of range: from [10^310]
    on the value is beyond the doubles, and [d * 10^e < 2^(log2 d + 1 + 3e)]
    is below half of the least double. *)
Definition round_double (d e : Z) : rounded :=
  if (d <=? 0)%Z then RZero
  else if (310 <=? e)%Z then RInfinity
  else if (Z.log2 d + 3 * e <=? -1076)%Z then RZero
  else
    let n := if (0 <=? e)%Z then (d * 10 ^ e)%Z else d in
    let q := if (0 <=? e)%Z then 1%Z else (10 ^ (- e))%Z in
    let l0 := (Z.log2 n - Z.log2 q)%Z in
    let l := if (if (0 <=? l0)%Z then (q * 2 ^ l0 <=? n)%Z
                 else (q <=? n * 2 ^ (- l0))%Z)
             then l0 else (l0 - 1)%Z in
    let p := Z.max (l - 52) (-1074) in
    let m := if (0 <=? p)%Z then div_nearest_even n (q * 2 ^ p)
             else div_nearest_even (n * 2 ^ (- p)) q in
    let p' := if (m =? 2 ^ 53)%Z then (p + 1)%Z else p in
    let m' := if (m =? 2 ^ 53)%Z then (2 ^ 52)%Z else m in
    if (m' =? 0)%Z then RZero
    else if (971 <? p')%Z then RInfinity
    else RFinite m' p'.

(** The place of the first decimal digit of [n / q]:
    [10^(N-1) <= n / q < 10^N]; [n / q] is at least [2^-1074]. *)
Definition magnitude (n q : Z) : Z :=
  (Z.of_nat (length (digits_of (n * 10 ^ 400 / q))) - 400)%Z.

(** The two decimals of [k] digits next to [n / q], the nearer one first
    (on a tie the even one). *)
Definition candidates (n q N k : Z) : list (Z * Z) :=
  let e := (N - k)%Z in
  let a := if (0 <=? e)%Z then n else (n * 10 ^ (- e))%Z in
  let b := if (0 <=? e)%Z then (q * 10 ^ e)%Z else q in
  let lo := (a / b)%Z in
  match (2 * (a mod b) ?= b)%Z with
  | Lt => [(lo, e); ((lo + 1)%Z, e)]
  | Gt => [((lo + 1)%Z, e); (lo, e)]
  | Eq => if Z.even lo then [(lo, e); ((lo + 1)%Z, e)]
          else [((lo + 1)%Z, e); (lo, e)]
  end.

(** A decimal is taken when it reads back as the double. *)
Definition accept (m p : Z) (c : Z * Z) : option (list char16 * Z) :=
  let (ds, e) := normal (digits_of (fst c)) (snd c) in
  if rounded_eqb (round_double (digits_value ds) e) (RFinite m p)
  then Some (ds, e) else None.

Fixpoint first_some {A B : Type} (f : A -> option B) (l : list A)
  : option B :=
  match l with
  | [] => None
  | a :: l' => match f a with Some b => Some b | None => first_some f l' end
  end.

(** The digits and the power of ten that Number::toString writes for the
    double [m * 2^p]: the least number of digits [k] for which a decimal
    reads back as the double and, of the decimals of [k] digits, the one
    nearest to the double.  Seventeen digits are always enough. *)
Definition shortest (m p : Z) : option (list char16 * Z) :=
  let n := if (0 <=? p)%Z then (m * 2 ^ p)%Z else m in
  let q := if (0 <=? p)%Z then 1%Z else (2 ^ (- p))%Z in
  let N := magnitude n q in
  first_some (fun k => first_some (accept m p) (candidates n q N k))
             (map Z.of_nat (seq 1 17)).

(** The number that a literal with the digits [coef] and the power of ten
    [e] denotes.  A finite double other than zero is kept as the digits and
    the power of ten that Number::toString writes for it. *)
Definition canonical (neg : bool) (coef : list char16) (e : Z) : jsnumber :=
  match round_double (digits_value coef) e with
  | RZero => if neg then NumNegZero else NumZero
  | RInfinity => NumInfinity neg
  | RFinite m p =>
      match shortest m p with
      | Some (ds, e') => NumFinite neg ds e'
      | None => NumFinite neg coef e   (* not reached *)
      end
  end.

(** The value of the literal [-? int (. frac)? (e -? exp)?]. *)
Definition number_value (neg : bool) (int frac : list char16)
    (eneg : bool) (exp : list char16) : jsnumber :=
  let (coef, e) := normal (int ++ frac)
                     (signed_value eneg exp - Z.of_nat (length frac)) in
  canonical neg coef e.

(** *** The lexer *)

(** Where the lexer stands inside a number; the digits read so far are
    kept in reverse. *)
Inductive numphase :=
| NSign | NZero | NInt | NDot | NFrac | NExp | NExpSign | NExpDigits.

Record numlit := {
  nl_neg : bool;
  nl_int : list char16;
  nl_frac : list char16;
  nl_eneg : bool;
  nl_exp : list char16
}.

Definition numlit_value (l : numlit) : jsnumber :=
  number_value (nl_neg l) (rev (nl_int l)) (rev (nl_frac l))
               (nl_eneg l) (rev (nl_exp l)).

Definition add_int (c : char16) (l : numlit) : numlit :=
  {| nl_neg := nl_neg l; nl_int := c :: nl_int l; nl_frac := nl_frac l;
     nl_eneg := nl_eneg l; nl_exp := nl_exp l |}.

Definition add_frac (c : char16) (l : numlit) : numlit :=
  {| nl_neg := nl_neg l; nl_int := nl_int l; nl_frac := c :: nl_frac l;
     nl_eneg := nl_eneg l; nl_exp := nl_exp l |}.

Definition add_exp (c : char16) (l : numlit) : numlit :=
  {| nl_neg := nl_neg l; nl_int := nl_int l; nl_frac := nl_frac l;
     nl_eneg := nl_eneg l; nl_exp := c :: nl_exp l |}.

Definition set_eneg (b : bool) (l : numlit) : numlit :=
  {| nl_neg := nl_neg l; nl_int := nl_int l; nl_frac := nl_frac l;
     nl_eneg := b; nl_exp := nl_exp l |}.

Definition empty_numlit (neg : bool) : numlit :=
  {| nl_neg := neg; nl_int := []; nl_frac := []; nl_eneg := false;
     nl_exp := [] |}.

Inductive lexmode :=
| LStart
| LString (acc : jsstring)
| LEscape (acc : jsstring)
| LUnicode (acc : jsstring) (todo : nat) (code : N)
| LLiteral (expect : jsstring) (t : token)
| LNumber (ph : numphase) (l : numlit).

(** The mode and the tokens read so far, in reverse. *)
Definition lexstate := (lexmode * list token)%type.

Definition hex_value (c : char16) : option N :=
  if in_range 48 57 c then Some (c - 48)
  else if in_range 97 102 c then Some (c - 87)
  else if in_range 65 70 c then Some (c - 55)
  else None.

(** A code unit read between two tokens. *)
Definition lex_start (out : list token) (c : char16) : option lexstate :=
  if is_ws c then Some (LStart, out)
  else if c =? 123 then Some (LStart, TLBrace :: out)
  else if c =? 125 then Some (LStart, TRBrace :: out)
  else if c =? 91 then Some (LStart, TLBracket :: out)
  else if c =? 93 then Some (LStart, TRBracket :: out)
  else if c =? 58 then Some (LStart, TColon :: out)
  else if c =? 44 then Some (LStart, TComma :: out)
  else if c =? 34 then Some (LString [], out)
  else if c =? 45 then Some (LNumber NSign (empty_numlit true), out)
  else if c =? 48 then Some (LNumber NZero (add_int c (empty_numlit false)), out)
  else if is_digit c then Some (LNumber NInt (add_int c (empty_numlit false)), out)
  else if c =? 116 then Some (LLiteral (js "rue") TTrue, out)
  else if c =? 102 then Some (LLiteral (js "alse") TFalse, out)
  else if c =? 110 then Some (LLiteral (js "ull") TNull, out)
  else None.

Definition is_e (c : char16) : bool := (c =? 101) || (c =? 69).

(** A code unit read inside a number: the next phase, or [None] when the
    code unit does not continue the number. *)
Definition num_step (ph : numphase) (l : numlit) (c : char16)
  : option (numphase * numlit) :=
  match ph with
  | NSign =>
      if c =? 48 then Some (NZero, add_int c l)
      else if is_digit c then Some (NInt, add_int c l)
      else None
  | NZero =>
      if c =? 46 then Some (NDot, l)
      else if is_e c then Some (NExp, l)
      else None
  | NInt =>
      if is_digit c then Some (NInt, add_int c l)
      else if c =? 46 then Some (NDot, l)
      else if is_e c then Some (NExp, l)
      else None
  | NDot => if is_digit c then Some (NFrac, add_frac c l) else None
  | NFrac =>
      if is_digit c then Some (NFrac, add_frac c l)
      else if is_e c then Some (NExp, l)
      else None
  | NExp =>
      if c =? 43 then Some (NExpSign, l)
      else if c =? 45 then Some (NExpSign, set_eneg true l)
      else if is_digit c then Some (NExpDigits, add_exp c l)
      else None
  | NExpSign => if is_digit c then Some (NExpDigits, add_exp c l) else None
  | NExpDigits => if is_digit c then Some (NExpDigits, add_exp c l) else None
  end.

(** The phases in which a number may end. *)
Definition num_final (ph : numphase) : bool :=
  match ph with
  | NZero | NInt | NFrac | NExpDigits => true
  | _ => false
  end.

Definition lex_step (st : lexstate) (c : char16) : option lexstate :=
  let (mode, out) := st in
  match mode with
  | LStart => lex_start out c
  | LString acc =>
      if c =? 34 then Some (LStart, TString (rev acc) :: out)
      else if c =? 92 then Some (LEscape acc, out)
      else if c <? 32 then None
      else Some (LString (c :: acc), out)
  | LEscape acc =>
      if c =? 34 then Some (LString (34 :: acc), out)
      else if c =? 92 then Some (LString (92 :: acc), out)
      else if c =? 47 then Some (LString (47 :: acc), out)
      else if c =? 98 then Some (LString (8 :: acc), out)
      else if c =? 102 then Some (LString (12 :: acc), out)
      else if c =? 110 then Some (LString (10 :: acc), out)
      else if c =? 114 then Some (LString (13 :: acc), out)
      else if c =? 116 then Some (LString (9 :: acc), out)
      else if c =? 117 then Some (LUnicode acc 4 0, out)
      else None
  | LUnicode acc todo code =>
      match hex_value c with
      | Some h =>
          match todo with
          | S O => Some (LString ((code * 16 + h) :: acc), out)
          | S todo' => Some (LUnicode acc todo' (code * 16 + h), out)
          | O => None
          end
      | None => None
      end
  | LLiteral expect t =>
      match expect with
      | e :: expect' =>
          if c =? e then
            match expect' with
            | [] => Some (LStart, t :: out)
            | _ => Some (LLiteral expect' t, out)
            end
          else None
      | [] => None
      end
  | LNumber ph l =>
      match num_step ph l c with
      | Some (ph', l') => Some (LNumber ph' l', out)
      | None =>
          if num_final ph
          then lex_start (TNumber (numlit_value l) :: out) c
          else None
      end
  end.

Fixpoint lex_run (st : lexstate) (s : jsstring) : option lexstate :=
  match s with
  | [] => Some st
  | c :: s' =>
      match lex_step st c with
      | Some st' => lex_run st' s'
      | None => None
      end
  end.

(** The end of the input. *)
Definition lex_end (st : lexstate) : option (list token) :=
  let (mode, out) := st in
  match mode with
  | LStart => Some (rev out)
  | LNumber ph l =>
      if num_final ph then Some (rev (TNumber (numlit_value l) :: out))
      else None
  | _ => None
  end.

Definition lex (s : jsstring) : option (list token) :=
  match lex_run (LStart, []) s with
  | Some st => lex_end st
  | None => None
  end.

(** *** The parser *)

Fixpoint has_prop (k : jsstring) (props : list (jsstring * json)) : bool :=
  match props with
  | [] => false
  | (k', _) :: props' =>
      if list_eq_dec N.eq_dec k k' then true else has_prop k props'
  end.

Fixpoint get_prop (k : jsstring) (props : list (jsstring * json)) : jsvalue :=
  match props with
  | [] => None
  | (k', v) :: props' =>
      if list_eq_dec N.eq_dec k k' then Some v else get_prop k props'
  end.

(** The array index that a key writes, if it writes one: a decimal numeral
    without leading zero, at most [2^32 - 2]. *)
Definition array_index (k : jsstring) : option Z :=
  match k with
  | [] => None
  | c :: k' =>
      if forallb is_digit k
         && (negb (c =? 48) || match k' with [] => true | _ => false end)
         && (length k <=? 10)%nat
         && (digits_value k <=? 4294967294)%Z
      then Some (digits_value k)
      else None
  end.

(** A new key [k] is listed before the key [k'] already there: [k] is an
    array index and [k'] is a greater one or none. *)
Definition key_before (k k' : jsstring) : bool :=
  match array_index k, array_index k' with
  | Some i, Some j => (i <? j)%Z
  | Some _, None => true
  | None, _ => false
  end.

Fixpoint replace_prop (k : jsstring) (v : json)
    (props : list (jsstring * json)) : list (jsstring * json) :=
  match props with
  | [] => []
  | (k', v') :: props' =>
      if list_eq_dec N.eq_dec k k' then (k', v) :: props'
      else (k', v') :: replace_prop k v props'
  end.

Fixpoint add_prop (k : jsstring) (v : json) (props : list (jsstring * json))
  : list (jsstring * json) :=
  match props with
  | [] => [(k, v)]
  | (k', v') :: props' =>
      if key_before k k' then (k, v) :: props
      else (k', v') :: add_prop k v props'
  end.

(** [o[k] = v] on an ordinary object: an existing property keeps its place
    and takes the new value; a new property that is an array index goes to
    its place among the indices, any other new property comes last. *)
Definition set_prop (k : jsstring) (v : json) (props : list (jsstring * json))
  : list (jsstring * json) :=
  if has_prop k props then replace_prop k v props else add_prop k v props.

(** An open array or object, and what may come next in it. *)
Inductive frame :=
| ArrOpen                                            (* [[]: a value or []] *)
| ArrNext (acc : list json)                          (* [,]: a value *)
| ArrHave (acc : list json)                          (* a value: [,] or []] *)
| ObjOpen                                            (* [{]: a key or [}] *)
| ObjNext (acc : list (jsstring * json))             (* [,]: a key *)
| ObjKey (acc : list (jsstring * json)) (k : jsstring)   (* a key: [:] *)
| ObjColon (acc : list (jsstring * json)) (k : jsstring) (* [:]: a value *)
| ObjHave (acc : list (jsstring * json)).            (* a value: [,] or [}] *)

Inductive pstate :=
| Parsing (stack : list frame)   (* the empty stack expects the value *)
| Finished (v : json).

(** A value [v] is complete below the frames [stack]; elements of an array
    are collected in reverse. *)
Definition complete (stack : list frame) (v : json) : option pstate :=
  match stack with
  | [] => Some (Finished v)
  | ArrOpen :: stack' => Some (Parsing (ArrHave [v] :: stack'))
  | ArrNext acc :: stack' => Some (Parsing (ArrHave (v :: acc) :: stack'))
  | ObjColon acc k :: stack' =>
      Some (Parsing (ObjHave (set_prop k v acc) :: stack'))
  | _ => None
  end.

Definition wants_value (stack : list frame) : bool :=
  match stack with
  | [] | ArrOpen :: _ | ArrNext _ :: _ | ObjColon _ _ :: _ => true
  | _ => false
  end.

Definition parse_step (st : pstate) (t : token) : option pstate :=
  match st with
  | Finished _ => None
  | Parsing stack =>
      match t with
      | TLBracket =>
          if wants_value stack then Some (Parsing (ArrOpen :: stack)) else None
      | TLBrace =>
          if wants_value stack then Some (Parsing (ObjOpen :: stack)) else None
      | TRBracket =>
          match stack with
          | ArrOpen :: stack' => complete stack' (JArray [])
          | ArrHave acc :: stack' => complete stack' (JArray (rev acc))
          | _ => None
          end
      | TRBrace =>
          match stack with
          | ObjOpen :: stack' => complete stack' (JObject [])
          | ObjHave acc :: stack' => complete stack' (JObject acc)
          | _ => None
          end
      | TComma =>
          match stack with
          | ArrHave acc :: stack' => Some (Parsing (ArrNext acc :: stack'))
          | ObjHave acc :: stack' => Some (Parsing (ObjNext acc :: stack'))
          | _ => None
          end
      | TColon =>
          match stack with
          | ObjKey acc k :: stack' => Some (Parsing (ObjColon acc k :: stack'))
          | _ => None
          end
      | TString s =>
          match stack with
          | ObjOpen :: stack' => Some (Parsing (ObjKey [] s :: stack'))
          | ObjNext acc :: stack' => Some (Parsing (ObjKey acc s :: stack'))
          | _ => if wants_value stack then complete stack (JString s) else None
          end
      | TNumber n =>
          if wants_value stack then complete stack (JNumber n) else None
      | TTrue => if wants_value stack then complete stack (JBool true) else None
      | TFalse =>
          if wants_value stack then complete stack (JBool false) else None
      | TNull => if wants_value stack then complete stack JNull else None
      end
  end.

Fixpoint parse_run (st : pstate) (ts : list token) : option pstate :=
  match ts with
  | [] => Some st
  | t :: ts' =>
      match parse_step st t with
      | Some st' => parse_run st' ts'
      | None => None
      end
  end.

Definition parse_tokens (ts : list token) : option json :=
  match parse_run (Parsing []) ts with
  | Some (Finished v) => Some v
  | _ => None
  end.

(** [JSON.parse(text)]: [None] stands for the [SyntaxError]. *)
Definition parse (text : jsstring) : option json :=
  match lex text with
  | Some ts => parse_tokens ts
  | None => None
  end.

(** *** [JSON.stringify] *)

Definition zeros (n : nat) : list char16 := repeat 48 n.

(** The exponent of the exponential notation, with its sign. *)
Definition exponent_text (z : Z) : jsstring :=
  match Z.to_int z with
  | Decimal.Pos u => 43 :: digits_of_uint u
  | Decimal.Neg u => 45 :: digits_of_uint u
  end.

(** Number::toString for the digits [ds] and the power of ten [e]: with
    [k] digits and [n = k + e], the notation is chosen as ECMA-262 does. *)
Definition digits_to_string (ds : list char16) (e : Z) : jsstring :=
  let k := Z.of_nat (length ds) in
  let n := (k + e)%Z in
  if (k <=? n)%Z && (n <=? 21)%Z then ds ++ zeros (Z.to_nat (n - k))
  else if (0 <? n)%Z && (n <=? 21)%Z then
    firstn (Z.to_nat n) ds ++ 46 :: skipn (Z.to_nat n) ds
  else if (-6 <? n)%Z && (n <=? 0)%Z then
    48 :: 46 :: zeros (Z.to_nat (- n)) ++ ds
  else
    match ds with
    | [] => []
    | [d] => d :: 101 :: exponent_text (n - 1)
    | d :: ds' => d :: 46 :: ds' ++ 101 :: exponent_text (n - 1)
    end.

Definition number_to_string (x : jsnumber) : jsstring :=
  match x with
  | NumZero | NumNegZero => js "0"
  | NumFinite neg ds e => (if neg then [45] else []) ++ digits_to_string ds e
  | NumInfinity neg => if neg then js "-Infinity" else js "Infinity"
  end.

Definition hex_digit (n : N) : char16 := if n <? 10 then 48 + n else 87 + n.

(** [\uXXXX] with lower-case digits. *)
Definition unicode_escape (c : char16) : jsstring :=
  [92; 117; hex_digit ((c / 4096) mod 16); hex_digit ((c / 256) mod 16);
   hex_digit ((c / 16) mod 16); hex_digit (c mod 16)].

Definition is_high_surrogate (c : char16) : bool := in_range 55296 56319 c.
Definition is_low_surrogate (c : char16) : bool := in_range 56320 57343 c.

(** One code unit of a string, outside a surrogate pair. *)
Definition quote_unit (c : char16) : jsstring :=
  if c =? 8 then [92; 98]
  else if c =? 9 then [92; 116]
  else if c =? 10 then [92; 110]
  else if c =? 12 then [92; 102]
  else if c =? 13 then [92; 114]
  else if c =? 34 then [92; 34]
  else if c =? 92 then [92; 92]
  else if (c <? 32) || is_high_surrogate c || is_low_surrogate c
  then unicode_escape c
  else [c].

(** QuoteJSONString without the quotes: a surrogate pair is kept, a lone
    surrogate is escaped. *)
Fixpoint quote_chars (s : jsstring) : jsstring :=
  match s with
  | [] => []
  | c :: s' =>
      if is_high_surrogate c then
        match s' with
        | d :: s'' =>
            if is_low_surrogate d then c :: d :: quote_chars s''
            else quote_unit c ++ quote_chars s'
        | [] => quote_unit c
        end
      else quote_unit c ++ quote_chars s'
  end.

Definition quote (s : jsstring) : jsstring := 34 :: quote_chars s ++ [34].

(** [JSON.stringify(v)] of a value made of JSON data, without indentation.
    A number that is not finite is written [null]. *)
Fixpoint stringify (v : json) : jsstring :=
  match v with
  | JNull => js "null"
  | JBool true => js "true"
  | JBool false => js "false"
  | JNumber (NumInfinity _) => js "null"
  | JNumber n => number_to_string n
  | JString s => quote s
  | JArray elems =>
      91 :: (fix elements (first : bool) (l : list json) : jsstring :=
               match l with
               | [] => [93]
               | x :: l' =>
                   (if first then [] else [44]) ++ stringify x
                   ++ elements false l'
               end) true elems
  | JObject props =>
      123 :: (fix members (first : bool) (l : list (jsstring * json))
                : jsstring :=
                match l with
                | [] => [125]
                | (k, x) :: l' =>
                    (if first then [] else [44]) ++ quote k ++ 58
                    :: stringify x ++ members false l'
                end) true props
  end.

End JSON.

(** ** The response extractor

    The block of the [/api/analyze] handler that turns the reply of the
    completion API into a value; the specification calls it
    [extractStructured]. *)

(** [lit] at the head of [s]: what follows it. *)
Fixpoint starts_with (lit s : jsstring) : option jsstring :=
  match lit, s with
  | [], _ => Some s
  | p :: lit', c :: s' => if p =? c then starts_with lit' s' else None
  | _ :: _, [] => None
  end.

(** [lit] followed by an optional line feed, tried at one position: the
    patterns [/```json\n?/] and [/```\n?/]. *)
Definition match_fence (lit : jsstring) (prev : option char16) (s : jsstring)
  : option nat :=
  match starts_with lit s with
  | Some (10 :: _) => Some (S (length lit))
  | Some _ => Some (length lit)
  | None => None
  end.

Definition fence_json : jsstring := js "```json".
Definition fence : jsstring := js "```".

(** [[\s\S]*\}] at the head of [s], greedy: the longest prefix of [s] that
    ends with a closing brace. *)
Fixpoint match_to_last_brace (s : jsstring) : option jsstring :=
  match s with
  | [] => None
  | c :: s' =>
      match match_to_last_brace s' with
      | Some m => Some (c :: m)
      | None => if c =? 125 then Some [c] else None
      end
  end.

(** [content.match(/\{[\s\S]*\}/)]: the match at the leftmost position
    where the pattern matches, [jsonMatch[0]]. *)
Fixpoint match_braces (s : jsstring) : option jsstring :=
  match s with
  | [] => None
  | c :: s' =>
      if c =? 123 then
        match match_to_last_brace s' with
        | Some m => Some (c :: m)
        | None => match_braces s'
        end
      else match_braces s'
  end.

Inductive extraction :=
| Extracted (analysis : json)
| ParseFailed      (* 'Failed to parse analysis' *)
| InvalidFormat.   (* 'Invalid response format' *)

(** [cleanContent] of the first attempt. *)
Definition cleanContent (content : jsstring) : jsstring :=
  trim (replace_scan (match_fence fence) None 0
          (replace_scan (match_fence fence_json) None 0 content)).

(** The [catch] block of the first attempt: the second attempt, on
    [content] itself. *)
Definition fallback (content : jsstring) : extraction :=
  match match_braces content with
  | Some jsonMatch =>
      match JSON.parse jsonMatch with
      | Some analysis => Extracted analysis
      | None => ParseFailed
      end
  | None => InvalidFormat
  end.

Definition extractStructured (content : jsstring) : extraction :=
  match JSON.parse (cleanContent content) with
  | Some analysis => Extracted analysis
  | None => fallback content
  end.

(** ** The request handlers *)

Record response := { status : Z; body : json }.

(** What the environment gives a request: the credential of the process
    environment and the reading of the clock, [new Date().toISOString()]. *)
Record env := {
  PERPLEXITY_API_KEY : option jsstring;
  now : jsstring
}.

(** The outcome of the call to the completion API: an exception that
    reaches the outer [catch] (with its message), a response that is not
    [ok] (with its text), or the [content] of the first choice. *)
Inductive fetch_result :=
| FetchThrows (message : jsstring)
| FetchNotOk (errorData : jsstring)
| FetchOk (content : jsstring).

(** A handler answers at once, or calls the completion API with a prompt
    built around the sanitized text and answers from the outcome.  The
    prompt templates themselves are not part of the model, nor are the
    exceptions that building them can raise before the call (a [String]
    of an object with a [toString] field of its own, a history entry that
    is [null]): where the source would stop there, the model goes on to the
    call. *)
Inductive handler :=
| Reply (r : response)
| CallUpstream (clean : jsstring) (k : fetch_result -> response).

Definition error_body (msg : string) : json :=
  JObject [(js "error", JString (js msg))].

Definition has_key (e : env) : bool :=
  match PERPLEXITY_API_KEY e with
  | Some (_ :: _) => true
  | _ => false
  end.

(** [analysis.analyzedAt = ts] followed by [res.json(analysis)]: the value
    that is sent.  On [null] the assignment throws a [TypeError]; on
    another primitive it is dropped (the module is not in strict mode); on
    an array it adds a named property, which is not part of what
    [res.json] sends. *)
Definition stamp (analysis : json) (ts : jsstring) : option json :=
  match analysis with
  | JObject props =>
      Some (JObject (JSON.set_prop (js "analyzedAt") (JString ts) props))
  | JNull => None
  | other => Some other
  end.

(** The part of [/api/analyze] behind the call to the completion API. *)
Definition analyze_response (e : env) (r : fetch_result) : response :=
  match r with
  | FetchThrows message =>
      {| status := 500;
         body := JObject [(js "error", JString (js "Server error"));
                          (js "message", JString message)] |}
  | FetchNotOk errorData =>
      {| status := 500;
         body := JObject [(js "error", JString (js "Analysis failed"));
                          (js "details", JString errorData)] |}
  | FetchOk content =>
      match extractStructured content with
      | Extracted analysis =>
          match stamp analysis (now e) with
          | Some sent => {| status := 200; body := sent |}
          | None =>
              {| status := 500;
                 body := JObject
                   [(js "error", JString (js "Server error"));
                    (js "message", JString (js
                      "Cannot set properties of null (setting 'analyzedAt')"))] |}
          end
      | ParseFailed =>
          {| status := 500; body := error_body "Failed to parse analysis" |}
      | InvalidFormat =>
          {| status := 500; body := error_body "Invalid response format" |}
      end
  end.

Definition analyze (e : env) (req_body : list (jsstring * json)) : handler :=
  let productName := JSON.get_prop (js "productName") req_body in
  let cleanProductName := sanitizeInput productName 200 in
  if negb (truthy (Some (JString cleanProductName))) then
    Reply {| status := 400;
             body := error_body "Valid product name is required" |}
  else if negb (has_key e) then
    Reply {| status := 500; body := error_body "API key not configured" |}
  else CallUpstream cleanProductName (analyze_response e).

(** The part of [/api/chat] behind the call to the completion API. *)
Definition chat_response (r : fetch_result) : response :=
  match r with
  | FetchThrows _ => {| status := 500; body := error_body "Server error" |}
  | FetchNotOk _ =>
      {| status := 500; body := error_body "Failed to process question" |}
  | FetchOk assistantMessage =>
      {| status := 200;
         body := JObject [(js "message", JString (trim assistantMessage))] |}
  end.

Definition chat (e : env) (req_body : list (jsstring * json)) : handler :=
  let message := JSON.get_prop (js "message") req_body in
  if negb (truthy message) then
    Reply {| status := 400; body := error_body "Message is required" |}
  else if negb (has_key e) then
    Reply {| status := 500; body := error_body "API key not configured" |}
  else
    let cleanMessage := sanitizeInput message 500 in
    CallUpstream cleanMessage chat_response.

(** ** Vocabulary of the specification *)

(** Equality of two strings up to the case of their letters. *)
Definition ci_equal (a b : jsstring) : Prop :=
  map canonicalize a = map canonicalize b.

(** The token [w] occurs in [s] as a whole word, in any letter case: the
    occurrence is neither preceded nor followed by a word character.
    [prev] is the code unit before [s]. *)
Definition occurs_after (prev : option char16) (w s : jsstring) : Prop :=
  exists pre m post,
    s = pre ++ m ++ post /\ ci_equal w m
    /\ is_word (last_or prev pre) = false /\ is_word (hd_error post) = false.

Definition whole_word_occurrence (w s : jsstring) : Prop :=
  occurs_after None w s.

(** Some token of the denylist occurs as a whole word. *)
Definition denied_after (prev : option char16) (s : jsstring) : Prop :=
  exists w, In w denylist /\ occurs_after prev w s.

(** A token made of lower-case letters, at least one. *)
Definition lower_word (w : jsstring) : bool :=
  match w with [] => false | _ => forallb (in_range 97 122) w end.

(** The invariant of the scan for the denylist: [ip] is the code unit
    before the head of the input, [op] the one before the head of the
    output; they differ only behind a match. *)
Definition scan_inv (ip op : option char16) (s : jsstring) : Prop :=
  ip = op
  \/ (is_word ip = true /\ is_word op = false /\ is_word (hd_error s) = false).

(** The length cap: the first [n] characters of [s]. *)
Definition length_cap (n : Z) (s : jsstring) : jsstring :=
  firstn (Z.to_nat n) s.

(** The first and the last position of a code unit in a string. *)
Fixpoint index_of (x : char16) (s : jsstring) : option nat :=
  match s with
  | [] => None
  | c :: s' => if c =? x then Some O else option_map S (index_of x s')
  end.

Fixpoint last_index_of (x : char16) (s : jsstring) : option nat :=
  match s with
  | [] => None
  | c :: s' =>
      match last_index_of x s' with
      | Some j => Some (S j)
      | None => if c =? x then Some O else None
      end
  end.

(** The span from the first opening brace to the last closing brace of the
    whole text, when the one comes before the other. *)
Definition brace_span (s : jsstring) : option jsstring :=
  match index_of 123 s, last_index_of 125 s with
  | Some i, Some j =>
      if (i <? j)%nat then Some (firstn (S (j - i)) (skipn i s)) else None
  | _, _ => None
  end.

Definition is_object (v : json) : bool :=
  match v with JObject _ => true | _ => false end.

(** ** The four stages of the sanitizer, as the specification names them

    Each stage is defined on its own, without the regular expressions of
    the source. *)
Module Stages.

(** The length cap: the first [n] code units, none for a negative [n]. *)
Definition cap (n : Z) (s : jsstring) : jsstring := firstn (Z.to_nat n) s.

(** The removal of the seven characters. *)
Definition class_chars : jsstring := js "<>{}[]`".

Definition strip_class (s : jsstring) : jsstring :=
  filter (fun c => negb (existsb (N.eqb c) class_chars)) s.

(** A word is denied when it is a token of the denylist up to the case of
    its letters. *)
Definition denied (w : jsstring) : bool :=
  existsb (fun d => if list_eq_dec N.eq_dec (map canonicalize d)
                                            (map canonicalize w)
                    then true else false)
          denylist.

Definition keep_word (w : jsstring) : jsstring :=
  if denied w then [] else w.

(** The removal of the denied whole words: the text is cut into its
    maximal runs of word characters, and a run is dropped when it is
    denied.  [run] holds the run that is being read, in reverse. *)
Fixpoint strip_words_from (run s : jsstring) : jsstring :=
  match s with
  | [] => keep_word (rev run)
  | c :: s' =>
      if is_word_char c then strip_words_from (c :: run) s'
      else keep_word (rev run) ++ c :: strip_words_from [] s'
  end.

Definition strip_words (s : jsstring) : jsstring := strip_words_from [] s.

(** The trim: the white space at the start and at the end is removed. *)
Fixpoint strip_start (s : jsstring) : jsstring :=
  match s with
  | c :: s' => if is_space c then strip_start s' else s
  | [] => []
  end.

Fixpoint strip_end (s : jsstring) : jsstring :=
  match s with
  | [] => []
  | c :: s' =>
      match strip_end s' with
      | [] => if is_space c then [] else [c]
      | t => c :: t
      end
  end.

Definition strip_space (s : jsstring) : jsstring := strip_end (strip_start s).

(** The stages in the order of the specification. *)
Definition sanitize (s : jsstring) (n : Z) : jsstring :=
  strip_space (strip_words (strip_class (cap n s))).

End Stages.

(** ** Vocabulary of the round trip *)

(** [pat] occurs in [s]. *)
Fixpoint contains (pat s : jsstring) : bool :=
  match starts_with pat s with
  | Some _ => true
  | None => match s with [] => false | _ :: s' => contains pat s' end
  end.

(** Every number of the value is finite and is not the negative zero:
    [JSON.stringify] writes such a number as a literal of the number
    itself, an infinite one as [null], the negative zero as [0]. *)
Fixpoint plain (v : json) : bool :=
  match v with
  | JNumber (NumInfinity _) => false
  | JNumber NumNegZero => false
  | JArray elems =>
      (fix all (l : list json) : bool :=
         match l with [] => true | x :: l' => plain x && all l' end) elems
  | JObject props =>
      (fix all (l : list (jsstring * json)) : bool :=
         match l with [] => true | (_, x) :: l' => plain x && all l' end) props
  | _ => true
  end.

(** The key [k] may be listed before the key [k']. *)
Definition key_order (k k' : jsstring) : Prop := JSON.key_before k' k = false.

(** Distinct keys in the order of the engine. *)
Definition ordered_keys (ks : list jsstring) : Prop :=
  NoDup ks /\ StronglySorted key_order ks.

(** The values that [JSON.parse] builds: a finite number is kept as the
    decimal that stands for its double, the keys of an object are distinct
    and in the order of the engine. *)
Definition wf_number (n : jsnumber) : Prop :=
  match n with
  | NumFinite neg ds e =>
      ds <> [] /\ Forall (fun c => JSON.is_digit c = true) ds
      /\ hd_error ds <> Some 48 /\ hd_error (rev ds) <> Some 48
      /\ JSON.canonical neg ds e = NumFinite neg ds e
  | _ => True
  end.

#[warnings="-register-all"]
Inductive wf : json -> Prop :=
| wf_null : wf JNull
| wf_bool b : wf (JBool b)
| wf_num n : wf_number n -> wf (JNumber n)
| wf_string s : wf (JString s)
| wf_array elems : Forall wf elems -> wf (JArray elems)
| wf_object props :
    ordered_keys (map fst props) -> Forall (fun p => wf (snd p)) props ->
    wf (JObject props).

Module JSONText.
Import JSON.

(** The lexer run to the end of the input. *)
Definition lex_from (st : lexstate) (s : jsstring) : option (list token) :=
  match lex_run st s with
  | Some st' => lex_end st'
  | None => None
  end.

(** The tokens of the text of a value. *)
Fixpoint tokens (v : json) : list token :=
  match v with
  | JNull => [TNull]
  | JBool true => [TTrue]
  | JBool false => [TFalse]
  | JNumber (NumInfinity _) => [TNull]
  | JNumber NumNegZero => [TNumber NumZero]
  | JNumber n => [TNumber n]
  | JString s => [TString s]
  | JArray elems =>
      TLBracket :: (fix elements (first : bool) (l : list json) :=
                      match l with
                      | [] => [TRBracket]
                      | x :: l' =>
                          (if first then [] else [TComma]) ++ tokens x
                          ++ elements false l'
                      end) true elems
  | JObject props =>
      TLBrace :: (fix members (first : bool) (l : list (jsstring * json)) :=
                    match l with
                    | [] => [TRBrace]
                    | (k, x) :: l' =>
                        (if first then [] else [TComma]) ++ TString k
                        :: TColon :: tokens x ++ members false l'
                    end) true props
  end.

(** The same lists, as functions of their own. *)
Fixpoint element_tokens (first : bool) (l : list json) : list token :=
  match l with
  | [] => [TRBracket]
  | x :: l' =>
      (if first then [] else [TComma]) ++ tokens x ++ element_tokens false l'
  end.

Fixpoint member_tokens (first : bool) (l : list (jsstring * json))
  : list token :=
  match l with
  | [] => [TRBrace]
  | (k, x) :: l' =>
      (if first then [] else [TComma]) ++ TString k :: TColon :: tokens x
      ++ member_tokens false l'
  end.

Fixpoint element_text (first : bool) (l : list json) : jsstring :=
  match l with
  | [] => [93]
  | x :: l' =>
      (if first then [] else [44]) ++ stringify x ++ element_text false l'
  end.

Fixpoint member_text (first : bool) (l : list (jsstring * json)) : jsstring :=
  match l with
  | [] => [125]
  | (k, x) :: l' =>
      (if first then [] else [44]) ++ quote k ++ 58 :: stringify x
      ++ member_text false l'
  end.

(** What may follow the text of a value: the end of the text, a comma, a
    closing bracket or a closing brace. *)
Definition ends_value (rest : jsstring) : Prop :=
  match rest with
  | [] => True
  | d :: _ => d = 44 \/ d = 93 \/ d = 125
  end.

(** A number literal in the making holds digits only. *)
Definition digits_only (l : numlit) : Prop :=
  Forall (fun c => is_digit c = true) (nl_int l)
  /\ Forall (fun c => is_digit c = true) (nl_frac l)
  /\ Forall (fun c => is_digit c = true) (nl_exp l).

Definition wf_token (t : token) : Prop :=
  match t with TNumber n => wf_number n | _ => True end.

Definition wf_lexstate (st : lexstate) : Prop :=
  Forall wf_token (snd st)
  /\ match fst st with
     | LNumber _ l => digits_only l
     | LLiteral _ t => wf_token t
     | _ => True
     end.

(** The parser resumed behind a step. *)
Definition then_run (st : option pstate) (ts : list token) : option pstate :=
  match st with Some st' => parse_run st' ts | None => None end.

Definition wf_frame (f : frame) : Prop :=
  match f with
  | ArrOpen | ObjOpen => True
  | ArrNext acc | ArrHave acc => Forall wf acc
  | ObjNext acc | ObjKey acc _ | ObjColon acc _ | ObjHave acc =>
      ordered_keys (map fst acc) /\ Forall (fun p => wf (snd p)) acc
  end.

Definition wf_pstate (st : pstate) : Prop :=
  match st with
  | Parsing stack => Forall wf_frame stack
  | Finished v => wf v
  end.

End JSONText.

(** ** Further vocabulary *)

(** [a] is [b] with some code units left out. *)
Inductive subseq : jsstring -> jsstring -> Prop :=
| subseq_nil : subseq [] []
| subseq_keep c a b : subseq a b -> subseq (c :: a) (c :: b)
| subseq_drop c a b : subseq a b -> subseq a (c :: b).

(** A string that [sanitizeInput] has nothing to do on, under the cap
    [n]: short enough, without a character of the class, without a whole
    word of the denylist, without white space at either end. *)
Definition already_clean (n : Z) (s : jsstring) : Prop :=
  (Z.of_nat (length s) <= Z.max 0 n)%Z
  /\ Forall (fun c => in_char_class c = false) s
  /\ (forall w, In w denylist -> ~ whole_word_occurrence w s)
  /\ (forall c t, s = c :: t -> is_space c = false)
  /\ (forall c t, s = t ++ [c] -> is_space c = false).

(** The frames of an open object, and the parser states that stand inside
    an object opened first or have finished with an object. *)
Definition is_obj_frame (f : JSON.frame) : bool :=
  match f with
  | JSON.ObjOpen | JSON.ObjNext _ | JSON.ObjKey _ _ | JSON.ObjColon _ _
  | JSON.ObjHave _ => true
  | _ => false
  end.

Definition object_below (st : JSON.pstate) : Prop :=
  match st with
  | JSON.Parsing stack =>
      exists upper f, stack = upper ++ [f] /\ is_obj_frame f = true
  | JSON.Finished v => is_object v = true
  end.

(** A lexer state whose pending literal holds no white space: every state
    the lexer reaches has it. *)
Definition literal_ok (st : JSON.lexstate) : Prop :=
  match fst st with
  | JSON.LLiteral expect _ => Forall (fun c => is_space c = false) expect
  | _ => True
  end.

(** The number of backticks at the head of a text. *)
Fixpoint ticks (s : jsstring) : nat :=
  match s with
  | c :: s' => if c =? 96 then S (ticks s') else O
  | [] => O
  end.

(** ** The page context of [/api/analyze]

    [String(v)] for a value of the request body, which [express.json()]
    has parsed from JSON text: [None] is the [TypeError] of an object whose
    own property [toString] hides the method of [Object.prototype] (no
    value read from JSON is callable, and the inherited [valueOf] returns
    the object itself).  An array is joined with commas, [null] elements
    giving the empty string.  A number is written as Number::toString
    writes it ([JSON.number_to_string]). *)
Fixpoint String_ (v : json) : option jsstring :=
  match v with
  | JNull => Some (js "null")
  | JBool b => Some (if b then js "true" else js "false")
  | JNumber n => Some (JSON.number_to_string n)
  | JString s => Some s
  | JArray elems =>
      (fix join (first : bool) (l : list json) : option jsstring :=
         match l with
         | [] => Some []
         | x :: l' =>
             match match x with JNull => Some [] | _ => String_ x end,
                   join false l' with
             | Some a, Some b => Some ((if first then [] else [44]) ++ a ++ b)
             | _, _ => None
             end
         end) true elems
  | JObject props =>
      if JSON.has_prop (js "toString") props then None
      else Some (js "[object Object]")
  end.

(** One line of the page context: nothing for a falsy field, otherwise the
    label, the sanitized text of the field and the closing words. *)
Definition context_line (before : string) (field : jsvalue) (maxLength : Z)
    (after : string) : option jsstring :=
  match field with
  | Some v =>
      if truthy field then
        match String_ v with
        | Some text =>
            Some (js before ++ sanitizeInput (Some (JString text)) maxLength
                  ++ js after)
        | None => None
        end
      else Some []
  | None => Some []
  end.

(** [pageContext] as the handler builds it; [None] when a [String(...)]
    throws, which happens before the [try] block. *)
Definition pageContext (req_body : list (jsstring * json)) : option jsstring :=
  let detectedPrice := JSON.get_prop (js "detectedPrice") req_body in
  let detectedRating := JSON.get_prop (js "detectedRating") req_body in
  let detectedReviewCount :=
    JSON.get_prop (js "detectedReviewCount") req_body in
  let isBundle := JSON.get_prop (js "isBundle") req_body in
  match context_line "Detected price: $" detectedPrice 20 ". " with
  | None => None
  | Some price =>
      match context_line "Detected rating: " detectedRating 10 " stars. " with
      | None => None
      | Some rating =>
          match context_line "Detected reviews: " detectedReviewCount 20 ". "
          with
          | None => None
          | Some reviews =>
              Some (price ++ rating ++ reviews
                    ++ if truthy isBundle
                       then js "This appears to be a bundle. " else [])
          end
      end
  end.

Definition open_tag : jsstring := js "<product_to_analyze>".
Definition close_tag : jsstring := js "</product_to_analyze>".

(** The head of the user prompt, up to the closing tag. *)
Definition product_block (cleanProductName pageContext : jsstring)
  : jsstring :=
  open_tag ++ [10] ++ cleanProductName ++ [10] ++ pageContext ++ [10]
  ++ close_tag.

(** * Properties *)

(** ** Arithmetic on code units *)

Ltac bool_to_prop :=
  repeat rewrite ?orb_true_iff, ?andb_true_iff, ?orb_false_iff,
    ?andb_false_iff, ?negb_true_iff, ?negb_false_iff,
    ?N.eqb_eq, ?N.eqb_neq, ?N.leb_le, ?N.leb_gt, ?N.ltb_lt, ?N.ltb_ge in *.

Ltac code_units :=
  unfold is_space, is_word_char, in_char_class, canonicalize, in_range in *;
  repeat match goal with
         | |- context [if ?b then _ else _] => destruct b eqn:?
         | H : context [if ?b then _ else _] |- _ => destruct b eqn:?
         end;
  bool_to_prop; lia.

Lemma space_not_word (c : char16) : is_space c = true -> is_word_char c = false.
Proof.
  intros H. destruct (is_word_char c) eqn:W; [|reflexivity].
  exfalso. code_units.
Qed.

Lemma canonical_letter (p c : char16) :
  in_range 97 122 p = true -> canonicalize p = canonicalize c ->
  is_word_char c = true.
Proof.
  intros Hp H. destruct (is_word_char c) eqn:W; [reflexivity|].
  exfalso. code_units.
Qed.

(** ** [trim] *)

Lemma trimStart_split (s : jsstring) :
  exists w, s = w ++ trimStart s /\ Forall (fun c => is_space c = true) w.
Proof.
  induction s as [|c s [w [E F]]]; simpl.
  - exists []. split; [reflexivity|constructor].
  - destruct (is_space c) eqn:Hc.
    + exists (c :: w). split; [simpl; congruence|constructor; assumption].
    + exists []. split; [reflexivity|constructor].
Qed.

Lemma trimStart_head (s : jsstring) c t :
  trimStart s = c :: t -> is_space c = false.
Proof.
  induction s as [|d s IH]; simpl; [discriminate|].
  destruct (is_space d) eqn:Hd; [assumption|]. congruence.
Qed.

Lemma trimStart_id (s : jsstring) :
  (forall c t, s = c :: t -> is_space c = false) -> trimStart s = s.
Proof.
  destruct s as [|c t]; [reflexivity|]. intros H. simpl.
  now rewrite (H c t eq_refl).
Qed.

Lemma trimEnd_split (s : jsstring) :
  exists w, s = trimEnd s ++ w /\ Forall (fun c => is_space c = true) w.
Proof.
  unfold trimEnd. destruct (trimStart_split (rev s)) as [w [E F]].
  exists (rev w). split.
  - rewrite <- rev_app_distr, <- E. symmetry. apply rev_involutive.
  - apply Forall_rev. assumption.
Qed.

Lemma trimEnd_last (s : jsstring) c t :
  trimEnd s = t ++ [c] -> is_space c = false.
Proof.
  unfold trimEnd. intros H.
  apply (f_equal (@rev _)) in H. rewrite rev_involutive, rev_app_distr in H.
  simpl in H. eapply trimStart_head. eassumption.
Qed.

Lemma trimEnd_id (s : jsstring) :
  (forall c t, s = t ++ [c] -> is_space c = false) -> trimEnd s = s.
Proof.
  intros H. unfold trimEnd. rewrite trimStart_id.
  - apply rev_involutive.
  - intros c t E. apply (H c (rev t)).
    rewrite <- (rev_involutive s), E. reflexivity.
Qed.

Lemma trimEnd_head (s : jsstring) c t :
  trimEnd s = c :: t -> exists t', s = c :: t'.
Proof.
  intros H. destruct (trimEnd_split s) as [w [E _]].
  rewrite H in E. simpl in E. eauto.
Qed.

Lemma trim_split (s : jsstring) :
  exists w1 w2, s = w1 ++ trim s ++ w2
    /\ Forall (fun c => is_space c = true) w1
    /\ Forall (fun c => is_space c = true) w2.
Proof.
  unfold trim. destruct (trimStart_split s) as [w1 [E1 F1]].
  destruct (trimEnd_split (trimStart s)) as [w2 [E2 F2]].
  exists w1, w2. repeat split; try assumption.
  rewrite <- E2. assumption.
Qed.

Lemma trim_head (s : jsstring) c t : trim s = c :: t -> is_space c = false.
Proof.
  unfold trim. intros H. destruct (trimEnd_head _ _ _ H) as [t' E].
  eapply trimStart_head. eassumption.
Qed.

Lemma trim_last (s : jsstring) c t : trim s = t ++ [c] -> is_space c = false.
Proof. apply trimEnd_last. Qed.

Lemma trim_id (s : jsstring) :
  (forall c t, s = c :: t -> is_space c = false) ->
  (forall c t, s = t ++ [c] -> is_space c = false) ->
  trim s = s.
Proof.
  intros H1 H2. unfold trim. rewrite (trimStart_id _ H1). apply trimEnd_id, H2.
Qed.

Lemma trim_idempotent (s : jsstring) : trim (trim s) = trim s.
Proof.
  apply trim_id; intros c t E.
  - eapply trim_head; eassumption.
  - eapply trim_last; eassumption.
Qed.

Lemma trim_Forall (P : char16 -> Prop) (s : jsstring) :
  Forall P s -> Forall P (trim s).
Proof.
  intros H. destruct (trim_split s) as [w1 [w2 [E _]]].
  rewrite E in H. apply Forall_app in H. destruct H as [_ H].
  apply Forall_app in H. tauto.
Qed.

Lemma trim_length (s : jsstring) : (length (trim s) <= length s)%nat.
Proof.
  destruct (trim_split s) as [w1 [w2 [E _]]].
  rewrite E at 2. rewrite !length_app. lia.
Qed.

(** ** [substring] *)

Lemma substring_prefix (s : jsstring) (n : Z) :
  substring s 0 n = firstn (Z.to_nat n) s.
Proof.
  unfold substring, clamp.
  set (len := Z.of_nat (length s)).
  assert (Hlen : (0 <= len)%Z) by (unfold len; lia).
  replace (Z.min (Z.max 0 0) len) with 0%Z by lia.
  replace (Z.min 0 (Z.min (Z.max n 0) len)) with 0%Z by lia.
  simpl skipn. rewrite Z.sub_0_r.
  destruct (Z_le_gt_dec n len) as [Hn|Hn].
  - f_equal. lia.
  - replace (Z.max 0 (Z.min (Z.max n 0) len)) with len by lia.
    unfold len. rewrite Nat2Z.id.
    rewrite firstn_all. symmetry. apply firstn_all2. lia.
Qed.

(** ** The global replacement *)

Lemma last_or_cons prev c (s : jsstring) :
  last_or prev (c :: s) = last_or (Some c) s.
Proof.
  unfold last_or. simpl. destruct (rev s) as [|d r] eqn:E; reflexivity.
Qed.

Lemma last_or_app prev (a b : jsstring) :
  last_or prev (a ++ b) = last_or (last_or prev a) b.
Proof.
  revert prev. induction a as [|c a IH]; intros prev; simpl.
  - reflexivity.
  - rewrite !last_or_cons. apply IH.
Qed.

Section Replace.

Variable re : option char16 -> jsstring -> option nat.

Lemma replace_scan_skip (k : nat) : forall prev s,
  replace_scan re prev k s
  = replace_scan re (last_or prev (firstn k s)) 0 (skipn k s).
Proof.
  induction k as [|k IH]; intros prev s.
  - reflexivity.
  - destruct s as [|c s]; [reflexivity|].
    simpl firstn. simpl skipn. rewrite last_or_cons. simpl. apply IH.
Qed.

Lemma replace_scan_Forall (P : char16 -> Prop) (s : jsstring) :
  Forall P s -> forall prev k, Forall P (replace_scan re prev k s).
Proof.
  induction 1 as [|c s Hc Hs IH]; intros prev k; simpl.
  - constructor.
  - destruct k; [|apply IH].
    destruct (re prev (c :: s)) as [[|k]|]; try apply IH;
      constructor; auto.
Qed.

Lemma replace_scan_length (s : jsstring) : forall prev k,
  (length (replace_scan re prev k s) <= length s)%nat.
Proof.
  induction s as [|c s IH]; intros prev k; simpl.
  - lia.
  - destruct k; [|specialize (IH (Some c) k); lia].
    destruct (re prev (c :: s)) as [[|k]|]; simpl;
      match goal with
      | |- context [replace_scan re ?p ?k s] => specialize (IH p k); lia
      end.
Qed.

(** Where the pattern matches nowhere, nothing is replaced. *)
Lemma replace_scan_none (s : jsstring) :
  (forall prev a b, s = a ++ b -> b <> [] ->
     re prev b = None \/ re prev b = Some O) ->
  forall prev, replace_scan re prev 0 s = s.
Proof.
  induction s as [|c s IH]; intros H prev; simpl; [reflexivity|].
  assert (E : replace_scan re (Some c) 0 s = s).
  { apply IH. intros p a b Hab Hb. apply (H p (c :: a) b); [|assumption].
    simpl. congruence. }
  destruct (H prev [] (c :: s) eq_refl) as [R|R]; [discriminate| |];
    rewrite R, E; reflexivity.
Qed.

End Replace.

(** ** The pattern of the denylist *)

Lemma denylist_lower (w : jsstring) : In w denylist -> lower_word w = true.
Proof.
  assert (H : forallb lower_word denylist = true) by (vm_compute; reflexivity).
  rewrite forallb_forall in H. apply H.
Qed.

Lemma ci_equal_word (w m : jsstring) :
  lower_word w = true -> ci_equal w m ->
  m <> [] /\ Forall (fun c => is_word_char c = true) m.
Proof.
  unfold ci_equal. intros L E. split.
  - destruct w; [discriminate|]. destruct m; discriminate.
  - assert (F : forallb (in_range 97 122) w = true)
      by (destruct w; [discriminate|exact L]).
    clear L. revert m E. induction w as [|p w IH]; intros [|c m] E;
      simpl in E; try discriminate; constructor; simpl in F;
      apply andb_true_iff in F; destruct F as [Fp Fw]; injection E as E1 E2.
    + eapply canonical_letter; eassumption.
    + apply IH; assumption.
Qed.

Lemma match_prefix_sound (w : jsstring) : forall s m rest,
  match_prefix w s = Some (m, rest) -> s = m ++ rest /\ ci_equal w m.
Proof.
  unfold ci_equal. induction w as [|p w IH]; intros s m rest H; simpl in H.
  - injection H as <- <-. split; reflexivity.
  - destruct s as [|c s]; [discriminate|].
    destruct (canonicalize p =? canonicalize c) eqn:E; [|discriminate].
    destruct (match_prefix w s) as [[m' rest']|] eqn:M; [|discriminate].
    injection H as <- <-. apply IH in M. destruct M as [-> M].
    apply N.eqb_eq in E. split; simpl; congruence.
Qed.

Lemma match_prefix_complete (w : jsstring) : forall m rest,
  ci_equal w m -> match_prefix w (m ++ rest) = Some (m, rest).
Proof.
  unfold ci_equal. induction w as [|p w IH]; intros [|c m] rest E;
    try discriminate; simpl.
  - reflexivity.
  - injection E as E1 E2. rewrite E1, N.eqb_refl, (IH m rest E2). reflexivity.
Qed.

Lemma last_or_word prev (m : jsstring) :
  m <> [] -> Forall (fun c => is_word_char c = true) m ->
  is_word (last_or prev m) = true.
Proof.
  intros Hm F. destruct (exists_last Hm) as [m' [c ->]].
  rewrite last_or_app. apply Forall_app in F. destruct F as [_ F].
  inversion F; subst. unfold last_or. simpl. assumption.
Qed.

Lemma match_alternatives_sound (alts : list jsstring) prev s n :
  match_alternatives alts prev s = Some n ->
  exists w m rest, In w alts /\ s = m ++ rest /\ ci_equal w m
    /\ n = length m
    /\ word_boundary (last_or prev m) (hd_error rest) = true.
Proof.
  induction alts as [|w alts IH]; simpl; [discriminate|]. intros H.
  assert (R : match_alternatives alts prev s = Some n ->
              exists w0 m rest, (w = w0 \/ In w0 alts) /\ s = m ++ rest
                /\ ci_equal w0 m /\ n = length m
                /\ word_boundary (last_or prev m) (hd_error rest) = true).
  { intros H'. destruct (IH H') as (w0 & m & rest & I & R). eauto 8. }
  destruct (match_prefix w s) as [[m rest]|] eqn:M; [|auto].
  destruct (word_boundary (last_or prev m) (hd_error rest)) eqn:B; [|auto].
  injection H as <-. apply match_prefix_sound in M. destruct M as [-> M].
  exists w, m, rest. auto.
Qed.

Lemma match_alternatives_complete (alts : list jsstring) prev w m rest :
  In w alts -> ci_equal w m ->
  word_boundary (last_or prev m) (hd_error rest) = true ->
  match_alternatives alts prev (m ++ rest) <> None.
Proof.
  intros I E B. induction alts as [|w' alts IH]; simpl; [contradiction|].
  destruct I as [->|I].
  - rewrite (match_prefix_complete w m rest E), B. discriminate.
  - destruct (match_prefix w' (m ++ rest)) as [[m' rest']|]; [|auto].
    destruct (word_boundary (last_or prev m') (hd_error rest'));
      [intros D; discriminate D|auto].
Qed.

Lemma match_denylist_sound prev s n :
  match_denylist prev s = Some n ->
  exists w m rest, In w denylist /\ s = m ++ rest /\ ci_equal w m
    /\ n = length m /\ m <> []
    /\ Forall (fun c => is_word_char c = true) m
    /\ is_word prev = false /\ is_word (hd_error rest) = false.
Proof.
  unfold match_denylist. destruct (word_boundary prev (hd_error s)) eqn:B;
    [|discriminate].
  intros H. apply match_alternatives_sound in H.
  destruct H as (w & m & rest & I & -> & E & -> & B').
  destruct (ci_equal_word w m (denylist_lower w I) E) as [Hm F].
  exists w, m, rest. repeat split; try assumption.
  - destruct m as [|c m]; [contradiction|]. inversion F; subst.
    unfold word_boundary in B. simpl in B.
    destruct (is_word prev); [|reflexivity].
    rewrite H1 in B. discriminate.
  - unfold word_boundary in B'. rewrite (last_or_word prev m Hm F) in B'.
    destruct (is_word (hd_error rest)); [discriminate|reflexivity].
Qed.

Lemma match_denylist_positive prev s n :
  match_denylist prev s = Some n -> exists k, n = S k.
Proof.
  intros H. apply match_denylist_sound in H.
  destruct H as (w & m & rest & _ & _ & _ & -> & Hm & _).
  destruct m; [contradiction|]. simpl. eauto.
Qed.

Lemma match_denylist_head prev c s n :
  match_denylist prev (c :: s) = Some n -> is_word_char c = true.
Proof.
  intros H. apply match_denylist_sound in H.
  destruct H as (w & m & rest & _ & E & _ & _ & Hm & F & _).
  destruct m as [|d m]; [contradiction|]. injection E as -> _.
  inversion F; assumption.
Qed.

Lemma match_denylist_complete prev w m rest :
  In w denylist -> ci_equal w m ->
  is_word prev = false -> is_word (hd_error rest) = false ->
  exists k, match_denylist prev (m ++ rest) = Some (S k).
Proof.
  intros I E P R.
  destruct (ci_equal_word w m (denylist_lower w I) E) as [Hm F].
  assert (B : word_boundary prev (hd_error (m ++ rest)) = true).
  { destruct m as [|c m]; [contradiction|]. inversion F; subst.
    unfold word_boundary. simpl. rewrite P, H1. reflexivity. }
  assert (B' : word_boundary (last_or prev m) (hd_error rest) = true).
  { unfold word_boundary. rewrite (last_or_word prev m Hm F), R. reflexivity. }
  destruct (match_denylist prev (m ++ rest)) as [n|] eqn:M.
  - destruct (match_denylist_positive _ _ _ M) as [k ->]. eauto.
  - exfalso. unfold match_denylist in M. rewrite B in M.
    exact (match_alternatives_complete denylist prev w m rest I E B' M).
Qed.

(** ** No denylisted word survives the replacement *)

Lemma denied_after_nil prev : ~ denied_after prev [].
Proof.
  intros (w & I & pre & m & post & E & C & _).
  destruct (ci_equal_word w m (denylist_lower w I) C) as [Hm _].
  symmetry in E. apply app_eq_nil in E. destruct E as [_ E].
  apply app_eq_nil in E. tauto.
Qed.

Lemma denied_after_cons prev c (s : jsstring) :
  denied_after (Some c) s -> denied_after prev (c :: s).
Proof.
  intros (w & I & pre & m & post & E & C & P & Q).
  exists w. split; [assumption|]. exists (c :: pre), m, post.
  rewrite last_or_cons. simpl. repeat split; congruence.
Qed.

(** An occurrence in [c :: s] starts at [c] or lies in [s]. *)
Lemma denied_after_inv prev c (s : jsstring) :
  denied_after prev (c :: s) ->
  (exists w m post, In w denylist /\ c :: s = m ++ post /\ ci_equal w m
     /\ is_word prev = false /\ is_word (hd_error post) = false)
  \/ denied_after (Some c) s.
Proof.
  intros (w & I & pre & m & post & E & C & P & Q).
  destruct pre as [|d pre].
  - left. exists w, m, post. auto.
  - right. injection E as <- E. rewrite last_or_cons in P.
    exists w. split; [assumption|]. exists pre, m, post. auto.
Qed.

Lemma word_run_unique (a : jsstring) : forall b x y,
  Forall (fun c => is_word_char c = true) a ->
  Forall (fun c => is_word_char c = true) b ->
  is_word (hd_error x) = false -> is_word (hd_error y) = false ->
  a ++ x = b ++ y -> a = b /\ x = y.
Proof.
  induction a as [|c a IH]; intros [|d b] x y Fa Fb Hx Hy E; simpl in E.
  - auto.
  - subst x. inversion Fb; subst. simpl in Hx. congruence.
  - subst y. inversion Fa; subst. simpl in Hy. congruence.
  - injection E as <- E. inversion Fa; inversion Fb; subst.
    destruct (IH b x y) as [-> ->]; auto.
Qed.

(** Behind a word character that is kept, the scan keeps the rest of the
    run of word characters and the code unit that ends it. *)
Lemma word_run_kept (s : jsstring) : forall c,
  is_word_char c = true ->
  exists r s2 out2,
    s = r ++ s2 /\ replace_scan match_denylist (Some c) 0 s = r ++ out2
    /\ Forall (fun c => is_word_char c = true) r
    /\ is_word (hd_error s2) = false /\ is_word (hd_error out2) = false.
Proof.
  induction s as [|d s IH]; intros c Hc.
  - exists [], [], []. simpl. auto.
  - destruct (is_word_char d) eqn:Hd.
    + assert (M : match_denylist (Some c) (d :: s) = None).
      { destruct (match_denylist (Some c) (d :: s)) eqn:M; [|reflexivity].
        apply match_denylist_sound in M.
        destruct M as (_ & _ & _ & _ & _ & _ & _ & _ & _ & P & _).
        simpl in P. congruence. }
      simpl. rewrite M.
      destruct (IH d Hd) as (r & s2 & out2 & E1 & E2 & F & H1 & H2).
      exists (d :: r), s2, out2. simpl. repeat split; auto; congruence.
    + exists [], (d :: s), (d :: replace_scan match_denylist (Some d) 0 s).
      simpl. repeat split; auto.
      destruct (match_denylist (Some c) (d :: s)) as [[|k]|] eqn:M;
        try reflexivity.
      apply match_denylist_head in M. congruence.
Qed.

Lemma scan_no_denied (n : nat) : forall s ip op,
  (length s <= n)%nat -> scan_inv ip op s ->
  ~ denied_after op (replace_scan match_denylist ip 0 s).
Proof.
  induction n as [|n IH]; intros [|c s] ip op L Inv; simpl in L;
    try apply denied_after_nil; try lia.
  simpl.
  destruct (match_denylist ip (c :: s)) as [[|k]|] eqn:M.
  - destruct (match_denylist_positive _ _ _ M) as [k E]. discriminate.
  - (* a match is dropped *)
    rewrite replace_scan_skip.
    destruct (match_denylist_sound _ _ _ M)
      as (w & m & rest & I & E & C & Len & Hm & F & P & Q).
    destruct m as [|c' m]; [contradiction|]. injection E as <- E.
    simpl in Len. injection Len as ->.
    assert (E1 : firstn (length m) s = m)
      by (rewrite E, firstn_app, Nat.sub_diag, firstn_all; simpl;
          apply app_nil_r).
    assert (E2 : skipn (length m) s = rest)
      by (rewrite E, skipn_app, Nat.sub_diag, skipn_all; reflexivity).
    rewrite E1, E2. apply IH.
    + rewrite E, length_app in L. lia.
    + right. rewrite <- last_or_cons with (prev := ip).
      rewrite (last_or_word ip (c :: m) Hm F).
      destruct Inv as [<-|[W _]]; [auto|congruence].
  - (* the code unit is kept *)
    intros D. apply denied_after_inv in D.
    destruct D as [(w & m & post & I & E & C & P & Q)|D].
    + destruct (ci_equal_word w m (denylist_lower w I) C) as [Hm F].
      destruct m as [|c' m]; [contradiction|]. injection E as <- E.
      inversion F as [|? ? Hc Fm]; subst.
      assert (Pi : is_word ip = false).
      { destruct Inv as [->|(_ & _ & W)]; [assumption|].
        simpl in W. congruence. }
      destruct (word_run_kept s c Hc) as (r & s2 & out2 & S1 & S2 & Fr & H1 & H2).
      rewrite S2 in E.
      destruct (word_run_unique r m out2 post Fr Fm H2 Q E) as [-> _].
      destruct (match_denylist_complete ip w (c :: m) s2 I C Pi H1) as [k K].
      simpl in K. rewrite <- S1 in K. congruence.
    + revert D. apply IH; [lia|left; reflexivity].
Qed.

Lemma replace_denylist_clean (s : jsstring) :
  ~ denied_after None (replace_denylist s).
Proof.
  apply (scan_no_denied (length s)); [lia|left; reflexivity].
Qed.

(** Trimming neither creates nor hides an occurrence. *)
Lemma trim_denied (s : jsstring) :
  denied_after None (trim s) -> denied_after None s.
Proof.
  intros (w & I & pre & m & post & E & C & P & Q).
  destruct (trim_split s) as (w1 & w2 & S & F1 & F2).
  exists w. split; [assumption|].
  exists (w1 ++ pre), m, (post ++ w2). repeat split.
  - rewrite S, E. repeat rewrite <- app_assoc. reflexivity.
  - assumption.
  - rewrite last_or_app.
    destruct pre as [|d pre].
    + destruct w1 as [|c w1] using rev_ind; [reflexivity|].
      rewrite last_or_app. apply Forall_app in F1. destruct F1 as [_ F1].
      inversion F1; subst. unfold last_or. simpl. now apply space_not_word.
    + rewrite last_or_cons in *. assumption.
  - destruct post as [|d post]; [|assumption].
    destruct w2 as [|c w2]; [reflexivity|].
    inversion F2; subst. simpl. now apply space_not_word.
Qed.

(** A string without an occurrence is left as it is. *)
Lemma replace_denylist_id (s : jsstring) : forall prev,
  ~ denied_after prev s -> replace_scan match_denylist prev 0 s = s.
Proof.
  induction s as [|c s IH]; intros prev H; simpl; [reflexivity|].
  assert (E : replace_scan match_denylist (Some c) 0 s = s).
  { apply IH. intros D. apply H. now apply denied_after_cons. }
  destruct (match_denylist prev (c :: s)) as [[|k]|] eqn:M;
    try (rewrite E; reflexivity).
  exfalso. apply H.
  destruct (match_denylist_sound _ _ _ M)
    as (w & m & rest & I & Es & C & _ & _ & _ & P & Q).
  exists w. split; [assumption|]. exists [], m, rest. auto.
Qed.

(** ** [sanitizeInput] *)

Lemma sanitize_string (s : jsstring) (n : Z) :
  sanitizeInput (Some (JString s)) n
  = trim (replace_denylist (replace_char_class (length_cap n s))).
Proof.
  unfold sanitizeInput, length_cap. destruct s as [|c s].
  - simpl. rewrite firstn_nil. reflexivity.
  - simpl negb. simpl orb. cbv iota. rewrite substring_prefix. reflexivity.
Qed.

Lemma sanitize_not_string (input : jsvalue) (n : Z) :
  is_string input = false -> sanitizeInput input n = [].
Proof.
  unfold sanitizeInput. intros ->. rewrite orb_true_r. reflexivity.
Qed.

Lemma replace_char_class_id (s : jsstring) :
  Forall (fun c => in_char_class c = false) s -> replace_char_class s = s.
Proof.
  unfold replace_char_class.
  induction 1 as [|c s Hc Hs IH]; simpl; [reflexivity|].
  rewrite Hc. simpl. congruence.
Qed.

Lemma replace_char_class_clean (s : jsstring) :
  Forall (fun c => in_char_class c = false) (replace_char_class s).
Proof.
  unfold replace_char_class. apply Forall_forall. intros c H.
  apply filter_In in H. destruct H as [_ H].
  now apply negb_true_iff in H.
Qed.

(** What every output of [sanitizeInput] satisfies. *)
Lemma sanitize_facts (input : jsvalue) (n : Z) :
  let out := sanitizeInput input n in
  Forall (fun c => in_char_class c = false) out
  /\ ~ denied_after None out
  /\ (forall c t, out = c :: t -> is_space c = false)
  /\ (forall c t, out = t ++ [c] -> is_space c = false)
  /\ (length out <= Z.to_nat n)%nat.
Proof.
  destruct (is_string input) eqn:S.
  - destruct input as [[| | |s| |]|]; try discriminate. clear S.
    cbv zeta. rewrite sanitize_string. repeat split.
    + apply trim_Forall, replace_scan_Forall, replace_char_class_clean.
    + intros D. apply trim_denied in D. revert D. apply replace_denylist_clean.
    + apply trim_head.
    + apply trim_last.
    + eapply Nat.le_trans; [apply trim_length|].
      eapply Nat.le_trans; [apply replace_scan_length|].
      eapply Nat.le_trans; [apply filter_length_le|].
      unfold length_cap. rewrite length_firstn. lia.
  - cbv zeta. rewrite (sanitize_not_string input n S). repeat split.
    + constructor.
    + apply denied_after_nil.
    + discriminate.
    + intros c t E. destruct t; discriminate.
    + simpl. lia.
Qed.

(** *** The stages of the specification *)















(** The order can be observed: capping after the removal of the
    characters, or removing the words before the characters, gives
    another result. *)
Example cap_then_class :
  sanitizeInput (Some (JString (js "<<<<ab"))) 4 = []
  /\ Stages.cap 4 (Stages.strip_class (js "<<<<ab")) = js "ab".
Proof. split; vm_compute; reflexivity. Qed.

Example class_then_words :
  sanitizeInput (Some (JString (js "ig<nore it"))) 200 = js "it"
  /\ Stages.strip_space
       (Stages.strip_class (Stages.strip_words (js "ig<nore it")))
     = js "ignore it".
Proof. split; vm_compute; reflexivity. Qed.



(** The removal of a word joins only fragments that end and start with
    characters that are not word characters: no new whole word appears. *)
Example sanitize_joins :
  sanitizeInput (Some (JString (js "ig<ignore>nore ig-ignore-nore"))) 200
  = js "igignorenore ig--nore".
Proof. vm_compute. reflexivity. Qed.

(** C9, as amended: for every input and every [maxLength], the length of
    the output is at most [maxLength] when [maxLength] is not negative and
    is zero otherwise; an input that is absent, [null] or not a string
    gives the empty string.  [sanitizeInput] is a total function. *)
Theorem sanitize_length_bound (input : jsvalue) (maxLength : Z) :
  (Z.of_nat (length (sanitizeInput input maxLength)) <= Z.max 0 maxLength)%Z
  /\ (is_string input = false -> sanitizeInput input maxLength = []).
Proof.
  split.
  - destruct (sanitize_facts input maxLength) as (_ & _ & _ & _ & L). lia.
  - apply sanitize_not_string.
Qed.

Lemma sanitize_length_bound_witness :
  sanitizeInput (Some (JNumber (NumFinite false (js "42") 0))) 200 = []
  /\ sanitizeInput None 200 = [] /\ sanitizeInput (Some JNull) 200 = [].
Proof.
  split; [|split];
    apply (proj2 (sanitize_length_bound _ 200)); reflexivity.
Defined.

(** C9 as stated fails for a negative [maxLength]: the output is empty,
    and its length, zero, exceeds the bound. *)
Lemma sanitize_length_negative :
  ~ (forall (input : jsvalue) (n : Z),
       (Z.of_nat (length (sanitizeInput input n)) <= n)%Z).
Proof.
  intros H. specialize (H (Some (JString (js "abc"))) (-1)%Z).
  vm_compute in H. apply H. reflexivity.
Qed.

(** C10: [sanitizeInput] is idempotent. *)
Theorem sanitize_idempotent (input : jsvalue) (maxLength : Z) :
  sanitizeInput (Some (JString (sanitizeInput input maxLength))) maxLength
  = sanitizeInput input maxLength.
Proof.
  destruct (sanitize_facts input maxLength) as (A & B & C & D & L).
  cbv zeta in *. set (out := sanitizeInput input maxLength) in *.
  rewrite sanitize_string. unfold length_cap.
  rewrite (firstn_all2 out L), (replace_char_class_id out A).
  unfold replace_denylist. rewrite (replace_denylist_id out None B).
  apply trim_id; assumption.
Qed.

(** ** The response extractor *)

Lemma match_to_last_brace_spec (s : jsstring) :
  match_to_last_brace s
  = option_map (fun j => firstn (S j) s) (last_index_of 125 s).
Proof.
  induction s as [|c s IH]; simpl; [reflexivity|].
  rewrite IH. destruct (last_index_of 125 s) as [j|]; simpl; [reflexivity|].
  destruct (c =? 125); reflexivity.
Qed.

(** The match of [/\{[\s\S]*\}/] is the span from the first opening brace
    to the last closing brace. *)
Lemma match_braces_span (s : jsstring) : match_braces s = brace_span s.
Proof.
  unfold brace_span. induction s as [|c s IH]; simpl; [reflexivity|].
  rewrite match_to_last_brace_spec.
  destruct (c =? 123) eqn:E.
  - apply N.eqb_eq in E. subst c.
    destruct (last_index_of 125 s) as [j|]; simpl.
    + reflexivity.
    + rewrite IH. destruct (index_of 123 s); reflexivity.
  - rewrite IH. destruct (index_of 123 s) as [i|]; simpl.
    + destruct (last_index_of 125 s) as [j|]; simpl.
      * reflexivity.
      * destruct (c =? 125); reflexivity.
    + destruct (last_index_of 125 s) as [j|]; [reflexivity|].
      destruct (c =? 125); reflexivity.
Qed.

Lemma index_of_none (x : char16) (s : jsstring) :
  ~ In x s -> index_of x s = None.
Proof.
  induction s as [|c s IH]; simpl; [reflexivity|]. intros H.
  destruct (c =? x) eqn:E.
  - apply N.eqb_eq in E. tauto.
  - rewrite IH; [reflexivity|tauto].
Qed.

Lemma last_index_of_none (x : char16) (s : jsstring) :
  ~ In x s -> last_index_of x s = None.
Proof.
  induction s as [|c s IH]; simpl; [reflexivity|]. intros H.
  rewrite IH by tauto. destruct (c =? x) eqn:E; [|reflexivity].
  apply N.eqb_eq in E. tauto.
Qed.

(** C1, as amended: the first attempt returns the parsed value whenever
    the parse succeeds, whatever the kind of the value (object, array or
    primitive); the fallback runs only when the parse throws. *)
Theorem first_attempt_returns_any_value (content : jsstring) (v : json) :
  JSON.parse (cleanContent content) = Some v ->
  extractStructured content = Extracted v.
Proof. unfold extractStructured. intros ->. reflexivity. Qed.

Lemma first_attempt_returns_any_value_witness :
  extractStructured (jsq "```json
{'a':1}
```")
  = Extracted (JObject [(js "a", JNumber (NumFinite false (js "1") 0))]).
Proof.
  apply first_attempt_returns_any_value. vm_compute. reflexivity.
Defined.

(** C1 as stated fails: the reply [[1,2]] parses to an array, which the
    first attempt returns; the fallback, which would fail on it, is not
    run. *)
Lemma first_attempt_returns_array :
  let content := js "[1,2]" in
  let v := JArray [JNumber (NumFinite false (js "1") 0);
                   JNumber (NumFinite false (js "2") 0)] in
  JSON.parse (cleanContent content) = Some v
  /\ is_object v = false
  /\ extractStructured content = Extracted v
  /\ fallback content = InvalidFormat.
Proof. vm_compute. repeat split; reflexivity. Qed.

(** C4: when the first attempt fails, the second one works on the reply
    as it came, not on the text without the fences, and parses exactly the
    span from its first opening brace to its last closing brace. *)
Theorem fallback_parses_greedy_span (content : jsstring) :
  JSON.parse (cleanContent content) = None ->
  extractStructured content
  = match brace_span content with
    | Some span =>
        match JSON.parse span with
        | Some v => Extracted v
        | None => ParseFailed
        end
    | None => InvalidFormat
    end.
Proof.
  unfold extractStructured, fallback. intros ->.
  rewrite match_braces_span. reflexivity.
Qed.

(** The span is taken from the reply with its fences (the text without
    them would give an empty string here), and it runs to the last brace,
    over what lies between an inner object and that brace. *)
Lemma fallback_parses_greedy_span_witness :
  extractStructured (jsq "x {'a':'```'}")
    = Extracted (JObject [(js "a", JString (js "```"))])
  /\ brace_span (cleanContent (jsq "x {'a':'```'}")) = Some (jsq "{'a':''}")
  /\ extractStructured (jsq "{'a':1} and more }") = ParseFailed.
Proof.
  split; [|split].
  - rewrite fallback_parses_greedy_span; vm_compute; reflexivity.
  - vm_compute. reflexivity.
  - rewrite fallback_parses_greedy_span; vm_compute; reflexivity.
Defined.

(** C5, as amended: the extraction fails exactly when no JSON value can
    be recovered, that is when both attempts fail: the first parse fails
    and the span of the second attempt does not exist or does not parse;
    the span does not exist when the reply has no opening or no closing
    brace; the request then ends with status 500 and an error envelope,
    nothing of the reply is sent. *)
Theorem extraction_failure (e : env) (content : jsstring) :
  (* failure is failure of both attempts *)
  ((forall v, extractStructured content <> Extracted v)
   <-> JSON.parse (cleanContent content) = None
       /\ match brace_span content with
          | Some span => JSON.parse span = None
          | None => True
          end)
  (* no brace, no span *)
  /\ (~ In 123 content \/ ~ In 125 content -> brace_span content = None)
  (* the request fails *)
  /\ ((forall v, extractStructured content <> Extracted v) ->
      analyze_response e (FetchOk content)
        = {| status := 500; body := error_body "Failed to parse analysis" |}
      \/ analyze_response e (FetchOk content)
        = {| status := 500; body := error_body "Invalid response format" |}).
Proof.
  split; [|split].
  - unfold extractStructured, fallback. rewrite match_braces_span. split.
    + intros H. destruct (JSON.parse (cleanContent content)) as [v|].
      * exfalso. exact (H v eq_refl).
      * split; [reflexivity|].
        destruct (brace_span content) as [span|]; [|exact I].
        destruct (JSON.parse span) as [v|]; [|reflexivity].
        exfalso. exact (H v eq_refl).
    + intros [-> H] v. destruct (brace_span content) as [span|].
      * rewrite H. discriminate.
      * discriminate.
  - unfold brace_span. intros [H|H].
    + rewrite (index_of_none _ _ H). reflexivity.
    + rewrite (last_index_of_none _ _ H).
      destruct (index_of 123 content); reflexivity.
  - intros H. unfold analyze_response.
    destruct (extractStructured content) as [v| |].
    + exfalso. exact (H v eq_refl).
    + left. reflexivity.
    + right. reflexivity.
Qed.

Lemma extraction_failure_witness :
  brace_span (js "no json here") = None
  /\ (analyze_response {| PERPLEXITY_API_KEY := Some (js "k"); now := [] |}
        (FetchOk (js "no json here"))
        = {| status := 500; body := error_body "Failed to parse analysis" |}
      \/ analyze_response {| PERPLEXITY_API_KEY := Some (js "k"); now := [] |}
        (FetchOk (js "no json here"))
        = {| status := 500; body := error_body "Invalid response format" |}).
Proof.
  split.
  - apply (proj1 (proj2 (extraction_failure
             {| PERPLEXITY_API_KEY := None; now := [] |} (js "no json here")))).
    left. vm_compute. intuition discriminate.
  - apply (proj2 (proj2 (extraction_failure _ (js "no json here")))).
    intros v. vm_compute. discriminate.
Defined.

(** C5 as stated fails: no JSON object can be recovered from the reply
    [42], neither by the first attempt, which parses it to a number, nor
    by the second, for which there is no span; yet the extraction does not
    fail and the number is sent with status 200. *)
Lemma number_reply_is_no_failure :
  let content := js "42" in
  let v := JNumber (NumFinite false (js "42") 0) in
  JSON.parse (cleanContent content) = Some v
  /\ is_object v = false
  /\ brace_span content = None
  /\ extractStructured content = Extracted v
  /\ analyze_response {| PERPLEXITY_API_KEY := Some (js "key"); now := [] |}
       (FetchOk content)
     = {| status := 200; body := v |}.
Proof. vm_compute. repeat split; reflexivity. Qed.

(** ** The request handlers *)








Lemma set_prop_keys (k : jsstring) (v : json) props :
  JSON.has_prop k props = true ->
  map fst (JSON.set_prop k v props) = map fst props.
Proof.
  intros H. unfold JSON.set_prop. rewrite H. clear H.
  induction props as [|[k' v'] props IH]; simpl; [reflexivity|].
  destruct (list_eq_dec N.eq_dec k k'); simpl; [reflexivity|].
  now rewrite IH.
Qed.

(** The order of the keys. *)

Lemma key_before_asym (k k' : jsstring) :
  JSON.key_before k k' = true -> JSON.key_before k' k = false.
Proof.
  unfold JSON.key_before.
  destruct (JSON.array_index k), (JSON.array_index k'); try discriminate;
    try reflexivity.
  intros H. apply Z.ltb_lt in H. apply Z.ltb_ge. lia.
Qed.

Lemma key_before_next (k k' y : jsstring) :
  JSON.key_before k k' = true -> JSON.key_before y k' = false ->
  JSON.key_before y k = false.
Proof.
  unfold JSON.key_before.
  destruct (JSON.array_index k), (JSON.array_index k'),
    (JSON.array_index y); try discriminate; try reflexivity.
  intros H1 H2. apply Z.ltb_lt in H1. apply Z.ltb_ge in H2.
  apply Z.ltb_ge. lia.
Qed.

Lemma add_prop_In (k x : jsstring) (v : json) props :
  In x (map fst (JSON.add_prop k v props)) <-> x = k \/ In x (map fst props).
Proof.
  induction props as [|[k' v'] props IH]; simpl.
  - intuition.
  - destruct (JSON.key_before k k'); simpl; [intuition|].
    rewrite IH. intuition.
Qed.

Lemma add_prop_NoDup (k : jsstring) (v : json) props :
  ~ In k (map fst props) -> NoDup (map fst props) ->
  NoDup (map fst (JSON.add_prop k v props)).
Proof.
  induction props as [|[k' v'] props IH]; simpl; intros I N.
  - constructor; [tauto|constructor].
  - destruct (JSON.key_before k k'); simpl.
    + constructor; [simpl; tauto|assumption].
    + inversion N as [|? ? Hk Hn]; subst. constructor.
      * rewrite add_prop_In. intros [E|E]; [|contradiction].
        apply I. left. congruence.
      * apply IH; [tauto|assumption].
Qed.

Lemma add_prop_sorted (k : jsstring) (v : json) props :
  StronglySorted key_order (map fst props) ->
  StronglySorted key_order (map fst (JSON.add_prop k v props)).
Proof.
  induction props as [|[k' v'] props IH]; simpl; intros S.
  - repeat constructor.
  - inversion S as [|? ? Hs Hf]; subst.
    destruct (JSON.key_before k k') eqn:B; simpl.
    + constructor; [assumption|]. constructor.
      * now apply key_before_asym.
      * rewrite Forall_forall in *. intros y Hy.
        apply (key_before_next k k' y B). now apply Hf.
    + constructor; [now apply IH|].
      rewrite Forall_forall in *. intros y Hy.
      apply add_prop_In in Hy. destruct Hy as [->|Hy]; [exact B|].
      now apply Hf.
Qed.

Lemma StronglySorted_prefix {A : Type} (R : A -> A -> Prop) (a b : list A) :
  StronglySorted R (a ++ b) -> StronglySorted R a.
Proof.
  induction a as [|x a IH]; simpl; intros S; [constructor|].
  inversion S as [|? ? Hs Hf]; subst. constructor; [now apply IH|].
  apply Forall_app in Hf. tauto.
Qed.

(** A new property whose key is in its place behind the keys already
    there comes last. *)
Lemma add_prop_in_order (k : jsstring) (v : json) props :
  StronglySorted key_order (map fst props ++ [k]) ->
  JSON.add_prop k v props = props ++ [(k, v)].
Proof.
  induction props as [|[k' v'] props IH]; simpl; intros S; [reflexivity|].
  inversion S as [|? ? Hs Hf]; subst.
  apply Forall_app in Hf. destruct Hf as [_ Hf].
  inversion Hf as [|? ? Hk _]; subst. unfold key_order in Hk. rewrite Hk.
  now rewrite IH.
Qed.

Lemma has_prop_In (k : jsstring) (props : list (jsstring * json)) :
  JSON.has_prop k props = true <-> In k (map fst props).
Proof.
  induction props as [|[k' v'] props IH]; simpl; [intuition discriminate|].
  destruct (list_eq_dec N.eq_dec k k'); [intuition|].
  rewrite IH. intuition congruence.
Qed.

Lemma set_prop_ordered (k : jsstring) (v : json) props :
  ordered_keys (map fst props) ->
  ordered_keys (map fst (JSON.set_prop k v props)).
Proof.
  intros [N S]. destruct (JSON.has_prop k props) eqn:H.
  - rewrite (set_prop_keys _ _ _ H). now split.
  - unfold JSON.set_prop. rewrite H. split.
    + apply add_prop_NoDup; [|assumption].
      rewrite <- has_prop_In. congruence.
    + now apply add_prop_sorted.
Qed.

(** The part of C2 that the code keeps: [/api/analyze] answers 400 when
    the product name is missing or is empty after sanitization, and
    [/api/chat] answers 400 when the message is missing or empty. *)
Lemma analyze_requires_clean_name (e : env) req_body :
  sanitizeInput (JSON.get_prop (js "productName") req_body) 200 = [] ->
  analyze e req_body
  = Reply {| status := 400;
             body := error_body "Valid product name is required" |}.
Proof. unfold analyze. intros ->. reflexivity. Qed.

Lemma chat_requires_message (e : env) req_body :
  truthy (JSON.get_prop (js "message") req_body) = false ->
  chat e req_body
  = Reply {| status := 400; body := error_body "Message is required" |}.
Proof. unfold chat. intros ->. reflexivity. Qed.

(** C2 fails on [/api/chat]: a message that is not empty and sanitizes to
    the empty string is not answered with 400; the completion API is
    called with an empty question and its reply is sent with status 200. *)
Theorem chat_accepts_message_sanitized_to_empty :
  let e := {| PERPLEXITY_API_KEY := Some (js "key"); now := [] |} in
  let req_body := [(js "message", JString (js "ignore"))] in
  sanitizeInput (JSON.get_prop (js "message") req_body) 500 = []
  /\ chat e req_body = CallUpstream [] chat_response
  /\ chat_response (FetchOk (js "Hello"))
     = {| status := 200;
          body := JObject [(js "message", JString (js "Hello"))] |}.
Proof. vm_compute. repeat split; reflexivity. Qed.




(** ** [JSON.parse] reads what [JSON.stringify] writes *)

Module JSONFacts.
Import JSON JSONText.

Lemma lex_run_app (a b : jsstring) : forall st,
  lex_run st (a ++ b)
  = match lex_run st a with Some st' => lex_run st' b | None => None end.
Proof.
  induction a as [|c a IH]; intros st; simpl; [reflexivity|].
  destruct (lex_step st c); [apply IH|reflexivity].
Qed.

Lemma lex_from_app (a b : jsstring) st st' :
  lex_run st a = Some st' -> lex_from st (a ++ b) = lex_from st' b.
Proof. unfold lex_from. intros H. rewrite lex_run_app, H. reflexivity. Qed.

(** *** Strings *)

Ltac units :=
  unfold is_ws, is_digit, is_e, is_high_surrogate, is_low_surrogate,
    hex_digit, in_range in *;
  repeat match goal with
         | |- context [if ?b then _ else _] => destruct b eqn:?
         | H : context [if ?b then _ else _] |- _ => destruct b eqn:?
         end;
  bool_to_prop; try lia.

Lemma hex_value_digit (n : N) : n < 16 -> hex_value (hex_digit n) = Some n.
Proof.
  intros H. unfold hex_value, hex_digit, in_range.
  destruct (n <? 10) eqn:E; bool_to_prop.
  - replace (48 <=? 48 + n) with true by (symmetry; apply N.leb_le; lia).
    replace (48 + n <=? 57) with true by (symmetry; apply N.leb_le; lia).
    replace (48 + n - 48) with n by lia. reflexivity.
  - replace (48 <=? 87 + n) with true by (symmetry; apply N.leb_le; lia).
    replace (87 + n <=? 57) with false by (symmetry; apply N.leb_gt; lia).
    replace (97 <=? 87 + n) with true by (symmetry; apply N.leb_le; lia).
    replace (87 + n <=? 102) with true by (symmetry; apply N.leb_le; lia).
    replace (87 + n - 87) with n by lia. reflexivity.
Qed.

Lemma hex_digits_value (c : N) :
  c < 65536 ->
  (((0 * 16 + (c / 4096) mod 16) * 16 + (c / 256) mod 16) * 16
   + (c / 16) mod 16) * 16 + c mod 16 = c.
Proof.
  intros H.
  assert (E1 : c / 256 = c / 16 / 16) by (now rewrite N.Div0.div_div).
  assert (E2 : c / 4096 = c / 256 / 16) by (now rewrite N.Div0.div_div).
  pose proof (N.div_mod' c 16) as D0.
  pose proof (N.div_mod' (c / 16) 16) as D1.
  pose proof (N.div_mod' (c / 256) 16) as D2.
  assert (D3 : c / 4096 < 16) by (apply N.Div0.div_lt_upper_bound; lia).
  rewrite (N.mod_small _ _ D3). rewrite <- E1 in D1. rewrite <- E2 in D2.
  lia.
Qed.

Lemma lex_unicode_escape acc out (c : char16) rest :
  c < 65536 ->
  lex_run (LString acc, out) (unicode_escape c ++ rest)
  = lex_run (LString (c :: acc), out) rest.
Proof.
  intros H. unfold unicode_escape.
  assert (H3 : (c / 4096) mod 16 < 16) by (apply N.mod_lt; discriminate).
  assert (H2 : (c / 256) mod 16 < 16) by (apply N.mod_lt; discriminate).
  assert (H1 : (c / 16) mod 16 < 16) by (apply N.mod_lt; discriminate).
  assert (H0 : c mod 16 < 16) by (apply N.mod_lt; discriminate).
  rewrite <- (hex_digits_value c H) at 5.
  generalize dependent ((c / 4096) mod 16).
  generalize dependent ((c / 256) mod 16).
  generalize dependent ((c / 16) mod 16).
  generalize dependent (c mod 16).
  intros q0 H0 q1 H1 q2 H2 q3 H3.
  cbn [app lex_run]. change (lex_step (LString acc, out) 92)
    with (Some (LEscape acc, out)).
  cbn iota. change (lex_step (LEscape acc, out) 117)
    with (Some (LUnicode acc 4 0, out)).
  cbn iota. unfold lex_step at 1. rewrite (hex_value_digit q3 H3).
  unfold lex_step at 1. rewrite (hex_value_digit q2 H2).
  unfold lex_step at 1. rewrite (hex_value_digit q1 H1).
  unfold lex_step at 1. rewrite (hex_value_digit q0 H0).
  reflexivity.
Qed.

Lemma lex_plain_unit acc out (c : char16) :
  c <> 34 -> c <> 92 -> 32 <= c ->
  lex_step (LString acc, out) c = Some (LString (c :: acc), out).
Proof.
  intros A B C. unfold lex_step.
  apply N.eqb_neq in A. apply N.eqb_neq in B. rewrite A, B.
  replace (c <? 32) with false by (symmetry; apply N.ltb_ge; assumption).
  reflexivity.
Qed.

Lemma lex_quote_unit acc out (c : char16) rest :
  lex_run (LString acc, out) (quote_unit c ++ rest)
  = lex_run (LString (c :: acc), out) rest.
Proof.
  unfold quote_unit.
  repeat match goal with
         | |- context [if c =? ?k then _ else _] =>
             destruct (N.eqb_spec c k); [subst c; reflexivity|]
         end.
  destruct ((c <? 32) || is_high_surrogate c || is_low_surrogate c) eqn:E.
  - apply lex_unicode_escape. units.
  - cbn [app lex_run]. rewrite lex_plain_unit; [reflexivity|assumption..|].
    units.
Qed.

Lemma lex_quote_chars (n : nat) : forall s acc out rest,
  (length s <= n)%nat ->
  lex_run (LString acc, out) (quote_chars s ++ rest)
  = lex_run (LString (rev s ++ acc), out) rest.
Proof.
  induction n as [|n IH]; intros [|c s] acc out rest L; simpl in L;
    try reflexivity; try lia.
  assert (Plain : lex_run (LString acc, out)
                    ((quote_unit c ++ quote_chars s) ++ rest)
                  = lex_run (LString (rev (c :: s) ++ acc), out) rest).
  { rewrite <- app_assoc, lex_quote_unit, IH by lia.
    simpl. rewrite <- app_assoc. reflexivity. }
  simpl quote_chars. destruct (is_high_surrogate c) eqn:Hc; [|exact Plain].
  destruct s as [|d s].
  - rewrite lex_quote_unit. reflexivity.
  - destruct (is_low_surrogate d) eqn:Hd; [|exact Plain].
    cbn [app lex_run].
    rewrite lex_plain_unit by units. cbn iota.
    rewrite lex_plain_unit by units. cbn iota.
    simpl in L. rewrite IH by lia.
    simpl. repeat rewrite <- app_assoc. reflexivity.
Qed.

Lemma lex_quote (s : jsstring) out rest :
  lex_run (LStart, out) (quote s ++ rest)
  = lex_run (LStart, TString s :: out) rest.
Proof.
  unfold quote. cbn [app lex_run].
  change (lex_step (LStart, out) 34) with (Some (LString [], out)).
  cbn iota. rewrite <- app_assoc.
  rewrite (lex_quote_chars (length s)) by lia.
  cbn [app lex_run]. unfold lex_step. rewrite N.eqb_refl.
  rewrite app_nil_r, rev_involutive. reflexivity.
Qed.

(** *** Numbers *)

Lemma zeros_digits (t : nat) : Forall (fun c => is_digit c = true) (zeros t).
Proof. apply Forall_forall. intros c H. apply repeat_spec in H. now subst. Qed.

Lemma rev_zeros (t : nat) : rev (zeros t) = zeros t.
Proof.
  unfold zeros. induction t as [|t IH]; simpl; [reflexivity|].
  rewrite IH. symmetry. apply repeat_cons.
Qed.

Lemma strip_zeros_zeros (t : nat) x : strip_zeros (zeros t ++ x) = strip_zeros x.
Proof. induction t as [|t IH]; simpl; auto. Qed.

Lemma strip_zeros_id x : hd_error x <> Some 48 -> strip_zeros x = x.
Proof.
  destruct x as [|c x]; simpl; [reflexivity|]. intros H.
  destruct (N.eqb_spec c 48); [subst; contradiction|reflexivity].
Qed.

Lemma strip_zeros_split x : exists t, x = zeros t ++ strip_zeros x.
Proof.
  induction x as [|c x [t E]]; simpl.
  - exists O. reflexivity.
  - destruct (N.eqb_spec c 48).
    + subst c. exists (S t). simpl. f_equal. exact E.
    + exists O. reflexivity.
Qed.

Lemma strip_zeros_head x : hd_error (strip_zeros x) <> Some 48.
Proof.
  induction x as [|c x IH]; simpl; [discriminate|].
  destruct (N.eqb_spec c 48); [assumption|]. simpl. congruence.
Qed.

Lemma number_value_normal neg int frac eneg exp ds (t : nat) (e : Z) :
  ds <> [] -> hd_error ds <> Some 48 -> hd_error (rev ds) <> Some 48 ->
  strip_zeros (int ++ frac) = ds ++ zeros t ->
  e = (signed_value eneg exp - Z.of_nat (length frac) + Z.of_nat t)%Z ->
  canonical neg ds e = NumFinite neg ds e ->
  number_value neg int frac eneg exp = NumFinite neg ds e.
Proof.
  intros N H1 H2 S E C. unfold number_value, normal. rewrite S.
  rewrite rev_app_distr, rev_zeros, strip_zeros_zeros.
  rewrite (strip_zeros_id _ H2), rev_involutive.
  assert (L : (length (ds ++ zeros t) - length ds)%nat = t)
    by (unfold zeros; rewrite length_app, repeat_length; lia).
  unfold char16 in *. rewrite L, <- E. exact C.
Qed.

(** The lexer on the characters of a number. *)

Lemma lex_first_digit (neg : bool) (d : char16) out rest :
  is_digit d = true -> d <> 48 ->
  lex_run (LStart, out) ((if neg then [45] else []) ++ d :: rest)
  = lex_run (LNumber NInt (Build_numlit neg [d] [] false []), out) rest.
Proof.
  intros D Z. apply N.eqb_neq in Z. destruct neg; cbn [app lex_run].
  - change (lex_step (LStart, out) 45)
      with (Some (LNumber NSign (empty_numlit true), out)).
    cbn iota. unfold lex_step, num_step. rewrite Z, D. reflexivity.
  - unfold lex_step at 1. unfold lex_start.
    replace (is_ws d) with false by (symmetry; units).
    replace (d =? 123) with false by (symmetry; units).
    replace (d =? 125) with false by (symmetry; units).
    replace (d =? 91) with false by (symmetry; units).
    replace (d =? 93) with false by (symmetry; units).
    replace (d =? 58) with false by (symmetry; units).
    replace (d =? 44) with false by (symmetry; units).
    replace (d =? 34) with false by (symmetry; units).
    replace (d =? 45) with false by (symmetry; units).
    rewrite Z, D. reflexivity.
Qed.

Lemma lex_first_zero (neg : bool) out rest :
  lex_run (LStart, out) ((if neg then [45] else []) ++ 48 :: rest)
  = lex_run (LNumber NZero (Build_numlit neg [48] [] false []), out) rest.
Proof. destruct neg; reflexivity. Qed.

Lemma lex_int_digits cs : Forall (fun c => is_digit c = true) cs ->
  forall neg i f en ex out rest,
  lex_run (LNumber NInt (Build_numlit neg i f en ex), out) (cs ++ rest)
  = lex_run (LNumber NInt (Build_numlit neg (rev cs ++ i) f en ex), out) rest.
Proof.
  induction 1 as [|c cs Hc Hcs IH]; intros; [reflexivity|].
  cbn [app lex_run]. unfold lex_step, num_step. rewrite Hc. cbn iota.
  unfold add_int. cbn [nl_neg nl_int nl_frac nl_eneg nl_exp].
  rewrite IH. simpl. rewrite <- app_assoc. reflexivity.
Qed.

Lemma lex_frac_digits cs : Forall (fun c => is_digit c = true) cs ->
  forall neg i f en ex out rest,
  lex_run (LNumber NFrac (Build_numlit neg i f en ex), out) (cs ++ rest)
  = lex_run (LNumber NFrac (Build_numlit neg i (rev cs ++ f) en ex), out) rest.
Proof.
  induction 1 as [|c cs Hc Hcs IH]; intros; [reflexivity|].
  cbn [app lex_run]. unfold lex_step, num_step. rewrite Hc. cbn iota.
  unfold add_frac. cbn [nl_neg nl_int nl_frac nl_eneg nl_exp].
  rewrite IH. simpl. rewrite <- app_assoc. reflexivity.
Qed.

Lemma lex_exp_digits cs : Forall (fun c => is_digit c = true) cs ->
  forall neg i f en ex out rest,
  lex_run (LNumber NExpDigits (Build_numlit neg i f en ex), out) (cs ++ rest)
  = lex_run (LNumber NExpDigits (Build_numlit neg i f en (rev cs ++ ex)), out)
      rest.
Proof.
  induction 1 as [|c cs Hc Hcs IH]; intros; [reflexivity|].
  cbn [app lex_run]. unfold lex_step, num_step. rewrite Hc. cbn iota.
  unfold add_exp. cbn [nl_neg nl_int nl_frac nl_eneg nl_exp].
  rewrite IH. simpl. rewrite <- app_assoc. reflexivity.
Qed.

(** A fraction behind the integer part. *)
Lemma lex_fraction (ph : numphase) cs :
  ph = NInt \/ ph = NZero -> cs <> [] -> Forall (fun c => is_digit c = true) cs ->
  forall neg i en ex out rest,
  lex_run (LNumber ph (Build_numlit neg i [] en ex), out) (46 :: cs ++ rest)
  = lex_run (LNumber NFrac (Build_numlit neg i (rev cs) en ex), out) rest.
Proof.
  intros P N F neg i en ex out rest.
  destruct cs as [|c cs]; [contradiction|]. inversion F as [|? ? Hc Hcs]; subst.
  cbn [app lex_run].
  replace (lex_step (LNumber ph (Build_numlit neg i [] en ex), out) 46)
    with (Some (LNumber NDot (Build_numlit neg i [] en ex), out))
    by (destruct P; subst ph; reflexivity).
  cbn iota. unfold lex_step, num_step. rewrite Hc. cbn iota.
  unfold add_frac. cbn [nl_neg nl_int nl_frac nl_eneg nl_exp].
  rewrite (lex_frac_digits cs Hcs). simpl. reflexivity.
Qed.

Lemma uint_of_digits_of_uint (u : Decimal.uint) :
  uint_of_digits (digits_of_uint u) = u.
Proof. induction u; simpl; unfold uint_digit; simpl; congruence. Qed.

Lemma digits_of_uint_digits (u : Decimal.uint) :
  Forall (fun c => is_digit c = true) (digits_of_uint u).
Proof. induction u; simpl; constructor; auto. Qed.

(** An exponent behind the integer part or the fraction. *)
Lemma lex_exponent (ph : numphase) (z : Z) :
  ph = NInt \/ ph = NFrac ->
  exists eneg xs, signed_value eneg xs = z /\
  forall neg i f out rest,
  lex_run (LNumber ph (Build_numlit neg i f false []), out)
          (101 :: exponent_text z ++ rest)
  = lex_run (LNumber NExpDigits (Build_numlit neg i f eneg (rev xs)), out) rest.
Proof.
  intros P. unfold exponent_text.
  assert (Step : forall neg i f out,
    lex_step (LNumber ph (Build_numlit neg i f false []), out) 101
    = Some (LNumber NExp (Build_numlit neg i f false []), out))
    by (intros; destruct P; subst ph; reflexivity).
  pose proof (DecimalZ.of_to z) as OT.
  destruct (Z.to_int z) as [u|u] eqn:E.
  - exists false, (digits_of_uint u). split.
    + unfold signed_value. rewrite uint_of_digits_of_uint. exact OT.
    + intros. cbn [app lex_run]. rewrite Step. cbn iota.
      assert (N : digits_of_uint u <> []).
      { destruct z; simpl in E; try discriminate; injection E as <-;
          [discriminate|].
        pose proof (DecimalPos.Unsigned.to_uint_nonnil p).
        destruct (Pos.to_uint p); [contradiction|discriminate..]. }
      destruct (digits_of_uint u) as [|c cs] eqn:D; [contradiction|].
      pose proof (digits_of_uint_digits u) as F. rewrite D in F.
      inversion F as [|? ? Hc Hcs]; subst.
      change (lex_step (LNumber NExp (Build_numlit neg i f false []), out) 43)
        with (Some (LNumber NExpSign (Build_numlit neg i f false []), out)).
      cbn iota. cbn [app lex_run]. unfold lex_step, num_step. rewrite Hc.
      cbn iota.
      unfold add_exp. cbn [nl_neg nl_int nl_frac nl_eneg nl_exp].
      rewrite (lex_exp_digits cs Hcs). simpl. reflexivity.
  - exists true, (digits_of_uint u). split.
    + unfold signed_value. rewrite uint_of_digits_of_uint. exact OT.
    + intros. cbn [app lex_run]. rewrite Step. cbn iota.
      assert (N : digits_of_uint u <> []).
      { destruct z; simpl in E; try discriminate. injection E as <-.
        pose proof (DecimalPos.Unsigned.to_uint_nonnil p).
        destruct (Pos.to_uint p); [contradiction|discriminate..]. }
      destruct (digits_of_uint u) as [|c cs] eqn:D; [contradiction|].
      pose proof (digits_of_uint_digits u) as F. rewrite D in F.
      inversion F as [|? ? Hc Hcs]; subst.
      change (lex_step (LNumber NExp (Build_numlit neg i f false []), out) 45)
        with (Some (LNumber NExpSign (Build_numlit neg i f true []), out)).
      cbn iota. cbn [app lex_run]. unfold lex_step, num_step. rewrite Hc.
      cbn iota.
      unfold add_exp. cbn [nl_neg nl_int nl_frac nl_eneg nl_exp].
      rewrite (lex_exp_digits cs Hcs). simpl. reflexivity.
Qed.

Lemma signed_value_nil : signed_value false [] = 0%Z.
Proof. reflexivity. Qed.

Lemma firstn_skipn_digits (n : nat) (ds : list char16) :
  Forall (fun c => is_digit c = true) ds ->
  Forall (fun c => is_digit c = true) (firstn n ds)
  /\ Forall (fun c => is_digit c = true) (skipn n ds).
Proof.
  intros F. rewrite <- (firstn_skipn n ds) in F.
  apply Forall_app in F. exact F.
Qed.

(** The lexer reads the text of a number to a final phase, with the
    number as the value of the literal. *)
Lemma lex_number (n : jsnumber) :
  wf_number n -> (forall neg, n <> NumInfinity neg) -> n <> NumNegZero ->
  exists ph l,
    (forall out rest,
       lex_run (LStart, out) (number_to_string n ++ rest)
       = lex_run (LNumber ph l, out) rest)
    /\ num_final ph = true /\ numlit_value l = n.
Proof.
  intros W NI NZ.
  destruct n as [|neg ds e|neg|];
    [| |exfalso; now apply (NI neg)|contradiction].
  { exists NZero, (Build_numlit false [48] [] false []).
    repeat split; reflexivity. }
  destruct W as (N & F & H1 & H2 & C).
  destruct ds as [|d ds']; [contradiction|].
  inversion F as [|? ? Hd Fds']; subst.
  assert (Hz : d <> 48) by (intros ->; now apply H1).
  unfold number_to_string, digits_to_string.
  set (k := Z.of_nat (length (d :: ds'))).
  assert (Hk : k = (1 + Z.of_nat (length ds'))%Z)
    by (unfold k; simpl length; lia).
  destruct ((k <=? k + e)%Z && (k + e <=? 21)%Z) eqn:C1.
  { (* digits and zeros *)
    apply andb_true_iff in C1. destruct C1 as [C1 _]. apply Z.leb_le in C1.
    set (m := Z.to_nat (k + e - k)).
    do 2 eexists. split; [|split].
    - intros out rest. rewrite <- !app_assoc. cbn [app].
      rewrite (lex_first_digit neg d out _ Hd Hz).
      rewrite (lex_int_digits ds' Fds'), (lex_int_digits _ (zeros_digits m)).
      reflexivity.
    - reflexivity.
    - unfold numlit_value. cbn [nl_neg nl_int nl_frac nl_eneg nl_exp].
      rewrite !rev_app_distr, !rev_involutive. cbn [rev app].
      apply (number_value_normal _ _ _ _ _ (d :: ds') m); try assumption.
      + rewrite app_nil_r. rewrite strip_zeros_id by assumption.
        reflexivity.
      + rewrite signed_value_nil. simpl length. unfold m. lia. }
  destruct ((0 <? k + e)%Z && (k + e <=? 21)%Z) eqn:C2.
  { (* digits, point, digits *)
    apply andb_true_iff in C2. destruct C2 as [C2 C2']. apply Z.ltb_lt in C2.
    apply Z.leb_le in C2'. apply andb_false_iff in C1.
    assert (Hn : (k + e < k)%Z)
      by (destruct C1 as [C1|C1]; apply Z.leb_gt in C1; lia).
    destruct (Z.to_nat (k + e)) as [|j] eqn:J; [lia|].
    assert (Hj : (j < length ds')%nat) by lia.
    destruct (firstn_skipn_digits j ds' Fds') as [Fa Fb].
    assert (Nb : skipn j ds' <> []).
    { intros X. apply (f_equal (@length _)) in X.
      rewrite length_skipn in X. simpl in X. lia. }
    cbn [firstn skipn].
    do 2 eexists. split; [|split].
    - intros out rest. rewrite <- !app_assoc. cbn [app].
      rewrite (lex_first_digit neg d out _ Hd Hz).
      rewrite (lex_int_digits _ Fa).
      rewrite (lex_fraction NInt _ (or_introl eq_refl) Nb Fb).
      reflexivity.
    - reflexivity.
    - unfold numlit_value. cbn [nl_neg nl_int nl_frac nl_eneg nl_exp].
      rewrite !rev_app_distr, !rev_involutive. cbn [rev app].
      apply (number_value_normal _ _ _ _ _ (d :: ds') 0); try assumption.
      + simpl app at 1. rewrite firstn_skipn, app_nil_r.
        now apply strip_zeros_id.
      + rewrite signed_value_nil, length_skipn. lia. }
  destruct ((-6 <? k + e)%Z && (k + e <=? 0)%Z) eqn:C3.
  { (* zero, point, zeros and digits *)
    apply andb_true_iff in C3. destruct C3 as [_ C3]. apply Z.leb_le in C3.
    set (m := Z.to_nat (- (k + e))).
    assert (Ff : Forall (fun c => is_digit c = true) (zeros m ++ d :: ds'))
      by (apply Forall_app; split; [apply zeros_digits|assumption]).
    assert (Nf : zeros m ++ d :: ds' <> [])
      by (intros X; apply app_eq_nil in X; destruct X; discriminate).
    do 2 eexists. split; [|split].
    - intros out rest.
      change (48 :: 46 :: zeros m ++ d :: ds')
        with ([48] ++ 46 :: zeros m ++ d :: ds').
      rewrite <- !app_assoc. cbn [app].
      rewrite (lex_first_zero neg out).
      replace (zeros m ++ d :: ds' ++ rest)
        with ((zeros m ++ d :: ds') ++ rest)
        by (rewrite <- app_assoc; reflexivity).
      rewrite (lex_fraction NZero _ (or_intror eq_refl) Nf Ff).
      reflexivity.
    - reflexivity.
    - unfold numlit_value. cbn [nl_neg nl_int nl_frac nl_eneg nl_exp].
      rewrite !rev_involutive. cbn [rev app].
      apply (number_value_normal _ _ _ _ _ (d :: ds') 0); try assumption.
      + change ([48] ++ zeros m ++ d :: ds') with (zeros (S m) ++ d :: ds').
        rewrite strip_zeros_zeros, app_nil_r. now apply strip_zeros_id.
      + rewrite signed_value_nil, length_app. unfold zeros at 1.
        rewrite repeat_length. simpl length. unfold m. lia. }
  (* exponential notation *)
  destruct ds' as [|d2 ds''].
  - destruct (lex_exponent NInt (k + e - 1) (or_introl eq_refl))
      as (eneg & xs & V & R).
    do 2 eexists. split; [|split].
    + intros out rest. rewrite <- !app_assoc. cbn [app].
      rewrite (lex_first_digit neg d out _ Hd Hz).
      rewrite R. reflexivity.
    + reflexivity.
    + unfold numlit_value. cbn [nl_neg nl_int nl_frac nl_eneg nl_exp].
      rewrite !rev_involutive. cbn [rev app].
      apply (number_value_normal _ _ _ _ _ [d] 0); try assumption.
      * cbn [app]. now apply strip_zeros_id.
      * rewrite V. unfold k. simpl length. lia.
  - destruct (lex_exponent NFrac (k + e - 1) (or_intror eq_refl))
      as (eneg & xs & V & R).
    assert (Nf : d2 :: ds'' <> []) by discriminate.
    do 2 eexists. split; [|split].
    + intros out rest. rewrite <- !app_assoc. cbn [app].
      rewrite <- !app_assoc. cbn [app].
      rewrite (lex_first_digit neg d out _ Hd Hz).
      change (46 :: d2 :: ds'' ++ 101 :: exponent_text (k + e - 1) ++ rest)
        with (46 :: (d2 :: ds'') ++ 101 :: exponent_text (k + e - 1) ++ rest).
      rewrite (lex_fraction NInt _ (or_introl eq_refl) Nf Fds').
      rewrite R. reflexivity.
    + reflexivity.
    + unfold numlit_value. cbn [nl_neg nl_int nl_frac nl_eneg nl_exp].
      rewrite !rev_involutive. cbn [rev app].
      apply (number_value_normal _ _ _ _ _ (d :: d2 :: ds'') 0);
        try assumption.
      * rewrite app_nil_r. now apply strip_zeros_id.
      * rewrite V. unfold k. simpl length. lia.
Qed.

(** *** Values *)

Lemma json_induction (P : json -> Prop) :
  P JNull -> (forall b, P (JBool b)) -> (forall n, P (JNumber n)) ->
  (forall s, P (JString s)) ->
  (forall elems, Forall P elems -> P (JArray elems)) ->
  (forall props, Forall (fun p => P (snd p)) props -> P (JObject props)) ->
  forall v, P v.
Proof.
  intros HNull HBool HNumber HString HArray HObject.
  fix IH 1. intros [|b|n|s|elems|props].
  - exact HNull.
  - apply HBool.
  - apply HNumber.
  - apply HString.
  - apply HArray.
    refine ((fix all (l : list json) : Forall P l :=
               match l with
               | [] => Forall_nil P
               | x :: l' => Forall_cons x (IH x) (all l')
               end) elems).
  - apply HObject.
    refine ((fix all (l : list (jsstring * json))
               : Forall (fun p => P (snd p)) l :=
               match l with
               | [] => Forall_nil _
               | p :: l' => Forall_cons p (IH (snd p)) (all l')
               end) props).
Qed.

Lemma stringify_array (elems : list json) :
  stringify (JArray elems) = 91 :: element_text true elems.
Proof. reflexivity. Qed.

Lemma stringify_object (props : list (jsstring * json)) :
  stringify (JObject props) = 123 :: member_text true props.
Proof. reflexivity. Qed.

Lemma tokens_array (elems : list json) :
  tokens (JArray elems) = TLBracket :: element_tokens true elems.
Proof. reflexivity. Qed.

Lemma tokens_object (props : list (jsstring * json)) :
  tokens (JObject props) = TLBrace :: member_tokens true props.
Proof. reflexivity. Qed.

Lemma lex_from_cons st c s :
  lex_from st (c :: s)
  = match lex_step st c with Some st' => lex_from st' s | None => None end.
Proof. unfold lex_from. simpl. destruct (lex_step st c); reflexivity. Qed.

(** A number ends where the value ends. *)
Lemma lex_number_end ph l out rest :
  num_final ph = true -> ends_value rest ->
  lex_from (LNumber ph l, out) rest
  = lex_from (LStart, TNumber (numlit_value l) :: out) rest.
Proof.
  intros F E. destruct rest as [|d rest].
  - unfold lex_from. simpl. rewrite F. reflexivity.
  - rewrite !lex_from_cons. unfold lex_step.
    replace (num_step ph l d) with (@None (numphase * numlit)).
    + rewrite F. reflexivity.
    + simpl in E. destruct E as [->|[->| ->]]; destruct ph; reflexivity.
Qed.

Lemma element_text_ends l rest : ends_value (element_text false l ++ rest).
Proof. destruct l; simpl; auto. Qed.

Lemma member_text_ends l rest : ends_value (member_text false l ++ rest).
Proof. destruct l as [|[k x] l]; simpl; auto. Qed.

(** The lexer reads the text of a value as the tokens of the value. *)
Lemma lex_value (v : json) :
  wf v -> forall out rest, ends_value rest ->
  lex_from (LStart, out) (stringify v ++ rest)
  = lex_from (LStart, rev (tokens v) ++ out) rest.
Proof.
  induction v as [|b|n|s|elems IH|props IH] using json_induction;
    intros W out rest E.
  - reflexivity.
  - destruct b; reflexivity.
  - inversion W as [| |? Wn| | |]; subst.
    destruct n as [|neg ds e|neg|]; [| |reflexivity|].
    + destruct (lex_number NumZero Wn) as (ph & l & R & F & V);
        try discriminate.
      change (stringify (JNumber NumZero)) with (number_to_string NumZero).
      unfold lex_from at 1. rewrite R. fold (lex_from (LNumber ph l, out) rest).
      rewrite (lex_number_end _ _ _ _ F E), V. reflexivity.
    + destruct (lex_number (NumFinite neg ds e) Wn) as (ph & l & R & F & V);
        try discriminate.
      change (stringify (JNumber (NumFinite neg ds e)))
        with (number_to_string (NumFinite neg ds e)).
      unfold lex_from at 1. rewrite R. fold (lex_from (LNumber ph l, out) rest).
      rewrite (lex_number_end _ _ _ _ F E), V. reflexivity.
    + destruct (lex_number NumZero I) as (ph & l & R & F & V);
        try discriminate.
      change (stringify (JNumber NumNegZero)) with (number_to_string NumZero).
      unfold lex_from at 1. rewrite R. fold (lex_from (LNumber ph l, out) rest).
      rewrite (lex_number_end _ _ _ _ F E), V. reflexivity.
  - unfold lex_from. simpl stringify. rewrite lex_quote. reflexivity.
  - inversion W as [| | | |? We|]; subst.
    rewrite stringify_array, tokens_array. cbn [app].
    rewrite lex_from_cons.
    change (lex_step (LStart, out) 91) with (Some (LStart, TLBracket :: out)).
    cbn iota. cbn [rev]. rewrite <- app_assoc. cbn [app].
    generalize (TLBracket :: out). generalize true. clear out W.
    induction elems as [|x l IHl]; intros first out.
    + reflexivity.
    + inversion IH as [|? ? IHx IHr]; inversion We as [|? ? Wx Wr]; subst.
      cbn [element_text element_tokens].
      rewrite !rev_app_distr, <- !app_assoc.
      destruct first; cbn [app rev].
      * rewrite (IHx Wx _ _ (element_text_ends l rest)).
        rewrite (IHl IHr Wr). reflexivity.
      * rewrite lex_from_cons.
        change (lex_step (LStart, out) 44) with (Some (LStart, TComma :: out)).
        cbn iota.
        rewrite (IHx Wx _ _ (element_text_ends l rest)).
        rewrite (IHl IHr Wr). reflexivity.
  - inversion W as [| | | | |? Wk Wp]; subst.
    rewrite stringify_object, tokens_object. cbn [app].
    rewrite lex_from_cons.
    change (lex_step (LStart, out) 123) with (Some (LStart, TLBrace :: out)).
    cbn iota. cbn [rev]. rewrite <- app_assoc. cbn [app].
    generalize (TLBrace :: out). generalize true. clear out Wk W.
    induction props as [|[k x] l IHl]; intros first out.
    + reflexivity.
    + inversion IH as [|? ? IHx IHr]; inversion Wp as [|? ? Wx Wr]; subst.
      simpl in IHx, Wx.
      cbn [member_text member_tokens].
      rewrite !rev_app_distr, <- !app_assoc. cbn [rev].
      rewrite !rev_app_distr, <- !app_assoc. cbn [rev app].
      assert (Member : forall out,
        lex_from (LStart, out)
          (quote k ++ 58 :: stringify x ++ member_text false l ++ rest)
        = lex_from (LStart,
                    rev (member_tokens false l) ++ rev (tokens x)
                    ++ TColon :: TString k :: out) rest).
      { intros out'. unfold lex_from at 1. rewrite lex_quote.
        cbn [lex_run].
        change (lex_step (LStart, TString k :: out') 58)
          with (Some (LStart, TColon :: TString k :: out')).
        cbn iota.
        fold (lex_from (LStart, TColon :: TString k :: out')
                (stringify x ++ member_text false l ++ rest)).
        rewrite (IHx Wx _ _ (member_text_ends l rest)).
        rewrite (IHl IHr Wr). reflexivity. }
      destruct first; cbn [app rev]; rewrite <- ?app_assoc.
      * rewrite Member. reflexivity.
      * rewrite lex_from_cons.
        change (lex_step (LStart, out) 44) with (Some (LStart, TComma :: out)).
        cbn iota. rewrite Member. reflexivity.
Qed.

(** The parser builds the value from its tokens. *)

Lemma parse_run_app (a b : list token) : forall st,
  parse_run st (a ++ b)
  = match parse_run st a with Some st' => parse_run st' b | None => None end.
Proof.
  induction a as [|t a IH]; intros st; simpl; [reflexivity|].
  destruct (parse_step st t); [apply IH|reflexivity].
Qed.

Lemma has_prop_false k (props : list (jsstring * json)) :
  ~ In k (map fst props) -> has_prop k props = false.
Proof.
  induction props as [|[k' x] props IH]; simpl; [reflexivity|]. intros H.
  destruct (list_eq_dec N.eq_dec k k'); [subst; tauto|]. apply IH. tauto.
Qed.

Lemma plain_array (elems : list json) :
  plain (JArray elems) = true -> Forall (fun x => plain x = true) elems.
Proof.
  simpl. induction elems as [|x l IH]; intros H; constructor;
    apply andb_true_iff in H; destruct H; auto.
Qed.

Lemma plain_object (props : list (jsstring * json)) :
  plain (JObject props) = true ->
  Forall (fun p => plain (snd p) = true) props.
Proof.
  simpl. induction props as [|[k x] l IH]; intros H; constructor;
    apply andb_true_iff in H; destruct H; auto.
Qed.

Lemma parse_scalar (t : token) (v : json) stack ts :
  wants_value stack = true ->
  parse_step (Parsing stack) t = complete stack v ->
  parse_run (Parsing stack) (t :: ts) = then_run (complete stack v) ts.
Proof. intros _ H. cbn [parse_run]. rewrite H. reflexivity. Qed.

Lemma parse_value (v : json) :
  wf v -> plain v = true -> forall stack ts,
  wants_value stack = true ->
  parse_run (Parsing stack) (tokens v ++ ts) = then_run (complete stack v) ts.
Proof.
  induction v as [|b|n|s|elems IH|props IH] using json_induction;
    intros W Fin stack ts Wants.
  - apply parse_scalar; [assumption|]. simpl. now rewrite Wants.
  - destruct b; (apply parse_scalar; [assumption|]); simpl; now rewrite Wants.
  - destruct n as [|neg ds e|neg|]; [| |discriminate|discriminate];
      (apply parse_scalar; [assumption|]); simpl; now rewrite Wants.
  - apply parse_scalar; [assumption|].
    destruct stack as [|[] stack]; try discriminate; reflexivity.
  - inversion W as [| | | |? We|]; subst. apply plain_array in Fin.
    rewrite tokens_array. cbn [app parse_run].
    unfold parse_step at 1. rewrite Wants.
    destruct elems as [|x l]; [reflexivity|].
    inversion IH as [|? ? IHx IHr]; inversion We as [|? ? Wx Wr];
      inversion Fin as [|? ? Fx Fr]; subst.
    cbn [element_tokens app]. rewrite <- app_assoc.
    rewrite (IHx Wx Fx (ArrOpen :: stack) _ eq_refl).
    cbn [complete then_run].
    change (JArray (x :: l)) with (JArray (rev [x] ++ l)).
    generalize [x] as acc.
    clear IHx Wx Fx W We IH Fin.
    induction l as [|y l IHl]; intros acc.
    + cbn [element_tokens app parse_run parse_step].
      rewrite app_nil_r. destruct (complete stack (JArray (rev acc))); reflexivity.
    + inversion IHr as [|? ? IHy IHr']; inversion Wr as [|? ? Wy Wr'];
        inversion Fr as [|? ? Fy Fr']; subst.
      cbn [element_tokens app parse_run parse_step]. rewrite <- app_assoc.
      rewrite (IHy Wy Fy (ArrNext acc :: stack) _ eq_refl).
      cbn [complete then_run]. rewrite (IHl IHr' Wr' Fr' (y :: acc)).
      cbn [rev]. rewrite <- app_assoc. reflexivity.
  - inversion W as [| | | | |? Wk Wp]; subst. apply plain_object in Fin.
    rewrite tokens_object. cbn [app parse_run].
    unfold parse_step at 1. rewrite Wants.
    destruct props as [|[k x] l]; [reflexivity|].
    inversion IH as [|? ? IHx IHr]; inversion Wp as [|? ? Wx Wr];
      inversion Fin as [|? ? Fx Fr]; subst.
    simpl in IHx, Wx, Fx.
    cbn [member_tokens app parse_run parse_step].
    rewrite <- app_assoc.
    rewrite (IHx Wx Fx (ObjColon [] k :: stack) _ eq_refl).
    cbn [complete then_run].
    change (set_prop k x []) with [(k, x)].
    change ((k, x) :: l) with ([(k, x)] ++ l) in Wk |- *.
    generalize dependent [(k, x)]. intros acc Wk.
    clear IHx Wx Fx W Wp IH Fin.
    revert acc Wk. induction l as [|[k' y] l IHl]; intros acc Wk.
    + cbn [member_tokens app parse_run parse_step].
      rewrite app_nil_r. destruct (complete stack (JObject acc)); reflexivity.
    + inversion IHr as [|? ? IHy IHr']; inversion Wr as [|? ? Wy Wr'];
        inversion Fr as [|? ? Fy Fr']; subst.
      simpl in IHy, Wy, Fy.
      cbn [member_tokens app parse_run parse_step]. rewrite <- app_assoc.
      rewrite (IHy Wy Fy (ObjColon acc k' :: stack) _ eq_refl).
      cbn [complete then_run].
      assert (New : has_prop k' acc = false).
      { apply has_prop_false. destruct Wk as [Wk _]. rewrite map_app in Wk.
        apply NoDup_remove_2 in Wk. intros I. apply Wk.
        apply in_or_app. left. assumption. }
      assert (Last : set_prop k' y acc = acc ++ [(k', y)]).
      { unfold set_prop. rewrite New. apply add_prop_in_order.
        destruct Wk as [_ Wk]. rewrite map_app in Wk. cbn [map fst] in Wk.
        change (k' :: map fst l) with ([k'] ++ map fst l) in Wk.
        rewrite app_assoc in Wk. now apply StronglySorted_prefix in Wk. }
      rewrite Last.
      rewrite (IHl IHr' Wr' Fr' (acc ++ [(k', y)])).
      * rewrite <- app_assoc. reflexivity.
      * rewrite <- app_assoc. exact Wk.
Qed.

Lemma lex_stringify (v : json) : wf v -> lex (stringify v) = Some (tokens v).
Proof.
  intros W. pose proof (lex_value v W [] [] I) as L.
  rewrite !app_nil_r in L.
  change (lex (stringify v)) with (lex_from (LStart, []) (stringify v)).
  rewrite L. unfold lex_from. cbn [lex_run lex_end].
  rewrite rev_involutive. reflexivity.
Qed.

(** [JSON.parse (JSON.stringify v) = v] for the values that [JSON.parse]
    builds, when none of their numbers is infinite or the negative zero. *)
Lemma parse_stringify (v : json) :
  wf v -> plain v = true -> parse (stringify v) = Some v.
Proof.
  intros W F. unfold parse. rewrite (lex_stringify v W). unfold parse_tokens.
  pose proof (parse_value v W F [] [] eq_refl) as P.
  rewrite app_nil_r in P. rewrite P. reflexivity.
Qed.

(** *** What [JSON.parse] builds is well formed *)

Lemma strip_zeros_Forall (P : char16 -> Prop) x :
  Forall P x -> Forall P (strip_zeros x).
Proof.
  intros F. destruct (strip_zeros_split x) as [t E]. rewrite E in F.
  apply Forall_app in F. tauto.
Qed.

Lemma normal_facts (ds : list char16) (e : Z) :
  Forall (fun c => is_digit c = true) ds ->
  Forall (fun c => is_digit c = true) (fst (normal ds e))
  /\ hd_error (fst (normal ds e)) <> Some 48
  /\ hd_error (rev (fst (normal ds e))) <> Some 48.
Proof.
  intros F. unfold normal. cbn [fst].
  set (d := strip_zeros ds).
  assert (Fd : Forall (fun c => is_digit c = true) d)
    by now apply strip_zeros_Forall.
  assert (Hd : hd_error d <> Some 48) by apply strip_zeros_head.
  destruct (strip_zeros_split (rev d)) as [t E].
  set (coef := rev (strip_zeros (rev d))) in *.
  assert (S : d = coef ++ zeros t).
  { unfold coef. rewrite <- (rev_involutive d), E at 1.
    rewrite rev_app_distr, rev_zeros. reflexivity. }
  assert (R : rev coef = strip_zeros (rev d))
    by (unfold coef; apply rev_involutive).
  clearbody coef. repeat split.
  - rewrite S in Fd. apply Forall_app in Fd. tauto.
  - destruct coef as [|c coef]; [discriminate|].
    rewrite S in Hd. exact Hd.
  - rewrite R. apply strip_zeros_head.
Qed.

Lemma digits_of_digits (z : Z) :
  Forall (fun c => is_digit c = true) (digits_of z).
Proof.
  unfold digits_of. apply strip_zeros_Forall.
  destruct (Z.to_int z); apply digits_of_uint_digits.
Qed.

Lemma rounded_eqb_eq (a b : rounded) : rounded_eqb a b = true -> a = b.
Proof.
  destruct a, b; simpl; try discriminate; try reflexivity.
  intros H. apply andb_true_iff in H. destruct H as [H1 H2].
  apply Z.eqb_eq in H1, H2. congruence.
Qed.

Lemma first_some_sound {A B : Type} (f : A -> option B) (l : list A) b :
  first_some f l = Some b -> exists a, In a l /\ f a = Some b.
Proof.
  induction l as [|a l IH]; simpl; [discriminate|].
  destruct (f a) as [b'|] eqn:E.
  - intros H. injection H as <-. exists a. auto.
  - intros H. destruct (IH H) as (a' & I & E'). exists a'. auto.
Qed.

(** A decimal that [shortest] gives reads back as the double. *)
Lemma shortest_sound (m p : Z) ds e :
  shortest m p = Some (ds, e) ->
  round_double (digits_value ds) e = RFinite m p
  /\ Forall (fun c => is_digit c = true) ds
  /\ hd_error ds <> Some 48 /\ hd_error (rev ds) <> Some 48.
Proof.
  unfold shortest. intros H.
  apply first_some_sound in H. destruct H as (k & _ & H).
  apply first_some_sound in H. destruct H as (c & _ & H).
  unfold accept in H.
  pose proof (normal_facts (digits_of (fst c)) (snd c)
                (digits_of_digits (fst c))) as (F & H1 & H2).
  destruct (normal (digits_of (fst c)) (snd c)) as [ds' e'].
  cbn [fst] in F, H1, H2.
  destruct (rounded_eqb (round_double (digits_value ds') e') (RFinite m p))
    eqn:R; [|discriminate].
  injection H as <- <-. apply rounded_eqb_eq in R. auto.
Qed.

Lemma round_double_nil (e : Z) : round_double (digits_value []) e = RZero.
Proof. reflexivity. Qed.

(** The number of a literal is kept in the form of the values. *)
Lemma canonical_wf (neg : bool) (coef : list char16) (e : Z) :
  Forall (fun c => is_digit c = true) coef ->
  hd_error coef <> Some 48 -> hd_error (rev coef) <> Some 48 ->
  wf_number (canonical neg coef e).
Proof.
  intros F H1 H2. unfold canonical.
  destruct (round_double (digits_value coef) e) as [|m p|] eqn:R;
    [destruct neg; exact I| |exact I].
  destruct (shortest m p) as [[ds e']|] eqn:S.
  - destruct (shortest_sound _ _ _ _ S) as (R' & F' & H1' & H2').
    simpl. repeat split; try assumption.
    + intros ->. rewrite round_double_nil in R'. discriminate.
    + unfold canonical. rewrite R', S. reflexivity.
  - simpl. repeat split; try assumption.
    + intros ->. rewrite round_double_nil in R. discriminate.
    + unfold canonical. rewrite R, S. reflexivity.
Qed.

Lemma number_value_wf neg int frac eneg exp :
  Forall (fun c => is_digit c = true) int ->
  Forall (fun c => is_digit c = true) frac ->
  wf_number (number_value neg int frac eneg exp).
Proof.
  intros Fi Ff. unfold number_value.
  pose proof (normal_facts (int ++ frac)
                (signed_value eneg exp - Z.of_nat (length frac))
                (proj2 (Forall_app _ _ _) (conj Fi Ff))) as (F & H1 & H2).
  destruct (normal (int ++ frac) _) as [coef e]. cbn [fst] in F, H1, H2.
  now apply canonical_wf.
Qed.

Lemma numlit_value_wf (l : numlit) : digits_only l -> wf_number (numlit_value l).
Proof.
  intros (Fi & Ff & _). apply number_value_wf; now apply Forall_rev.
Qed.

Lemma lex_start_wf out c st :
  Forall wf_token out -> lex_start out c = Some st -> wf_lexstate st.
Proof.
  intros F. unfold lex_start, wf_lexstate, digits_only.
  repeat match goal with
         | |- context [if ?b then _ else _] => destruct b eqn:?
         end;
    intros H; inversion H; subst; simpl; repeat split;
    repeat constructor; auto.
  bool_to_prop. subst c. reflexivity.
Qed.

Lemma num_step_wf ph l c ph' l' :
  digits_only l -> num_step ph l c = Some (ph', l') -> digits_only l'.
Proof.
  intros (Fi & Ff & Fe). unfold digits_only.
  assert (Z : (c =? 48) = true -> is_digit c = true)
    by (intros E; apply N.eqb_eq in E; subst; reflexivity).
  destruct ph; simpl;
    repeat match goal with
           | |- context [if ?b then _ else _] => destruct b eqn:?
           end;
    intros H; inversion H; subst; simpl; repeat split;
    repeat constructor; auto.
Qed.

Lemma lex_step_wf st c st' :
  wf_lexstate st -> lex_step st c = Some st' -> wf_lexstate st'.
Proof.
  destruct st as [mode out]. intros [Fo Fm]. simpl in Fo, Fm.
  destruct mode; simpl.
  - now apply lex_start_wf.
  - repeat match goal with
           | |- context [if ?b then _ else _] => destruct b eqn:?
           end;
      intros H; inversion H; subst; split; simpl; auto.
  - repeat match goal with
           | |- context [if ?b then _ else _] => destruct b eqn:?
           end;
      intros H; inversion H; subst; split; simpl; auto.
  - destruct (hex_value c); [|discriminate].
    destruct todo as [|[|todo]]; intros H; inversion H; subst;
      split; simpl; auto.
  - destruct expect as [|e expect]; [discriminate|].
    destruct (c =? e); [|discriminate].
    destruct expect; intros H; inversion H; subst; split; simpl; auto.
  - destruct (num_step ph l c) as [[ph' l']|] eqn:S.
    + intros H; inversion H; subst. split; simpl; auto.
      eapply num_step_wf; eassumption.
    + destruct (num_final ph); [|discriminate].
      apply lex_start_wf. constructor; [|assumption].
      now apply numlit_value_wf.
Qed.

Lemma lex_run_wf (s : jsstring) : forall st st',
  wf_lexstate st -> lex_run st s = Some st' -> wf_lexstate st'.
Proof.
  induction s as [|c s IH]; intros st st' W; simpl.
  - intros H. injection H as <-. assumption.
  - destruct (lex_step st c) as [st1|] eqn:S; [|discriminate].
    apply IH. eapply lex_step_wf; eassumption.
Qed.

Lemma lex_wf (s : jsstring) ts : lex s = Some ts -> Forall wf_token ts.
Proof.
  unfold lex. destruct (lex_run (LStart, []) s) as [[mode out]|] eqn:R;
    [|discriminate].
  assert (W : wf_lexstate (mode, out)).
  { eapply lex_run_wf; [|eassumption]. split; simpl; auto. }
  destruct W as [Fo Fm]. simpl in Fo, Fm. unfold lex_end.
  destruct mode; try discriminate.
  - intros H. injection H as <-. now apply Forall_rev.
  - destruct (num_final ph); [|discriminate].
    intros H. injection H as <-. apply Forall_app. split.
    + now apply Forall_rev.
    + constructor; [|constructor]. now apply numlit_value_wf.
Qed.

Lemma set_prop_wf k v (acc : list (jsstring * json)) :
  ordered_keys (map fst acc) -> Forall (fun p => wf (snd p)) acc -> wf v ->
  ordered_keys (map fst (set_prop k v acc))
  /\ Forall (fun p => wf (snd p)) (set_prop k v acc).
Proof.
  intros N F W. split; [now apply set_prop_ordered|].
  unfold set_prop. destruct (has_prop k acc).
  - clear N. induction F as [|[k' x] acc Hx Hacc IH]; simpl.
    + constructor.
    + destruct (list_eq_dec N.eq_dec k k'); constructor; auto.
  - clear N. induction F as [|[k' x] acc Hx Hacc IH]; simpl.
    + repeat constructor. assumption.
    + destruct (key_before k k'); repeat constructor; auto.
Qed.

Lemma complete_wf stack v st :
  Forall wf_frame stack -> wf v -> complete stack v = Some st -> wf_pstate st.
Proof.
  intros F W. unfold complete.
  destruct stack as [|[] stack]; try discriminate;
    intros H; injection H as <-; simpl;
    try assumption; inversion F as [|? ? Hf Hs]; subst; simpl in Hf;
    constructor; simpl; auto.
  destruct Hf as [N Fa]. now apply set_prop_wf.
Qed.

Lemma parse_step_wf st t st' :
  wf_pstate st -> wf_token t -> parse_step st t = Some st' -> wf_pstate st'.
Proof.
  destruct st as [stack|v]; [|discriminate]. simpl. intros F Wt.
  assert (Scalar : forall v, wf v ->
    (if wants_value stack then complete stack v else None) = Some st' ->
    wf_pstate st').
  { intros v Wv. destruct (wants_value stack); [|discriminate].
    now apply complete_wf. }
  destruct t; try (apply Scalar; constructor; assumption).
  - destruct (wants_value stack); [|discriminate].
    intros H; injection H as <-. simpl. constructor; simpl; auto.
  - destruct stack as [|[] stack]; try discriminate;
      inversion F as [|? ? Hf Hs]; subst; simpl in Hf;
      apply complete_wf; try assumption.
    + constructor; [split; constructor|constructor].
    + destruct Hf. now constructor.
  - destruct (wants_value stack); [|discriminate].
    intros H; injection H as <-. simpl. constructor; simpl; auto.
  - destruct stack as [|[] stack]; try discriminate;
      inversion F as [|? ? Hf Hs]; subst; simpl in Hf;
      apply complete_wf; try assumption.
    + constructor. constructor.
    + constructor. now apply Forall_rev.
  - destruct stack as [|[] stack]; try discriminate;
      inversion F as [|? ? Hf Hs]; subst; simpl in Hf;
      intros H; injection H as <-; simpl; constructor; simpl; auto.
  - destruct stack as [|[] stack]; try discriminate;
      inversion F as [|? ? Hf Hs]; subst; simpl in Hf;
      intros H; injection H as <-; simpl; constructor; simpl; auto.
  - destruct stack as [|[] stack];
      try (apply Scalar; constructor);
      inversion F as [|? ? Hf Hs]; subst; simpl in Hf;
      intros H; injection H as <-; simpl; constructor; simpl; auto.
    split; [split; constructor|constructor].
Qed.

Lemma parse_run_wf (ts : list token) : forall st st',
  wf_pstate st -> Forall wf_token ts -> parse_run st ts = Some st' ->
  wf_pstate st'.
Proof.
  induction ts as [|t ts IH]; intros st st' W F; simpl.
  - intros H. injection H as <-. assumption.
  - inversion F; subst.
    destruct (parse_step st t) as [st1|] eqn:S; [|discriminate].
    apply IH; [|assumption]. eapply parse_step_wf; eassumption.
Qed.

Lemma parse_wf (text : jsstring) (v : json) : parse text = Some v -> wf v.
Proof.
  unfold parse. destruct (lex text) as [ts|] eqn:L; [|discriminate].
  apply lex_wf in L. unfold parse_tokens.
  destruct (parse_run (Parsing []) ts) as [[stack|v']|] eqn:R;
    try discriminate.
  intros H. injection H as <-.
  apply (parse_run_wf ts (Parsing []) (Finished v')); auto. constructor.
Qed.

(** *** The text of a value neither starts nor ends with white space *)

Lemma digit_not_space (c : char16) : is_digit c = true -> is_space c = false.
Proof.
  intros H. destruct (is_space c) eqn:S; [|reflexivity]. exfalso.
  unfold is_digit, is_space, in_range in *. bool_to_prop. lia.
Qed.

Lemma digits_not_space (ds : list char16) :
  Forall (fun c => is_digit c = true) ds ->
  Forall (fun c => is_space c = false) ds.
Proof. apply Forall_impl. exact digit_not_space. Qed.

Lemma number_text_not_space (n : jsnumber) :
  wf_number n -> Forall (fun c => is_space c = false) (number_to_string n).
Proof.
  destruct n as [|neg ds e|neg|].
  - intros _. repeat constructor.
  - intros (N & F & _). unfold number_to_string, digits_to_string.
    apply Forall_app. split; [destruct neg; repeat constructor|].
    pose proof (digits_not_space ds F) as S.
    pose proof (fun t => digits_not_space _ (zeros_digits t)) as Z.
    assert (X : forall z, Forall (fun c => is_space c = false)
                            (exponent_text z)).
    { intros z. unfold exponent_text.
      destruct (Z.to_int z); constructor; try reflexivity;
        apply digits_not_space, digits_of_uint_digits. }
    repeat match goal with
           | |- context [if ?b then _ else _] => destruct b
           end.
    + apply Forall_app. auto.
    + rewrite <- (firstn_skipn (Z.to_nat (Z.of_nat (length ds) + e)) ds) in S.
      apply Forall_app in S. destruct S.
      apply Forall_app. split; [assumption|]. constructor; auto.
    + repeat (constructor; [reflexivity|]). apply Forall_app. auto.
    + destruct ds as [|d [|d2 ds]]; [constructor|..];
        inversion S as [|? ? Sd Sr]; subst.
      * repeat (constructor; [assumption || reflexivity|]). apply X.
      * constructor; [assumption|]. constructor; [reflexivity|].
        apply Forall_app. split; [assumption|].
        constructor; [reflexivity|]. apply X.
  - intros _. destruct neg; repeat constructor.
  - intros _. repeat constructor.
Qed.

Lemma outer_of_Forall (s : jsstring) :
  Forall (fun c => is_space c = false) s ->
  (forall c t, s = c :: t -> is_space c = false)
  /\ (forall c t, s = t ++ [c] -> is_space c = false).
Proof.
  intros F. split; intros c t E; subst s.
  - now inversion F.
  - apply Forall_app in F. destruct F as [_ F]. now inversion F.
Qed.

Lemma outer_of_ends (a z : char16) (t : jsstring) :
  is_space a = false -> is_space z = false ->
  (forall c t', a :: t ++ [z] = c :: t' -> is_space c = false)
  /\ (forall c t', a :: t ++ [z] = t' ++ [c] -> is_space c = false).
Proof.
  intros A Z. split; intros c t' E.
  - injection E as <- _. assumption.
  - change (a :: t ++ [z]) with ((a :: t) ++ [z]) in E.
    apply app_inj_tail in E. destruct E as [_ <-]. assumption.
Qed.

Lemma element_text_last first l : exists t, element_text first l = t ++ [93].
Proof.
  revert first. induction l as [|x l IH]; intros first; simpl.
  - exists []. reflexivity.
  - destruct (IH false) as [t E]. rewrite E.
    exists ((if first then [] else [44]) ++ stringify x ++ t).
    now rewrite <- !app_assoc.
Qed.

Lemma member_text_last first l : exists t, member_text first l = t ++ [125].
Proof.
  revert first. induction l as [|[k x] l IH]; intros first; simpl.
  - exists []. reflexivity.
  - destruct (IH false) as [t E]. rewrite E.
    exists ((if first then [] else [44]) ++ quote k ++ 58 :: stringify x ++ t).
    rewrite <- !app_assoc. simpl. now rewrite <- !app_assoc.
Qed.

Lemma stringify_outer (v : json) :
  wf v ->
  (forall c t, stringify v = c :: t -> is_space c = false)
  /\ (forall c t, stringify v = t ++ [c] -> is_space c = false).
Proof.
  intros W. destruct v as [|b|n|s|elems|props].
  - apply outer_of_Forall. repeat constructor.
  - apply outer_of_Forall. destruct b; repeat constructor.
  - inversion W as [| |? Wn| | |]; subst. apply outer_of_Forall.
    destruct n as [| |neg|]; try now apply number_text_not_space.
    repeat constructor.
  - apply (outer_of_ends 34 34); reflexivity.
  - rewrite stringify_array. destruct (element_text_last true elems) as [t ->].
    apply (outer_of_ends 91 93); reflexivity.
  - rewrite stringify_object. destruct (member_text_last true props) as [t ->].
    apply (outer_of_ends 123 125); reflexivity.
Qed.

Lemma trim_stringify (v : json) : wf v -> trim (stringify v) = stringify v.
Proof. intros W. destruct (stringify_outer v W). now apply trim_id. Qed.

End JSONFacts.

(** ** Re-extraction *)

Lemma starts_with_prefix (p q s : jsstring) :
  starts_with p s = None -> starts_with (p ++ q) s = None.
Proof.
  revert s. induction p as [|c p IH]; intros s; simpl; [discriminate|].
  destruct s as [|d s]; [reflexivity|].
  destruct (c =? d); [apply IH|reflexivity].
Qed.

Lemma contains_none (pat s : jsstring) :
  contains pat s = false ->
  forall a b, s = a ++ b -> starts_with pat b = None.
Proof.
  intros H a. revert s H. induction a as [|c a IH]; intros s H b E; subst s.
  - simpl app in H. destruct b; simpl in H;
      destruct (starts_with pat _); congruence.
  - simpl in H. destruct (starts_with pat (c :: a ++ b)); [discriminate|].
    now apply (IH (a ++ b)).
Qed.

Lemma match_fence_none (lit : jsstring) prev s :
  starts_with lit s = None -> match_fence lit prev s = None.
Proof. unfold match_fence. now intros ->. Qed.

(** A text without a code fence is cleaned by the trim alone. *)
Lemma cleanContent_no_fence (text : jsstring) :
  contains fence text = false -> cleanContent text = trim text.
Proof.
  intros H. unfold cleanContent.
  rewrite (replace_scan_none (match_fence fence_json) text).
  - rewrite (replace_scan_none (match_fence fence) text); [reflexivity|].
    intros prev a b E _. left. apply match_fence_none.
    now apply (contains_none fence text H a).
  - intros prev a b E _. left. apply match_fence_none.
    change fence_json with (fence ++ js "json").
    apply starts_with_prefix. now apply (contains_none fence text H a).
Qed.

Lemma extracted_wf (content : jsstring) (v : json) :
  extractStructured content = Extracted v -> wf v.
Proof.
  unfold extractStructured, fallback.
  destruct (JSON.parse (cleanContent content)) as [v1|] eqn:P1.
  - intros H. injection H as <-. now apply (JSONFacts.parse_wf _ _ P1).
  - destruct (match_braces content) as [m|]; [|discriminate].
    destruct (JSON.parse m) as [v2|] eqn:P2; [|discriminate].
    intros H. injection H as <-. now apply (JSONFacts.parse_wf _ _ P2).
Qed.

(** C3, as amended: a value that the extraction gives, whose numbers are
    all finite and none of them the negative zero, and whose JSON text
    holds no run of three backticks, is given again by the extraction of
    its JSON text. *)
Theorem reextraction_identity (content : jsstring) (v : json) :
  extractStructured content = Extracted v ->
  plain v = true ->
  contains fence (JSON.stringify v) = false ->
  extractStructured (JSON.stringify v) = Extracted v.
Proof.
  intros E F C. apply extracted_wf in E. unfold extractStructured.
  rewrite (cleanContent_no_fence _ C), (JSONFacts.trim_stringify v E).
  rewrite (JSONFacts.parse_stringify v E F). reflexivity.
Qed.

Lemma reextraction_identity_witness :
  let o := JObject [(js "7", JNumber (NumFinite false (js "1") (-1)));
                    (js "a", JNumber (NumFinite false (js "1") 0));
                    (js "b", JArray [JNumber (NumFinite false (js "15") (-1));
                                     JNumber NumZero;
                                     JString (js "x`y")])] in
  JSON.stringify o = jsq "{'7':0.1,'a':1,'b':[1.5,0,'x`y']}"
  /\ extractStructured (JSON.stringify o) = Extracted o.
Proof.
  split; [vm_compute; reflexivity|].
  apply (reextraction_identity
           (jsq "Sure: {'a': 1, 'b': [15e-1, 0.0, 'x`y'], '7': 0.1000000000000000055511151231257827}"));
    vm_compute; reflexivity.
Defined.

(** C3 as stated fails.  An object with the string of three backticks
    comes out of the first attempt (the reply writes the backticks as
    escapes); its JSON text holds the backticks themselves, which the
    fence stripping removes: the second extraction gives the empty string.
    An object with an infinite number (a literal beyond the doubles) is
    written with [null] in place of the number, and one with the negative
    zero is written with [0], which reads back as the zero. *)
Lemma reextraction_changes_value :
  (let content := jsq "{'a':'\u0060\u0060\u0060'}" in
   let o := JObject [(js "a", JString (js "```"))] in
   extractStructured content = Extracted o
   /\ JSON.stringify o = jsq "{'a':'```'}"
   /\ extractStructured (JSON.stringify o)
      = Extracted (JObject [(js "a", JString [])])
   /\ extractStructured (JSON.stringify o) <> Extracted o)
  /\
  (let content := jsq "{'a':1e999}" in
   let o := JObject [(js "a", JNumber (NumInfinity false))] in
   extractStructured content = Extracted o
   /\ JSON.stringify o = jsq "{'a':null}"
   /\ extractStructured (JSON.stringify o)
      = Extracted (JObject [(js "a", JNull)])
   /\ extractStructured (JSON.stringify o) <> Extracted o)
  /\
  (let content := jsq "{'a':-0}" in
   let o := JObject [(js "a", JNumber NumNegZero)] in
   extractStructured content = Extracted o
   /\ JSON.stringify o = jsq "{'a':0}"
   /\ extractStructured (JSON.stringify o)
      = Extracted (JObject [(js "a", JNumber NumZero)])
   /\ extractStructured (JSON.stringify o) <> Extracted o).
Proof.
  split; [|split]; vm_compute; repeat split; try reflexivity; discriminate.
Qed.

(** ** Examples *)

Example sanitize_example :
  sanitizeInput (Some (JString (js "hello <script> ignore this"))) 200
  = js "hello script  this".
Proof. vm_compute. reflexivity. Qed.

Example sanitize_case :
  sanitizeInput (Some (JString (js "  IGNORE all, Forget-it; ignored `x` "))) 200
  = js "all, -it; ignored x".
Proof. vm_compute. reflexivity. Qed.

Example sanitize_not_a_string :
  sanitizeInput (Some JNull) 200 = []
  /\ sanitizeInput (Some (JNumber (NumFinite false (js "42") 0))) 200 = []
  /\ sanitizeInput None 200 = [].
Proof. repeat split. Qed.

Example parse_object :
  JSON.parse (jsq " { 'a' : -12.50e+3 , 'b' : [true, null, 'A\n'] } ")
  = Some (JObject [(js "a", JNumber (NumFinite true (js "125") 2));
                   (js "b", JArray [JBool true; JNull; JString [65; 10]])]).
Proof. vm_compute. reflexivity. Qed.

Example parse_escapes :
  JSON.parse ([34] ++ js "\u0041\n\/\ud83d\ude00\\" ++ [233; 8232; 34])
  = Some (JString [65; 10; 47; 55357; 56832; 92; 233; 8232]).
Proof. vm_compute. reflexivity. Qed.

Example parse_duplicate_key :
  JSON.parse (jsq "{'a':1,'b':2,'a':3}")
  = Some (JObject [(js "a", JNumber (NumFinite false (js "3") 0));
                   (js "b", JNumber (NumFinite false (js "2") 0))]).
Proof. vm_compute. reflexivity. Qed.

Example parse_rejects :
  JSON.parse (jsq "[1,]") = None /\ JSON.parse (jsq "01") = None
  /\ JSON.parse (jsq "1.") = None /\ JSON.parse (jsq "{'a' 1}") = None
  /\ JSON.parse (jsq "'abc") = None /\ JSON.parse (jsq "tru") = None
  /\ JSON.parse (jsq "true false") = None /\ JSON.parse [] = None
  /\ JSON.parse (jsq "{'a':1} x") = None /\ JSON.parse (js "{a:1}") = None.
Proof. vm_compute. repeat split; reflexivity. Qed.

(** A literal denotes the nearest double: the greatest double, the
    literals beyond it, the least one and the literals below it, the two
    zeros. *)
Example parse_number_range :
  JSON.parse (js "1.7976931348623158e308")
    = Some (JNumber (NumFinite false (js "17976931348623157") 292))
  /\ JSON.parse (js "1.7976931348623159e308") = Some (JNumber (NumInfinity false))
  /\ JSON.parse (js "-1e999") = Some (JNumber (NumInfinity true))
  /\ JSON.parse (js "2.4703282292062328e-324")
     = Some (JNumber (NumFinite false (js "5") (-324)))
  /\ JSON.parse (js "2.4703282292062327e-324") = Some (JNumber NumZero)
  /\ JSON.parse (js "-1e-400") = Some (JNumber NumNegZero)
  /\ JSON.parse (js "0.0") = Some (JNumber NumZero)
  /\ JSON.parse (js "-0") = Some (JNumber NumNegZero).
Proof. vm_compute. repeat split; reflexivity. Qed.

(** Two literals of one double are one number, written with the fewest
    digits that read back as the double. *)
Example parse_number_rounding :
  JSON.parse (js "0.1000000000000000055511151231257827")
    = Some (JNumber (NumFinite false (js "1") (-1)))
  /\ JSON.parse (js "9007199254740993")
     = Some (JNumber (NumFinite false (js "9007199254740992") 0))
  /\ JSON.parse (js "0.30000000000000004")
     = Some (JNumber (NumFinite false (js "30000000000000004") (-17)))
  /\ JSON.parse (js "0.3000000000000000444")
     = Some (JNumber (NumFinite false (js "30000000000000004") (-17)))
  /\ JSON.parse (js "100e-2") = Some (JNumber (NumFinite false (js "1") 0))
  /\ JSON.parse (js "123456789012345678901234567890")
     = Some (JNumber (NumFinite false (js "12345678901234568") 13)).
Proof. vm_compute. repeat split; reflexivity. Qed.

(** The keys that are array indices come first, in ascending order; the
    others follow in the order of the text. *)
Example parse_key_order :
  JSON.parse (jsq "{'b':1,'10':2,'a':3,'2':4,'01':5,'4294967295':6,'b':7}")
  = Some (JObject [(js "2", JNumber (NumFinite false (js "4") 0));
                   (js "10", JNumber (NumFinite false (js "2") 0));
                   (js "b", JNumber (NumFinite false (js "7") 0));
                   (js "a", JNumber (NumFinite false (js "3") 0));
                   (js "01", JNumber (NumFinite false (js "5") 0));
                   (js "4294967295", JNumber (NumFinite false (js "6") 0))]).
Proof. vm_compute. reflexivity. Qed.

Example stringify_example :
  JSON.stringify
    (JArray [JNumber (NumFinite false (js "15") 2);
             JNumber (NumFinite false (js "5") (-1));
             JNumber (NumFinite true (js "15") (-11));
             JNumber (NumFinite false (js "1") 21);
             JString [34; 10; 55357; 56832; 55357]])
  = jsq "[1500,0.5,-1.5e-10,1e+21,'" ++ [92; 34; 92; 110; 55357; 56832]
    ++ js "\ud83d" ++ jsq "']".
Proof. vm_compute. reflexivity. Qed.

Example extract_fenced :
  extractStructured (jsq "```json
{'a':1}
```")
  = Extracted (JObject [(js "a", JNumber (NumFinite false (js "1") 0))]).
Proof. vm_compute. reflexivity. Qed.

Example extract_from_prose :
  extractStructured (jsq "Sure! Here it is: {'a':1,'b':[1,2]} Thanks!")
  = Extracted (JObject [(js "a", JNumber (NumFinite false (js "1") 0));
                        (js "b", JArray [JNumber (NumFinite false (js "1") 0);
                                         JNumber (NumFinite false (js "2") 0)])]).
Proof. vm_compute. reflexivity. Qed.

Example extract_nothing :
  extractStructured (js "no json here") = InvalidFormat.
Proof. vm_compute. reflexivity. Qed.

(** What [/api/analyze] sends when the reply parses to a value that is not
    an object. *)
Example analyze_reply_not_an_object :
  let e := {| PERPLEXITY_API_KEY := Some (js "key"); now := js "T" |} in
  analyze_response e (FetchOk (js "[1]"))
    = {| status := 200;
         body := JArray [JNumber (NumFinite false (js "1") 0)] |}
  /\ analyze_response e (FetchOk (js "42"))
    = {| status := 200; body := JNumber (NumFinite false (js "42") 0) |}
  /\ status (analyze_response e (FetchOk (js "null"))) = 500%Z.
Proof. vm_compute. repeat split; reflexivity. Qed.

(** * Further properties *)

(** ** [sanitizeInput] only removes *)

Lemma subseq_refl (s : jsstring) : subseq s s.
Proof. induction s; constructor; assumption. Qed.

Lemma subseq_nil_l (s : jsstring) : subseq [] s.
Proof. induction s; constructor; assumption. Qed.

Lemma subseq_trans (a b c : jsstring) : subseq a b -> subseq b c -> subseq a c.
Proof.
  intros H1 H2. revert a H1.
  induction H2 as [|x b c H IH|x b c H IH]; intros a H1.
  - assumption.
  - inversion H1; subst; constructor; auto.
  - constructor. auto.
Qed.

Lemma subseq_app (a b c d : jsstring) :
  subseq a b -> subseq c d -> subseq (a ++ c) (b ++ d).
Proof. induction 1; intros Hcd; simpl; try constructor; auto. Qed.

Lemma subseq_firstn (n : nat) (s : jsstring) : subseq (firstn n s) s.
Proof.
  revert n. induction s as [|c s IH]; intros [|n]; simpl;
    try constructor; auto using subseq_nil_l.
Qed.

Lemma subseq_filter (f : char16 -> bool) (s : jsstring) : subseq (filter f s) s.
Proof.
  induction s as [|c s IH]; simpl; [constructor|].
  destruct (f c); constructor; assumption.
Qed.

Lemma subseq_replace_scan re (s : jsstring) : forall prev k,
  subseq (replace_scan re prev k s) s.
Proof.
  induction s as [|c s IH]; intros prev k; simpl; [constructor|].
  destruct k; [|constructor; apply IH].
  destruct (re prev (c :: s)) as [[|k]|]; constructor; apply IH.
Qed.

Lemma subseq_trim (s : jsstring) : subseq (trim s) s.
Proof.
  destruct (trim_split s) as (w1 & w2 & E & _). rewrite E at 2.
  change (trim s) with ([] ++ trim s) at 1.
  apply subseq_app; [apply subseq_nil_l|].
  rewrite <- (app_nil_r (trim s)) at 1.
  apply subseq_app; [apply subseq_refl|apply subseq_nil_l].
Qed.

Lemma subseq_length (a b : jsstring) : subseq a b -> (length a <= length b)%nat.
Proof. induction 1; simpl; lia. Qed.

(** X1: the result of [sanitizeInput] is the input with some code units left
    out: nothing is inserted, replaced or moved. *)
Theorem sanitize_subsequence (s : jsstring) (maxLength : Z) :
  subseq (sanitizeInput (Some (JString s)) maxLength) s.
Proof.
  rewrite sanitize_string. unfold length_cap, replace_denylist,
    replace_char_class.
  eapply subseq_trans; [apply subseq_trim|].
  eapply subseq_trans; [apply subseq_replace_scan|].
  eapply subseq_trans; [apply subseq_filter|]. apply subseq_firstn.
Qed.

(** X2: [sanitizeInput] returns a string as it is exactly when the string is
    already clean: no longer than the cap, without a character of the
    class, without a whole word of the denylist (in any letter case),
    without white space at either end. *)
Theorem sanitize_unchanged_iff (s : jsstring) (maxLength : Z) :
  sanitizeInput (Some (JString s)) maxLength = s <-> already_clean maxLength s.
Proof.
  split.
  - intros E.
    destruct (sanitize_facts (Some (JString s)) maxLength)
      as (A & B & C & D & L).
    cbv zeta in *. rewrite E in *. repeat split; try assumption.
    + lia.
    + intros w I O. apply B. exists w. split; assumption.
  - intros (L & A & B & C & D).
    rewrite sanitize_string. unfold length_cap.
    rewrite firstn_all2 by lia. rewrite (replace_char_class_id s A).
    unfold replace_denylist. rewrite (replace_denylist_id s None).
    + apply trim_id; assumption.
    + intros (w & I & O). exact (B w I O).
Qed.

(** X3: nothing beyond the first [maxLength] code units has any influence on
    the result: the filters never see it. *)
Theorem sanitize_reads_prefix_only (s t : jsstring) (maxLength : Z) :
  (Z.of_nat (length s) >= maxLength)%Z ->
  sanitizeInput (Some (JString (s ++ t))) maxLength
  = sanitizeInput (Some (JString s)) maxLength.
Proof.
  intros L. rewrite !sanitize_string. unfold length_cap.
  rewrite firstn_app.
  replace (Z.to_nat maxLength - length s)%nat with O by lia.
  simpl. rewrite app_nil_r. reflexivity.
Qed.

Lemma sanitize_reads_prefix_only_witness :
  sanitizeInput (Some (JString (js "good name" ++ js " <ignore all>"))) 9
  = sanitizeInput (Some (JString (js "good name"))) 9.
Proof. apply sanitize_reads_prefix_only. vm_compute. discriminate. Defined.

(** ** The brace match *)

Lemma match_to_last_brace_none (s : jsstring) :
  match_to_last_brace s = None <-> ~ In 125 s.
Proof.
  induction s as [|c s IH]; simpl; [tauto|].
  destruct (match_to_last_brace s) as [m|].
  - split; [discriminate|]. intros H. exfalso.
    assert (X : ~ In 125 s) by tauto. apply IH in X. discriminate.
  - destruct (N.eqb_spec c 125).
    + split; [discriminate|]. tauto.
    + split; [|reflexivity]. intros _ [E|I]; [congruence|].
      now apply (proj1 IH).
Qed.

Lemma match_to_last_brace_app (mid post : jsstring) :
  ~ In 125 post ->
  match_to_last_brace (mid ++ 125 :: post) = Some (mid ++ [125]).
Proof.
  intros H. induction mid as [|c mid IH]; simpl.
  - apply match_to_last_brace_none in H. rewrite H. reflexivity.
  - rewrite IH. reflexivity.
Qed.

Lemma match_braces_app (pre mid post : jsstring) :
  ~ In 123 pre -> ~ In 125 post ->
  match_braces (pre ++ 123 :: mid ++ 125 :: post) = Some (123 :: mid ++ [125]).
Proof.
  intros Hpre Hpost. induction pre as [|c pre IH]; simpl.
  - now rewrite match_to_last_brace_app.
  - destruct (N.eqb_spec c 123); [subst; simpl in Hpre; tauto|].
    apply IH. simpl in Hpre. tauto.
Qed.

(** There is a match exactly when some opening brace comes before some
    closing brace. *)
Lemma match_braces_none (s : jsstring) :
  match_braces s = None
  <-> ~ exists a b c, s = a ++ 123 :: b ++ 125 :: c.
Proof.
  induction s as [|x s IH]; simpl.
  - split; [|reflexivity]. intros _ (a & b & c & E).
    destruct a; discriminate.
  - destruct (N.eqb_spec x 123) as [->|Nx].
    + destruct (match_to_last_brace s) as [m|] eqn:M.
      * split; [discriminate|]. intros H. exfalso. apply H.
        assert (I : In 125 s).
        { destruct (in_dec N.eq_dec 125 s) as [I|I]; [assumption|].
          apply match_to_last_brace_none in I. congruence. }
        apply in_split in I. destruct I as (b & c & ->).
        exists [], b, c. reflexivity.
      * apply match_to_last_brace_none in M. rewrite IH.
        split; intros H (a & b & c & E); apply H.
        -- destruct a as [|y a]; simpl in E; inversion E; subst.
           ++ exfalso. apply M. apply in_or_app. right. now left.
           ++ exists a, b, c. reflexivity.
        -- exists (123 :: a), b, c. simpl. f_equal. exact E.
    + rewrite IH. split; intros H (a & b & c & E); apply H.
      * destruct a as [|y a]; simpl in E; inversion E; subst; [congruence|].
        exists a, b, c. reflexivity.
      * exists (x :: a), b, c. simpl. f_equal. exact E.
Qed.

(** X4: the reply ['Invalid response format'] is given exactly when the first
    parse fails and no opening brace of the reply comes before a closing
    brace. *)
Theorem invalid_format_iff (content : jsstring) :
  extractStructured content = InvalidFormat
  <-> JSON.parse (cleanContent content) = None
      /\ ~ exists a b c, content = a ++ 123 :: b ++ 125 :: c.
Proof.
  unfold extractStructured, fallback. rewrite <- match_braces_none.
  destruct (JSON.parse (cleanContent content)) as [v|].
  - split; [discriminate|]. intros [H _]. discriminate.
  - destruct (match_braces content) as [m|].
    + split; [|intros [_ H]; discriminate].
      destruct (JSON.parse m); discriminate.
    + tauto.
Qed.

(** X5: an object text between a prefix without opening brace and a suffix
    without closing brace is what the second attempt parses: when the
    first attempt fails, the reply is answered from that text alone. *)
Theorem embedded_object_is_recovered (pre mid post : jsstring) :
  ~ In 123 pre -> ~ In 125 post ->
  JSON.parse (cleanContent (pre ++ 123 :: mid ++ 125 :: post)) = None ->
  extractStructured (pre ++ 123 :: mid ++ 125 :: post)
  = match JSON.parse (123 :: mid ++ [125]) with
    | Some v => Extracted v
    | None => ParseFailed
    end.
Proof.
  intros Hpre Hpost P. unfold extractStructured, fallback.
  rewrite P, (match_braces_app pre mid post Hpre Hpost). reflexivity.
Qed.

Lemma embedded_object_is_recovered_witness :
  extractStructured
    (js "Sure! Here it is: " ++ 123 :: jsq "'a':1,'b':[1,2]" ++ 125
     :: js " Thanks!")
  = Extracted (JObject [(js "a", JNumber (NumFinite false (js "1") 0));
                        (js "b", JArray [JNumber (NumFinite false (js "1") 0);
                                         JNumber (NumFinite false (js "2") 0)])]).
Proof.
  rewrite embedded_object_is_recovered.
  - vm_compute. reflexivity.
  - vm_compute. intuition discriminate.
  - vm_compute. intuition discriminate.
  - vm_compute. reflexivity.
Defined.

(** ** The second attempt gives objects only *)

Module JSONObjects.
Import JSON JSONText.

Lemma lex_start_keeps out c mode' out' :
  lex_start out c = Some (mode', out') -> exists new, out' = new ++ out.
Proof.
  unfold lex_start.
  repeat match goal with
         | |- context [if ?b then _ else _] => destruct b
         end;
    intros H; inversion H; subst;
    solve [exists []; reflexivity | eexists [_]; reflexivity].
Qed.

Lemma lex_step_keeps mode out c mode' out' :
  lex_step (mode, out) c = Some (mode', out') -> exists new, out' = new ++ out.
Proof.
  destruct mode; simpl.
  - apply lex_start_keeps.
  - repeat match goal with
           | |- context [if ?b then _ else _] => destruct b
           end;
      intros H; inversion H; subst;
      solve [exists []; reflexivity | eexists [_]; reflexivity].
  - repeat match goal with
           | |- context [if ?b then _ else _] => destruct b
           end;
      intros H; inversion H; subst; exists []; reflexivity.
  - destruct (hex_value c); [|discriminate].
    destruct todo as [|[|todo]]; intros H; inversion H; subst;
      exists []; reflexivity.
  - destruct expect as [|e expect]; [discriminate|].
    destruct (c =? e); [|discriminate].
    destruct expect; intros H; inversion H; subst;
      solve [exists []; reflexivity | eexists [_]; reflexivity].
  - destruct (num_step ph l c) as [[ph' l']|].
    + intros H; inversion H; subst. exists []. reflexivity.
    + destruct (num_final ph); [|discriminate]. intros H.
      apply lex_start_keeps in H. destruct H as [new ->].
      exists (new ++ [TNumber (numlit_value l)]).
      rewrite <- app_assoc. reflexivity.
Qed.

Lemma lex_run_keeps (s : jsstring) : forall mode out mode' out',
  lex_run (mode, out) s = Some (mode', out') -> exists new, out' = new ++ out.
Proof.
  induction s as [|c s IH]; intros mode out mode' out'; cbn [lex_run].
  - intros H; inversion H; subst. exists []. reflexivity.
  - destruct (lex_step (mode, out) c) as [[mode1 out1]|] eqn:S; [|discriminate].
    intros H. apply IH in H. destruct H as [new ->].
    apply lex_step_keeps in S. destruct S as [new1 ->].
    exists (new ++ new1). now rewrite app_assoc.
Qed.

(** The tokens of a text that opens with a brace open with [TLBrace]. *)
Lemma lex_open_brace (rest : jsstring) ts :
  lex (123 :: rest) = Some ts -> exists ts', ts = TLBrace :: ts'.
Proof.
  unfold lex. simpl lex_run.
  change (lex_step (LStart, []) 123) with (Some (LStart, [TLBrace])).
  cbn iota.
  destruct (lex_run (LStart, [TLBrace]) rest) as [[mode out]|] eqn:R;
    [|discriminate].
  apply lex_run_keeps in R. destruct R as [new ->]. unfold lex_end.
  destruct mode; try discriminate.
  - intros H; inversion H; subst. rewrite rev_app_distr. simpl. eauto.
  - destruct (num_final ph); [|discriminate].
    intros H; inversion H; subst.
    change (TNumber (numlit_value l) :: new ++ [TLBrace])
      with ((TNumber (numlit_value l) :: new) ++ [TLBrace]).
    rewrite rev_app_distr. simpl. eauto.
Qed.

Lemma object_below_single f :
  is_obj_frame f = true -> object_below (Parsing [f]).
Proof. intros H. exists [], f. split; [reflexivity|assumption]. Qed.

Lemma object_below_push g upper f :
  is_obj_frame f = true -> object_below (Parsing (g :: upper ++ [f])).
Proof. intros H. exists (g :: upper), f. split; [reflexivity|assumption]. Qed.

Lemma complete_object_below upper f v st :
  is_obj_frame f = true -> complete (upper ++ [f]) v = Some st ->
  object_below st.
Proof.
  intros F. destruct upper as [|g upper]; simpl.
  - destruct f; try discriminate; intros H; inversion H; subst.
    now apply object_below_single.
  - destruct g; try discriminate; intros H; inversion H; subst;
      now apply object_below_push.
Qed.

Lemma parse_step_object_below st t st' :
  object_below st -> parse_step st t = Some st' -> object_below st'.
Proof.
  destruct st as [stack|v]; [|discriminate].
  intros (upper & f & -> & F).
  assert (C : forall v, complete (upper ++ [f]) v = Some st' ->
                        object_below st')
    by (intros v; now apply complete_object_below).
  assert (W : forall v,
    (if wants_value (upper ++ [f]) then complete (upper ++ [f]) v else None)
    = Some st' -> object_below st').
  { intros v. destruct (wants_value (upper ++ [f])); [apply C|discriminate]. }
  assert (P : forall g,
    (if wants_value (upper ++ [f]) then Some (Parsing (g :: upper ++ [f]))
     else None) = Some st' -> object_below st').
  { intros g. destruct (wants_value (upper ++ [f])); [|discriminate].
    intros H; inversion H; subst. now apply object_below_push. }
  destruct t; simpl; try (apply W); try (apply P).
  - (* closing brace *)
    destruct upper as [|g upper]; simpl.
    + destruct f; try discriminate; simpl; intros H; inversion H; reflexivity.
    + destruct g; try discriminate; now apply complete_object_below.
  - (* closing bracket *)
    destruct upper as [|g upper]; simpl.
    + destruct f; discriminate.
    + destruct g; try discriminate; now apply complete_object_below.
  - (* colon *)
    destruct upper as [|g upper]; simpl.
    + destruct f; try discriminate; intros H; inversion H; subst;
        now apply object_below_single.
    + destruct g; try discriminate; intros H; inversion H; subst;
        now apply object_below_push.
  - (* comma *)
    destruct upper as [|g upper]; simpl.
    + destruct f; try discriminate; intros H; inversion H; subst;
        now apply object_below_single.
    + destruct g; try discriminate; intros H; inversion H; subst;
        now apply object_below_push.
  - (* string *)
    destruct upper as [|g upper]; simpl.
    + destruct f; try discriminate; intros H; inversion H; subst;
        now apply object_below_single.
    + destruct g; try discriminate;
        try (intros H; inversion H; subst; now apply object_below_push);
        now apply (complete_object_below (_ :: upper) f (JString s)).
Qed.

Lemma parse_run_object_below (ts : list token) : forall st st',
  object_below st -> parse_run st ts = Some st' -> object_below st'.
Proof.
  induction ts as [|t ts IH]; intros st st' B; simpl.
  - intros H; inversion H; subst. assumption.
  - destruct (parse_step st t) as [st1|] eqn:S; [|discriminate].
    apply IH. eapply parse_step_object_below; eassumption.
Qed.

(** A text that opens with a brace parses to an object or not at all. *)
Lemma parse_open_brace (rest : jsstring) (v : json) :
  parse (123 :: rest) = Some v -> is_object v = true.
Proof.
  unfold parse. destruct (lex (123 :: rest)) as [ts|] eqn:L; [|discriminate].
  apply lex_open_brace in L. destruct L as [ts' ->].
  unfold parse_tokens. simpl parse_run.
  destruct (parse_run (Parsing [ObjOpen]) ts') as [[stack|v']|] eqn:R;
    try discriminate.
  intros H; inversion H; subst.
  apply (parse_run_object_below ts' (Parsing [ObjOpen]) (Finished v));
    [now apply object_below_single|assumption].
Qed.

End JSONObjects.

Lemma match_braces_head (s m : jsstring) :
  match_braces s = Some m -> exists m', m = 123 :: m'.
Proof.
  induction s as [|c s IH]; simpl; [discriminate|].
  destruct (N.eqb_spec c 123) as [->|N]; [|assumption].
  destruct (match_to_last_brace s) as [m'|]; [|assumption].
  intros H; inversion H; subst. eauto.
Qed.

(** X6: what the second attempt extracts is always an object: an array or a
    primitive can only come out of the first attempt. *)
Theorem fallback_yields_object (content : jsstring) (v : json) :
  fallback content = Extracted v -> is_object v = true.
Proof.
  unfold fallback. destruct (match_braces content) as [m|] eqn:M;
    [|discriminate].
  destruct (match_braces_head _ _ M) as [m' ->].
  destruct (JSON.parse (123 :: m')) as [v'|] eqn:P; [|discriminate].
  intros H; inversion H; subst.
  now apply (JSONObjects.parse_open_brace m').
Qed.

Lemma fallback_yields_object_witness :
  is_object (JObject [(js "a", JArray [])]) = true.
Proof.
  apply (fallback_yields_object (jsq "[1] or {'a':[]} ?")).
  vm_compute. reflexivity.
Defined.

(** ** White space around a JSON text *)

Module JSONSpace.
Import JSON JSONText.

Ltac space_units :=
  unfold is_space, is_ws, is_digit, is_e, in_range in *;
  repeat match goal with
         | |- context [if ?b then _ else _] => destruct b eqn:?
         end;
  try reflexivity; exfalso; bool_to_prop; lia.

Lemma space_lex_start out (c : char16) :
  is_space c = true ->
  lex_start out c = if is_ws c then Some (LStart, out) else None.
Proof.
  intros S. unfold lex_start. destruct (is_ws c) eqn:W; [reflexivity|].
  space_units.
Qed.

Lemma space_num_step ph l (c : char16) :
  is_space c = true -> num_step ph l c = None.
Proof. intros S. destruct ph; simpl; space_units. Qed.

Lemma space_hex_value (c : char16) : is_space c = true -> hex_value c = None.
Proof. intros S. unfold hex_value. space_units. Qed.

Lemma ws_is_space (c : char16) : is_ws c = true -> is_space c = true.
Proof.
  intros W. destruct (is_space c) eqn:S; [reflexivity|]. exfalso.
  unfold is_space, is_ws, in_range in *. bool_to_prop. lia.
Qed.

Lemma lex_start_literal out (c : char16) st :
  lex_start out c = Some st -> literal_ok st.
Proof.
  unfold lex_start.
  repeat match goal with
         | |- context [if ?b then _ else _] => destruct b
         end;
    intros H; inversion H; subst; unfold literal_ok; simpl; auto;
    repeat constructor.
Qed.

Lemma lex_step_literal st (c : char16) st' :
  literal_ok st -> lex_step st c = Some st' -> literal_ok st'.
Proof.
  destruct st as [mode out]. destruct mode; simpl; intros L.
  - apply lex_start_literal.
  - repeat match goal with
           | |- context [if ?b then _ else _] => destruct b
           end;
      intros H; inversion H; subst; exact I.
  - repeat match goal with
           | |- context [if ?b then _ else _] => destruct b
           end;
      intros H; inversion H; subst; exact I.
  - destruct (hex_value c); [|discriminate].
    destruct todo as [|[|todo]]; intros H; inversion H; subst; exact I.
  - destruct expect as [|e expect]; [discriminate|].
    destruct (c =? e); [|discriminate].
    unfold literal_ok in L. simpl in L. inversion L; subst.
    destruct expect; intros H; inversion H; subst; unfold literal_ok; simpl;
      auto.
  - destruct (num_step ph l c) as [[ph' l']|].
    + intros H; inversion H; subst. exact I.
    + destruct (num_final ph); [|discriminate]. apply lex_start_literal.
Qed.

Lemma lex_run_literal (s : jsstring) : forall st st',
  literal_ok st -> lex_run st s = Some st' -> literal_ok st'.
Proof.
  induction s as [|c s IH]; intros st st' L; cbn [lex_run].
  - intros H; inversion H; subst. assumption.
  - destruct (lex_step st c) as [st1|] eqn:S; [|discriminate].
    apply IH. eapply lex_step_literal; eassumption.
Qed.

(** White space read where a text may end changes nothing of its tokens. *)
Lemma lex_step_space st (c : char16) st1 ts :
  is_space c = true -> literal_ok st -> lex_step st c = Some st1 ->
  lex_end st1 = Some ts -> lex_end st = Some ts.
Proof.
  intros S L. destruct st as [mode out]. destruct mode; simpl.
  - rewrite (space_lex_start _ _ S). destruct (is_ws c); [|discriminate].
    intros H; inversion H; subst. auto.
  - destruct (N.eqb_spec c 34) as [->|_]; [discriminate S|].
    repeat match goal with
           | |- context [if ?b then _ else _] => destruct b
           end;
      intros H; inversion H; subst; discriminate.
  - repeat match goal with
           | |- context [if ?b then _ else _] => destruct b
           end;
      intros H; inversion H; subst; discriminate.
  - rewrite (space_hex_value _ S). discriminate.
  - destruct expect as [|e expect]; [discriminate|].
    unfold literal_ok in L. simpl in L. inversion L; subst.
    destruct (N.eqb_spec c e) as [->|]; [congruence|discriminate].
  - rewrite (space_num_step _ _ _ S).
    destruct (num_final ph); [|discriminate].
    rewrite (space_lex_start _ _ S). destruct (is_ws c); [|discriminate].
    intros H; inversion H; subst. auto.
Qed.

Lemma lex_run_spaces_end (w : jsstring) : forall st st' ts,
  Forall (fun c => is_space c = true) w -> literal_ok st ->
  lex_run st w = Some st' -> lex_end st' = Some ts -> lex_end st = Some ts.
Proof.
  induction w as [|c w IH]; intros st st' ts F L; cbn [lex_run].
  - intros H; inversion H; subst. auto.
  - inversion F; subst.
    destruct (lex_step st c) as [st1|] eqn:S; [|discriminate].
    intros R E. eapply lex_step_space; eauto.
    eapply IH; eauto. eapply lex_step_literal; eassumption.
Qed.

Lemma lex_run_spaces_start (w rest : jsstring) : forall out st',
  Forall (fun c => is_space c = true) w ->
  lex_run (LStart, out) (w ++ rest) = Some st' ->
  lex_run (LStart, out) rest = Some st'.
Proof.
  induction w as [|c w IH]; intros out st' F; cbn [app lex_run]; [auto|].
  inversion F; subst. cbn [lex_step]. rewrite space_lex_start by assumption.
  destruct (is_ws c); [|discriminate]. now apply IH.
Qed.

Lemma lex_trim (text : jsstring) ts :
  lex text = Some ts -> lex (trim text) = Some ts.
Proof.
  destruct (trim_split text) as (w1 & w2 & E & F1 & F2).
  unfold lex. rewrite E at 1.
  destruct (lex_run (LStart, []) (w1 ++ trim text ++ w2)) as [st'|] eqn:R;
    [|discriminate].
  apply lex_run_spaces_start in R; [|assumption].
  rewrite JSONFacts.lex_run_app in R.
  destruct (lex_run (LStart, []) (trim text)) as [st|] eqn:R1; [|discriminate].
  intros H. eapply lex_run_spaces_end; eauto.
  eapply lex_run_literal; [|eassumption]. exact I.
Qed.

(** [JSON.parse] skips white space itself: trimming a text that parses
    leaves its value. *)
Lemma parse_trim (text : jsstring) (v : json) :
  parse text = Some v -> parse (trim text) = Some v.
Proof.
  unfold parse. destruct (lex text) as [ts|] eqn:L; [|discriminate].
  now rewrite (lex_trim _ _ L).
Qed.

Lemma lex_run_ws_start (w rest : jsstring) : forall out,
  Forall (fun c => is_ws c = true) w ->
  lex_run (LStart, out) (w ++ rest) = lex_run (LStart, out) rest.
Proof.
  induction w as [|c w IH]; intros out F; cbn [app lex_run]; [reflexivity|].
  inversion F; subst. cbn [lex_step].
  rewrite space_lex_start by now apply ws_is_space.
  rewrite H1. now apply IH.
Qed.

Lemma lex_run_ws_end (w : jsstring) : forall st ts,
  Forall (fun c => is_ws c = true) w -> lex_end st = Some ts ->
  exists st', lex_run st w = Some st' /\ lex_end st' = Some ts.
Proof.
  induction w as [|c w IH]; intros st ts F E; cbn [lex_run]; [eauto|].
  inversion F; subst. destruct st as [mode out].
  destruct mode; try discriminate; cbn [lex_step].
  - rewrite space_lex_start by now apply ws_is_space.
    rewrite H1. now apply IH.
  - rewrite space_num_step by now apply ws_is_space.
    simpl in E. destruct (num_final ph); [|discriminate].
    rewrite space_lex_start by now apply ws_is_space.
    rewrite H1. now apply IH.
Qed.

(** JSON white space around a text that parses leaves its value. *)
Lemma parse_padded (w1 text w2 : jsstring) (v : json) :
  Forall (fun c => is_ws c = true) w1 ->
  Forall (fun c => is_ws c = true) w2 ->
  parse text = Some v -> parse (w1 ++ text ++ w2) = Some v.
Proof.
  intros F1 F2. unfold parse, lex. rewrite lex_run_ws_start by assumption.
  rewrite JSONFacts.lex_run_app.
  destruct (lex_run (LStart, []) text) as [st|]; [|discriminate].
  destruct (lex_end st) as [ts|] eqn:E; [|discriminate].
  destruct (lex_run_ws_end w2 st ts F2 E) as (st' & -> & ->). auto.
Qed.

End JSONSpace.

(** X7: a reply that is a JSON text, with or without white space around it,
    and holds no run of three backticks is extracted by the first attempt
    as the value [JSON.parse] gives for the reply itself. *)
Theorem plain_json_is_extracted (content : jsstring) (v : json) :
  JSON.parse content = Some v -> contains fence content = false ->
  extractStructured content = Extracted v.
Proof.
  intros P C. unfold extractStructured.
  rewrite (cleanContent_no_fence _ C).
  now rewrite (JSONSpace.parse_trim _ _ P).
Qed.

Lemma plain_json_is_extracted_witness :
  extractStructured (jsq "
  {'score': 7}
") = Extracted (JObject [(js "score", JNumber (NumFinite false (js "7") 0))]).
Proof.
  apply plain_json_is_extracted; vm_compute; reflexivity.
Defined.

(** ** Code fences *)

Lemma match_fence_some (lit : jsstring) prev s n :
  match_fence lit prev s = Some n ->
  (length lit <= n)%nat /\ exists r, starts_with lit s = Some r.
Proof.
  unfold match_fence. destruct (starts_with lit s) as [r|]; [|discriminate].
  intros H. split; [|eauto]. revert H.
  repeat match goal with
         | |- context [match ?x with _ => _ end] => destruct x
         end;
    intros H; inversion H; lia.
Qed.

Lemma match_fence_some_inv (lit : jsstring) prev s r :
  starts_with lit s = Some r -> exists n, match_fence lit prev s = Some n.
Proof.
  unfold match_fence. intros ->.
  repeat match goal with
         | |- context [match ?x with _ => _ end] => destruct x
         end; eauto.
Qed.

(** Where no match starts inside [t], the scan copies [t]. *)
Lemma replace_scan_clear (re : option char16 -> jsstring -> option nat)
    (t u : jsstring) :
  (forall prev a b, t = a ++ b -> b <> [] ->
     re prev (b ++ u) = None \/ re prev (b ++ u) = Some O) ->
  forall prev, exists prev',
    replace_scan re prev 0 (t ++ u) = t ++ replace_scan re prev' 0 u.
Proof.
  induction t as [|c t IH]; intros H prev; [exists prev; reflexivity|].
  destruct (IH (fun p a b E => H p (c :: a) b (f_equal (cons c) E)) (Some c))
    as [prev' E].
  exists prev'.
  destruct (H prev [] (c :: t) eq_refl ltac:(discriminate)) as [M | M];
    cbn [app] in M; cbn [app replace_scan]; rewrite M; now rewrite E.
Qed.

Lemma scan_fence_free (lit t u : jsstring) prev :
  ~ In 96 t ->
  exists prev',
    replace_scan (match_fence (96 :: lit)) prev 0 (t ++ u)
    = t ++ replace_scan (match_fence (96 :: lit)) prev' 0 u.
Proof.
  intros N. apply replace_scan_clear. intros p a b E B. left.
  apply match_fence_none. destruct b as [|c b]; [congruence|].
  cbn [app starts_with]. destruct (N.eqb_spec 96 c) as [<-|]; [|reflexivity].
  exfalso. apply N. rewrite E. apply in_or_app. right. now left.
Qed.

Lemma cleanContent_fenced (opening t : jsstring) :
  opening = fence_json \/ opening = fence -> ~ In 96 t ->
  cleanContent (opening ++ 10 :: t ++ 10 :: fence) = trim (t ++ [10]).
Proof.
  intros O N. unfold cleanContent. f_equal.
  assert (E1 : forall prev,
    replace_scan (match_fence fence_json) prev 0 (t ++ 10 :: fence)
    = t ++ 10 :: fence).
  { intros prev.
    destruct (scan_fence_free (js "``json") t (10 :: fence) prev N)
      as [prev' E].
    change (match_fence (96 :: js "``json")) with (match_fence fence_json)
      in E.
    rewrite E. reflexivity. }
  assert (E2 : forall prev,
    replace_scan (match_fence fence) prev 0 (t ++ 10 :: fence) = t ++ [10]).
  { intros prev.
    destruct (scan_fence_free (js "``") t (10 :: fence) prev N) as [prev' E].
    change (match_fence (96 :: js "``")) with (match_fence fence) in E.
    rewrite E. reflexivity. }
  destruct O as [-> | ->].
  - change (fence_json ++ 10 :: t ++ 10 :: fence)
      with (96 :: 96 :: 96 :: 106 :: 115 :: 111 :: 110 :: 10
            :: (t ++ 10 :: fence)).
    change (replace_scan (match_fence fence_json) None 0
              (96 :: 96 :: 96 :: 106 :: 115 :: 111 :: 110 :: 10
               :: (t ++ 10 :: fence)))
      with (replace_scan (match_fence fence_json) (Some 10) 0
              (t ++ 10 :: fence)).
    rewrite E1. apply E2.
  - change (fence ++ 10 :: t ++ 10 :: fence)
      with (96 :: 96 :: 96 :: 10 :: (t ++ 10 :: fence)).
    change (replace_scan (match_fence fence_json) None 0
              (96 :: 96 :: 96 :: 10 :: (t ++ 10 :: fence)))
      with (96 :: 96 :: 96 :: 10
            :: replace_scan (match_fence fence_json) (Some 10) 0
                 (t ++ 10 :: fence)).
    rewrite E1.
    change (replace_scan (match_fence fence) None 0
              (96 :: 96 :: 96 :: 10 :: (t ++ 10 :: fence)))
      with (replace_scan (match_fence fence) (Some 10) 0
              (t ++ 10 :: fence)).
    apply E2.
Qed.

(** X8: a reply that is one fenced block, opened by three backticks with or
    without the tag [json] and a line feed and closed by a line feed and
    three backticks, around a JSON text without backticks, is extracted by
    the first attempt as the value of that text. *)
Theorem fenced_json_is_extracted (opening t : jsstring) (v : json) :
  opening = fence_json \/ opening = fence ->
  JSON.parse t = Some v -> ~ In 96 t ->
  extractStructured (opening ++ 10 :: t ++ 10 :: fence) = Extracted v.
Proof.
  intros O P N. unfold extractStructured.
  rewrite (cleanContent_fenced _ _ O N).
  rewrite (JSONSpace.parse_trim (t ++ [10]) v); [reflexivity|].
  apply (JSONSpace.parse_padded [] t [10] v); auto.
Qed.

Lemma fenced_json_is_extracted_witness :
  extractStructured (fence ++ 10 :: js "[true, null]" ++ 10 :: fence)
  = Extracted (JArray [JBool true; JNull]).
Proof.
  apply fenced_json_is_extracted.
  - right. reflexivity.
  - vm_compute. reflexivity.
  - vm_compute. intuition discriminate.
Defined.

Lemma fence_ticks (s : jsstring) :
  starts_with fence s = None <-> (ticks s <= 2)%nat.
Proof.
  change fence with [96; 96; 96].
  destruct s as [|a [|b [|c s]]]; cbn [starts_with ticks];
    rewrite ?(N.eqb_sym 96);
    repeat match goal with
           | |- context [if ?x =? 96 then _ else _] => destruct (x =? 96)
           end;
    split; intros H; try reflexivity; try discriminate; lia.
Qed.

(** After the second replacement no run of three backticks is left: two
    backticks before a removed fence would have opened a match themselves. *)
Lemma scan_fence_ticks (s : jsstring) : forall k prev,
  let o := replace_scan (match_fence fence) prev k s in
  contains fence o = false /\ (ticks o <= 2)%nat
  /\ (k = O -> (ticks o <= ticks s)%nat).
Proof.
  induction s as [|c s IH]; intros k prev o; subst o.
  - cbn [replace_scan]. repeat split; auto.
  - cbn [replace_scan]. destruct k as [|k].
    + destruct (match_fence fence prev (c :: s)) as [[|k]|] eqn:M.
      * apply match_fence_some in M. simpl in M. lia.
      * destruct (IH k (Some c)) as (C & T & _).
        repeat split; auto. intros _.
        apply match_fence_some in M. destruct M as [_ [r M]].
        assert (~ (ticks (c :: s) <= 2)%nat); [|lia].
        rewrite <- fence_ticks. congruence.
      * destruct (IH O (Some c)) as (C & T & L). specialize (L eq_refl).
        assert (SW : starts_with fence (c :: s) = None).
        { destruct (starts_with fence (c :: s)) as [r|] eqn:SW; [|reflexivity].
          destruct (match_fence_some_inv fence prev _ _ SW). congruence. }
        apply fence_ticks in SW.
        assert (T' : (ticks (c :: replace_scan (match_fence fence) (Some c) 0 s)
                      <= ticks (c :: s))%nat).
        { cbn [ticks]. destruct (c =? 96); lia. }
        repeat split.
        -- assert (S' : starts_with fence
                     (c :: replace_scan (match_fence fence) (Some c) 0 s)
                   = None) by (apply fence_ticks; lia).
           cbn [contains]. rewrite S'. exact C.
        -- lia.
        -- intros _. exact T'.
    + destruct (IH k (Some c)) as (C & T & _). repeat split; auto.
      intros D; discriminate D.
Qed.

Lemma starts_with_app_none (pat b w : jsstring) :
  starts_with pat (b ++ w) = None -> starts_with pat b = None.
Proof.
  revert b. induction pat as [|p pat IH]; intros b; [discriminate|].
  destruct b as [|c b]; [reflexivity|]. cbn [app starts_with].
  destruct (p =? c); [apply IH|reflexivity].
Qed.

Lemma contains_intro (pat s : jsstring) :
  (forall a b, s = a ++ b -> starts_with pat b = None) ->
  contains pat s = false.
Proof.
  induction s as [|c s IH]; intros H.
  - cbn [contains]. now rewrite (H [] [] eq_refl).
  - cbn [contains]. rewrite (H [] (c :: s) eq_refl).
    apply IH. intros a b E. apply (H (c :: a) b). now rewrite E.
Qed.

Lemma contains_trim (pat s : jsstring) :
  contains pat s = false -> contains pat (trim s) = false.
Proof.
  intros C. destruct (trim_split s) as (w1 & w2 & E & _).
  apply contains_intro. intros a b T.
  apply (starts_with_app_none pat b w2).
  apply (contains_none pat s C (w1 ++ a)).
  rewrite E at 1. rewrite T. now rewrite <- !app_assoc.
Qed.

(** X9: whatever the reply, the text handed to the first [JSON.parse] holds no
    run of three backticks. *)
Theorem cleaned_has_no_fence (content : jsstring) :
  contains fence (cleanContent content) = false.
Proof.
  unfold cleanContent. apply contains_trim.
  apply (scan_fence_ticks _ O None).
Qed.

(** ** The handlers *)

Lemma sanitize_nonempty_string (input : jsvalue) (n : Z) :
  sanitizeInput input n <> [] -> exists s, input = Some (JString s).
Proof.
  intros H. destruct (is_string input) eqn:S.
  - destruct input as [[| | |s| |]|]; try discriminate. eauto.
  - now rewrite (sanitize_not_string _ _ S) in H.
Qed.

Lemma sanitize_no_denied_word (input : jsvalue) (n : Z) w :
  In w denylist -> ~ whole_word_occurrence w (sanitizeInput input n).
Proof.
  intros I O. destruct (sanitize_facts input n) as (_ & B & _).
  apply B. exists w. split; assumption.
Qed.

(** X10: [/api/analyze] calls the completion API only with a key configured and
    a [productName] that is a string; the name it puts into the prompt is
    the sanitized one, which is not empty, has at most 200 code units, none
    of the characters of the class and no whole word of the denylist; the
    reply of the API is handled by the block that extracts and stamps. *)
Theorem analyze_upstream_guard (e : env) (req_body : list (jsstring * json))
    (clean : jsstring) (k : fetch_result -> response) :
  analyze e req_body = CallUpstream clean k ->
  has_key e = true
  /\ (exists s, JSON.get_prop (js "productName") req_body = Some (JString s)
                /\ clean = sanitizeInput (Some (JString s)) 200)
  /\ clean <> [] /\ (length clean <= 200)%nat
  /\ Forall (fun c => in_char_class c = false) clean
  /\ (forall w, In w denylist -> ~ whole_word_occurrence w clean)
  /\ k = analyze_response e.
Proof.
  unfold analyze.
  destruct (sanitizeInput (JSON.get_prop (js "productName") req_body) 200)
    as [|c out] eqn:S; [discriminate|].
  cbn [truthy negb]. destruct (has_key e); [|discriminate].
  cbn [negb]. intros H. inversion H; subst clean k. clear H.
  rewrite <- S.
  destruct (sanitize_nonempty_string
              (JSON.get_prop (js "productName") req_body) 200) as [s E];
    [rewrite S; discriminate|].
  destruct (sanitize_facts (JSON.get_prop (js "productName") req_body) 200)
    as (A & _ & _ & _ & L).
  repeat split.
  - exists s. split; [assumption|]. now rewrite E.
  - rewrite S. discriminate.
  - exact L.
  - exact A.
  - intros w. apply sanitize_no_denied_word.
Qed.

Lemma analyze_upstream_guard_witness :
  (length (js "Acme Phone 12") <= 200)%nat.
Proof.
  apply (analyze_upstream_guard
           {| PERPLEXITY_API_KEY := Some (js "key"); now := [] |}
           [(js "productName", JString (js " <Acme> Phone 12 "))]
           (js "Acme Phone 12")
           (analyze_response
              {| PERPLEXITY_API_KEY := Some (js "key"); now := [] |})).
  unfold analyze.
  replace (sanitizeInput _ 200) with (js "Acme Phone 12")
    by (vm_compute; reflexivity).
  reflexivity.
Defined.

(** X11: [/api/chat] calls the completion API only with a key configured and a
    truthy [message]; the question it puts into the prompt is the sanitized
    message, which has at most 500 code units, none of the characters of
    the class and no whole word of the denylist.  It may be empty. *)
Theorem chat_upstream_guard (e : env) (req_body : list (jsstring * json))
    (clean : jsstring) (k : fetch_result -> response) :
  chat e req_body = CallUpstream clean k ->
  has_key e = true
  /\ truthy (JSON.get_prop (js "message") req_body) = true
  /\ clean = sanitizeInput (JSON.get_prop (js "message") req_body) 500
  /\ (length clean <= 500)%nat
  /\ Forall (fun c => in_char_class c = false) clean
  /\ (forall w, In w denylist -> ~ whole_word_occurrence w clean)
  /\ k = chat_response.
Proof.
  unfold chat.
  destruct (truthy (JSON.get_prop (js "message") req_body)); [|discriminate].
  cbn [negb]. destruct (has_key e); [|discriminate].
  cbn [negb]. intros H. inversion H; subst clean k. clear H.
  destruct (sanitize_facts (JSON.get_prop (js "message") req_body) 500)
    as (A & _ & _ & _ & L).
  repeat split.
  - exact L.
  - exact A.
  - intros w. apply sanitize_no_denied_word.
Qed.

Lemma chat_upstream_guard_witness :
  (length (js "that: is it worth it?") <= 500)%nat.
Proof.
  apply (chat_upstream_guard
           {| PERPLEXITY_API_KEY := Some (js "key"); now := [] |}
           [(js "message", JString (js "ignore {that}: is it worth it? "))]
           (js "that: is it worth it?") chat_response).
  unfold chat.
  replace (sanitizeInput _ 500) with (js "that: is it worth it?")
    by (vm_compute; reflexivity).
  reflexivity.
Defined.

(** X12: the answer of [/api/analyze] behind the call: 200 exactly when the call
    succeeded and the extraction gave a value other than [null]; otherwise
    500 with an object whose first field is [error], a string. *)
Theorem analyze_response_status (e : env) (r : fetch_result) :
  (status (analyze_response e r) = 200%Z
   <-> exists content v, r = FetchOk content
         /\ extractStructured content = Extracted v /\ v <> JNull)
  /\ (status (analyze_response e r) <> 200%Z ->
      status (analyze_response e r) = 500%Z
      /\ exists msg rest,
           body (analyze_response e r)
           = JObject ((js "error", JString msg) :: rest)).
Proof.
  set (ok := exists content v, r = FetchOk content
               /\ extractStructured content = Extracted v /\ v <> JNull).
  assert (failed : forall resp : response,
    status resp = 500%Z ->
    (exists msg rest, body resp = JObject ((js "error", JString msg) :: rest)) ->
    ~ ok ->
    (status resp = 200%Z <-> ok)
    /\ (status resp <> 200%Z ->
        status resp = 500%Z
        /\ exists msg rest,
             body resp = JObject ((js "error", JString msg) :: rest))).
  { intros resp S B N. rewrite S. split; [split|].
    - discriminate.
    - intros O. contradiction.
    - intros _. split; [reflexivity|assumption]. }
  assert (sent : forall resp : response,
    status resp = 200%Z -> ok ->
    (status resp = 200%Z <-> ok)
    /\ (status resp <> 200%Z ->
        status resp = 500%Z
        /\ exists msg rest,
             body resp = JObject ((js "error", JString msg) :: rest))).
  { intros resp S O. rewrite S. split; [split|].
    - intros _. assumption.
    - reflexivity.
    - intros N. now contradiction N. }
  destruct r as [message|errorData|content]; cbn [analyze_response].
  - apply failed; [reflexivity|cbn [body]; eauto|].
    intros (c & v & H & _). discriminate H.
  - apply failed; [reflexivity|cbn [body]; eauto|].
    intros (c & v & H & _). discriminate H.
  - destruct (extractStructured content) as [v| |] eqn:X.
    + destruct (stamp v (now e)) as [out|] eqn:S.
      * apply sent; [reflexivity|]. exists content, v.
        repeat split; auto. intros ->. discriminate S.
      * apply failed; [reflexivity|cbn [body]; eauto|].
        intros (c & v' & H & H1 & H2). injection H as <-.
        rewrite X in H1. injection H1 as <-.
        destruct v; try discriminate S. now contradiction H2.
    + apply failed; [reflexivity|unfold error_body; cbn [body]; eauto|].
      intros (c & v & H & H1 & _). injection H as <-. congruence.
    + apply failed; [reflexivity|unfold error_body; cbn [body]; eauto|].
      intros (c & v & H & H1 & _). injection H as <-. congruence.
Qed.

Ltac distinct_keys :=
  repeat constructor; cbn; intuition discriminate.

Lemma stamp_wf (v : json) ts sent : wf v -> stamp v ts = Some sent -> wf sent.
Proof.
  intros W. destruct v; cbn [stamp]; intros H; inversion H; subst; auto.
  inversion W; subst.
  destruct (JSONFacts.set_prop_wf (js "analyzedAt") (JString ts) props)
    as [N F]; auto; constructor; assumption.
Qed.

Lemma analyze_response_wf (e : env) (r : fetch_result) :
  wf (body (analyze_response e r)).
Proof.
  destruct r as [message|errorData|content]; cbn [analyze_response body].
  - constructor; distinct_keys.
  - constructor; distinct_keys.
  - destruct (extractStructured content) as [v| |] eqn:X.
    + apply extracted_wf in X.
      destruct (stamp v (now e)) as [sent|] eqn:S; cbn [body].
      * eapply stamp_wf; eassumption.
      * constructor; distinct_keys.
    + constructor; distinct_keys.
    + constructor; distinct_keys.
Qed.

(** X13: what [res.json] writes for [/api/analyze] reads back, with
    [JSON.parse], as the value the handler built, when that value holds
    neither an infinite number (which [JSON.stringify] writes as [null])
    nor the negative zero (which it writes as [0]). *)
Theorem analyze_response_round_trip (e : env) (r : fetch_result) :
  plain (body (analyze_response e r)) = true ->
  JSON.parse (JSON.stringify (body (analyze_response e r)))
  = Some (body (analyze_response e r)).
Proof.
  intros F. apply JSONFacts.parse_stringify; [|assumption].
  apply analyze_response_wf.
Qed.

Lemma analyze_response_round_trip_witness :
  let e := {| PERPLEXITY_API_KEY := Some (js "key"); now := js "T" |} in
  let r := FetchOk (jsq "{'score': 7.25, '3': [0], 'analyzedAt': null}") in
  JSON.parse (JSON.stringify (body (analyze_response e r)))
  = Some (body (analyze_response e r)).
Proof.
  cbv zeta. apply analyze_response_round_trip. vm_compute. reflexivity.
Defined.

(** X14: what [res.json] writes for [/api/chat] always reads back as the value
    the handler built: the trimmed reply of the assistant arrives as it is,
    whatever code units it holds. *)
Theorem chat_response_round_trip (r : fetch_result) :
  JSON.parse (JSON.stringify (body (chat_response r)))
  = Some (body (chat_response r)).
Proof.
  apply JSONFacts.parse_stringify;
    destruct r; cbn [chat_response body]; try reflexivity;
    constructor; distinct_keys.
Qed.

(** ** The page context and the product block *)

Lemma context_line_facts (before after : string) (field : jsvalue) (n : Z)
    (line : jsstring) :
  Forall (fun c => in_char_class c = false) (js before) ->
  Forall (fun c => in_char_class c = false) (js after) ->
  context_line before field n after = Some line ->
  Forall (fun c => in_char_class c = false) line
  /\ (length line
      <= length (js before) + Z.to_nat n + length (js after))%nat.
Proof.
  intros B A. unfold context_line.
  destruct field as [v|]; [|intros H; inversion H; split; [constructor|]].
  - destruct (truthy (Some v));
      [|intros H; inversion H; split; [constructor|simpl; lia]].
    destruct (String_ v) as [text|]; [|discriminate].
    intros H; inversion H; subst line. clear H.
    destruct (sanitize_facts (Some (JString text)) n) as (C & _ & _ & _ & L).
    split.
    + apply Forall_app. split; [assumption|].
      apply Forall_app. split; assumption.
    + rewrite !length_app. lia.
  - simpl. lia.
Qed.

Lemma pageContext_facts (req_body : list (jsstring * json)) (ctx : jsstring) :
  pageContext req_body = Some ctx ->
  Forall (fun c => in_char_class c = false) ctx /\ (length ctx <= 143)%nat.
Proof.
  unfold pageContext.
  destruct (context_line "Detected price: $" _ 20 ". ") as [price|] eqn:P;
    [|discriminate].
  destruct (context_line "Detected rating: " _ 10 " stars. ") as [rating|]
    eqn:R; [|discriminate].
  destruct (context_line "Detected reviews: " _ 20 ". ") as [reviews|] eqn:V;
    [|discriminate].
  intros H; inversion H; subst ctx. clear H.
  apply context_line_facts in P; [|repeat constructor..].
  apply context_line_facts in R; [|repeat constructor..].
  apply context_line_facts in V; [|repeat constructor..].
  destruct P as [P1 P2], R as [R1 R2], V as [V1 V2].
  change (length (js "Detected price: $")) with 17%nat in P2.
  change (length (js "Detected rating: ")) with 17%nat in R2.
  change (length (js "Detected reviews: ")) with 18%nat in V2.
  change (length (js ". ")) with 2%nat in P2, V2.
  change (length (js " stars. ")) with 8%nat in R2.
  change (Z.to_nat 20) with 20%nat in P2, V2.
  change (Z.to_nat 10) with 10%nat in R2.
  split.
  - apply Forall_app. split; [assumption|].
    apply Forall_app. split; [assumption|].
    apply Forall_app. split; [assumption|].
    destruct (truthy _); repeat constructor.
  - rewrite !length_app.
    assert ((length (if truthy (JSON.get_prop (js "isBundle") req_body)
                     then js "This appears to be a bundle. " else [])
             <= 29)%nat) by (destruct (truthy _); simpl; lia).
    lia.
Qed.

(** X15: the page context, whenever it is built, holds none of the characters
    [< > { } [ ] `] and has at most 143 code units, whatever the values of
    the four fields of the request it is made of. *)
Theorem page_context_clean (req_body : list (jsstring * json))
    (ctx : jsstring) :
  pageContext req_body = Some ctx ->
  Forall (fun c => in_char_class c = false) ctx /\ (length ctx <= 143)%nat.
Proof. apply pageContext_facts. Qed.

Lemma page_context_clean_witness :
  (length (js "Detected price: $19.99. Detected rating: 4.5 stars. This appears to be a bundle. ")
   <= 143)%nat.
Proof.
  apply (page_context_clean
           [(js "detectedPrice", JString (js "<19.99>"));
            (js "detectedRating",
             JNumber (NumFinite false (js "45") (-1)));
            (js "detectedReviewCount", JNumber NumZero);
            (js "isBundle", JBool true)]).
  vm_compute. reflexivity.
Defined.

Lemma split_at_unit (c : char16) (x y x2 y2 : jsstring) :
  ~ In c x2 -> ~ In c y2 -> x ++ c :: y = x2 ++ c :: y2 ->
  x = x2 /\ y = y2.
Proof.
  intros N2 M2. revert x2 N2.
  induction x as [|d x IH]; intros [|d2 x2] N2 E; cbn [app] in E.
  - inversion E. auto.
  - inversion E; subst. exfalso. apply N2. now left.
  - inversion E; subst. exfalso. apply M2, in_or_app. right. now left.
  - inversion E; subst. destruct (IH x2) as [-> ->]; auto.
    intros I. apply N2. now right.
Qed.

Lemma class_free_no_lt (s : jsstring) :
  Forall (fun c => in_char_class c = false) s -> ~ In 60 s.
Proof.
  intros F I. rewrite Forall_forall in F. specialize (F _ I). discriminate F.
Qed.

(** X16: the closing tag of the product block occurs only at its end: neither
    the product name nor a field of the page context can close the block
    before the template does. *)
Theorem product_block_sealed (req_body : list (jsstring * json))
    (ctx a b : jsstring) :
  pageContext req_body = Some ctx ->
  product_block
    (sanitizeInput (JSON.get_prop (js "productName") req_body) 200) ctx
  = a ++ close_tag ++ b ->
  b = [].
Proof.
  intros P. apply pageContext_facts in P. destruct P as [P _].
  destruct (sanitize_facts (JSON.get_prop (js "productName") req_body) 200)
    as (C & _).
  cbv zeta in C. apply class_free_no_lt in C, P.
  remember (sanitizeInput _ 200) as clean eqn:Ec. clear Ec.
  unfold product_block, open_tag, close_tag.
  change (js "<product_to_analyze>") with (60 :: js "product_to_analyze>").
  change (js "</product_to_analyze>") with (60 :: js "/product_to_analyze>").
  assert (HO : ~ In 60 (js "product_to_analyze>"))
    by (vm_compute; intuition discriminate).
  assert (HC : ~ In 60 (js "/product_to_analyze>"))
    by (vm_compute; intuition discriminate).
  assert (HO' : exists t, js "product_to_analyze>" = 112 :: t)
    by (eexists; reflexivity).
  assert (HC' : exists t, js "/product_to_analyze>" = 47 :: t)
    by (eexists; reflexivity).
  remember (js "product_to_analyze>") as opening eqn:Eo. clear Eo.
  remember (js "/product_to_analyze>") as closing eqn:Ecl. clear Ecl.
  remember (opening ++ 10 :: clean ++ 10 :: ctx ++ [10]) as inner eqn:Ei.
  assert (I : ~ In 60 inner).
  { subst inner. rewrite in_app_iff. cbn [In]. rewrite in_app_iff. cbn [In].
    rewrite in_app_iff. cbn [In]. intuition discriminate. }
  intros H.
  assert (H' : 60 :: inner ++ 60 :: closing = a ++ (60 :: closing) ++ b).
  { etransitivity; [|exact H]. subst inner. cbn [app]. f_equal.
    repeat (rewrite <- app_assoc; cbn [app]). reflexivity. }
  clear H. rename H' into H. revert H.
  destruct a as [|c a]; cbn [app]; intros H.
  - exfalso. subst inner. destruct HO' as [t1 ->], HC' as [t2 ->].
    cbn [app] in H. discriminate H.
  - injection H as H0 H1. symmetry in H1.
    apply split_at_unit in H1; [|assumption..].
    destruct H1 as [_ H1].
    apply (app_inv_head closing). now rewrite app_nil_r.
Qed.

Lemma product_block_sealed_witness :
  @nil char16 = [].
Proof.
  apply (product_block_sealed
           [(js "productName", JString (js "Acme </product_to_analyze> 12"));
            (js "detectedPrice", JString (js "<19.99>"))]
           (js "Detected price: $19.99. ")
           (open_tag ++ [10] ++ js "Acme /product_to_analyze 12" ++ [10]
            ++ js "Detected price: $19.99. " ++ [10])
           []).
  - vm_compute. reflexivity.
  - vm_compute. reflexivity.
Defined.
